(** * TinyGo Unix runtime layer: heap region, signal pipeline, sleep/wake

    A shallow embedding of [src/runtime/runtime_unix.go].  The package-level
    variables of the Go file become the fields of one [state] record, every
    Go function becomes a computation in a small state-and-failure monad,
    and libc / kernel entry points are recorded in a trace and answered by
    an explicit [kernel] record. *)

From Stdlib Require Import ZArith List String Bool Lia Sorted.
Import ListNotations.
Local Open Scope string_scope.
Local Open Scope list_scope.
Local Open Scope Z_scope.

(** ** Build configuration *)

(** The file is built for [darwin] or for (non-baremetal) [linux]. *)
Inductive goos : Type := darwin | linux.

(** [TargetBits], [GOOS] and the clock identifiers are constants of other
    files of the runtime; they are taken as parameters. *)
Record target : Type := mkTarget {
  TargetBits : Z;
  GOOS : goos;
  clock_MONOTONIC_RAW : Z;
  clock_REALTIME : Z
}.

(** ** Fixed-width integers *)

Module Int.

Definition uint32 (x : Z) : Z := x mod 2 ^ 32.
Definition uint64 (x : Z) : Z := x mod 2 ^ 64.

(** Conversion to a signed 64-bit (resp. 32-bit) integer. *)
Definition int64 (x : Z) : Z := (x + 2 ^ 63) mod 2 ^ 64 - 2 ^ 63.
Definition int32 (x : Z) : Z := (x + 2 ^ 31) mod 2 ^ 32 - 2 ^ 31.

(** [uint] and [uintptr] have the width of the target. *)
Definition uintptr (T : target) (x : Z) : Z := x mod 2 ^ TargetBits T.
Definition uint (T : target) (x : Z) : Z := x mod 2 ^ TargetBits T.

(** [x << n] at type [uint32], for an unsigned count [n]: Go gives [0]
    once the count reaches the width. *)
Definition shl32 (x n : Z) : Z :=
  if n <? 32 then uint32 (Z.shiftl x n) else 0.

(** [a &^ b] (AND NOT) on non-negative values. *)
Definition andnot (a b : Z) : Z := Z.ldiff a b.

Definition mul64 (a b : Z) : Z := uint64 (a * b).
Definition add64 (a b : Z) : Z := uint64 (a + b).

(** [bits.TrailingZeros32]: the number of trailing zero bits, [32] for
    the value [0]. *)
Fixpoint tz_scan (n : nat) (i : Z) (v : Z) : Z :=
  match n with
  | O => i
  | S n' => if Z.testbit v i then i else tz_scan n' (i + 1) v
  end.

Definition TrailingZeros32 (v : Z) : Z := tz_scan 32 0 v.

Definition is_uint32 (x : Z) : Prop := 0 <= x < 2 ^ 32.
Definition is_int64 (x : Z) : Prop := - 2 ^ 63 <= x < 2 ^ 63.

End Int.

(** ** The signal channel

    [signalChan] is a buffered channel of [uint32].  Only its buffer is
    modelled: a non-blocking send succeeds exactly when the buffer has
    room, a receive takes the oldest element. *)

Record chan : Type := mkChan {
  chan_buf : list Z;
  chan_cap : nat
}.

(** [make(chan uint32, n)] *)
Definition make_chan (n : nat) : chan := mkChan [] n.

(** [select { case c <- v: ... default: ... }] *)
Definition chan_send_nb (c : chan) (v : Z) : option chan :=
  if (List.length (chan_buf c) <? chan_cap c)%nat
  then Some (mkChan (chan_buf c ++ [v]) (chan_cap c))
  else None.

(** [<-c]; [None] when the receiver would have to park. *)
Definition chan_recv (c : chan) : option (Z * chan) :=
  match chan_buf c with
  | [] => None
  | v :: rest => Some (v, mkChan rest (chan_cap c))
  end.

(** ** Calls that leave the runtime *)

Record timespec : Type := mkTimespec {
  tv_sec : Z;
  tv_nsec : Z
}.

Inductive event : Type :=
| EvMmap (len : Z)
| EvUsleep (usec : Z)
| EvClockGettime (clk_id : Z)
| EvClockGettime64 (clk_id : Z)
| EvSetHeapEnd (newHeapEnd : Z)
| EvSignalEnable (s : Z)
| EvSignalIgnore (s : Z)
| EvSignalDisable (s : Z)
| EvWfiMask (active : Z)
| EvWfiSleep (active : Z) (timeout : Z)
| EvWfiWait (active : Z)
| EvWfiUnmask.

(** What the kernel answers.  Signals are not masked around [usleep], so
    [k_usleep] also tells which signals had their handler run between the
    caller's last look at the pending mask and the return of the call. *)
Record kernel : Type := mkKernel {
  k_mmap : Z -> Z;
  k_usleep : Z -> list Z * Z;
  k_wfi_sleep : Z -> Z -> Z;
  k_wfi_wait : Z -> Z;
  k_clock_gettime : Z -> timespec;
  k_clock_gettime64 : Z -> timespec
}.

(** ** Package-level state *)

Record state : Type := mkState {
  heapSize : Z;
  heapMaxSize : Z;
  heapStart : Z;
  heapEnd : Z;
  signalChan : chan;
  hasSignals : bool;
  receivedSignals : Z;
  activeSignals : Z;
  trace : list event
}.

Definition set_heapSize (v : Z) (st : state) : state :=
  mkState v (heapMaxSize st) (heapStart st) (heapEnd st) (signalChan st)
          (hasSignals st) (receivedSignals st) (activeSignals st) (trace st).

Definition set_heapMaxSize (v : Z) (st : state) : state :=
  mkState (heapSize st) v (heapStart st) (heapEnd st) (signalChan st)
          (hasSignals st) (receivedSignals st) (activeSignals st) (trace st).

Definition set_heapStart (v : Z) (st : state) : state :=
  mkState (heapSize st) (heapMaxSize st) v (heapEnd st) (signalChan st)
          (hasSignals st) (receivedSignals st) (activeSignals st) (trace st).

Definition set_heapEnd (v : Z) (st : state) : state :=
  mkState (heapSize st) (heapMaxSize st) (heapStart st) v (signalChan st)
          (hasSignals st) (receivedSignals st) (activeSignals st) (trace st).

Definition set_signalChan (c : chan) (st : state) : state :=
  mkState (heapSize st) (heapMaxSize st) (heapStart st) (heapEnd st) c
          (hasSignals st) (receivedSignals st) (activeSignals st) (trace st).

Definition set_hasSignals (b : bool) (st : state) : state :=
  mkState (heapSize st) (heapMaxSize st) (heapStart st) (heapEnd st)
          (signalChan st) b (receivedSignals st) (activeSignals st) (trace st).

Definition set_receivedSignals (v : Z) (st : state) : state :=
  mkState (heapSize st) (heapMaxSize st) (heapStart st) (heapEnd st)
          (signalChan st) (hasSignals st) v (activeSignals st) (trace st).

Definition set_activeSignals (v : Z) (st : state) : state :=
  mkState (heapSize st) (heapMaxSize st) (heapStart st) (heapEnd st)
          (signalChan st) (hasSignals st) (receivedSignals st) v (trace st).

Definition log (e : event) (st : state) : state :=
  mkState (heapSize st) (heapMaxSize st) (heapStart st) (heapEnd st)
          (signalChan st) (hasSignals st) (receivedSignals st)
          (activeSignals st) (trace st ++ [e]).

(** The variables as the Go file declares them: [heapSize] starts at
    128 KiB, everything else at its zero value (a nil channel never
    accepts a non-blocking send). *)
Definition boot_state : state :=
  mkState (128 * 1024) 0 0 0 (mkChan [] 0) false 0 0 [].

(** ** The monad: state, fatal halt, parking, fuel *)

Inductive outcome (A : Type) : Type :=
| Ok (a : A) (st : state)
| Fatal (msg : string) (st : state)
| Parked (st : state)
| OutOfFuel.

Arguments Ok {A} a st.
Arguments Fatal {A} msg st.
Arguments Parked {A} st.
Arguments OutOfFuel {A}.

Definition M (A : Type) : Type := state -> outcome A.

Definition ret {A : Type} (a : A) : M A := fun st => Ok a st.

Definition bind {A B : Type} (m : M A) (f : A -> M B) : M B :=
  fun st =>
    match m st with
    | Ok a st' => f a st'
    | Fatal msg st' => Fatal msg st'
    | Parked st' => Parked st'
    | OutOfFuel => OutOfFuel
    end.

Definition gets {A : Type} (f : state -> A) : M A := fun st => Ok (f st) st.
Definition modify (f : state -> state) : M unit := fun st => Ok tt (f st).
Definition emit (e : event) : M unit := modify (log e).
Definition out_of_fuel {A : Type} : M A := fun _ => OutOfFuel.

Declare Scope rt_scope.
Delimit Scope rt_scope with rt.
Notation "x <- m ;; k" := (bind m (fun x => k))
  (at level 100, m at next level, right associativity) : rt_scope.
Notation "m ;; k" := (bind m (fun _ => k))
  (at level 100, right associativity) : rt_scope.
Local Open Scope rt_scope.

(** Modelled from the spec: [runtimePanic] and [runtimePanicAt] live in
    another file of the runtime; the spec has them halt the process
    immediately with a diagnostic. *)
Definition runtimePanic {A : Type} (msg : string) : M A :=
  fun st => Fatal msg st.

Definition runtimePanicAt {A : Type} (msg : string) : M A :=
  fun st => Fatal msg st.

(** ** Time source *)

(** Portable (64-bit) variant of [clock_gettime]. *)
Definition clock_gettime (T : target) (k : kernel) (clk_id : Z) : M timespec :=
  if TargetBits T =? 32 then
    emit (EvClockGettime64 clk_id) ;;
    ret (k_clock_gettime64 k clk_id)
  else
    emit (EvClockGettime clk_id) ;;
    ret (k_clock_gettime k clk_id).

Definition getTime (T : target) (k : kernel) (clock : Z) : M Z :=
  ts <- clock_gettime T k clock ;;
  ret (Int.add64
         (Int.mul64 (Int.mul64 (Int.mul64 (Int.uint64 (tv_sec ts)) 1000) 1000) 1000)
         (Int.uint64 (tv_nsec ts))).

Definition monotime (T : target) (k : kernel) : M Z :=
  getTime T k (clock_MONOTONIC_RAW T).

Definition ticks (T : target) (k : kernel) : M Z :=
  t <- monotime T k ;; ret (Int.int64 t).

Definition ticksToNanoseconds (t : Z) : Z := t.
Definition nanosecondsToTicks (ns : Z) : Z := ns.

(** Modelled from the spec: [nanotime] is defined in another file of the
    runtime; the spec has the wall-clock reading carry the monotonic
    reading in nanoseconds. *)
Definition nanotime (T : target) (k : kernel) : M Z :=
  t <- ticks T k ;; ret (ticksToNanoseconds t).

Definition now (T : target) (k : kernel) : M (Z * Z * Z) :=
  ts <- clock_gettime T k (clock_REALTIME T) ;;
  mono <- nanotime T k ;;
  ret (Int.int64 (tv_sec ts), Int.int32 (tv_nsec ts), mono).

(** ** Heap region *)

Definition MAP_FAILED (T : target) : Z := 2 ^ TargetBits T - 1.

Definition mmap (k : kernel) (len : Z) : M Z :=
  emit (EvMmap len) ;; ret (k_mmap k len).

Fixpoint preinit_loop (fuel : nat) (T : target) (k : kernel) : M unit :=
  match fuel with
  | O => out_of_fuel
  | S fuel' =>
      len <- gets heapMaxSize ;;
      addr <- mmap k len ;;
      if addr =? MAP_FAILED T then
        modify (fun st => set_heapMaxSize (heapMaxSize st / 2) st) ;;
        len' <- gets heapMaxSize ;;
        (if len' <? 4096
         then runtimePanic "cannot allocate heap memory"
         else ret tt) ;;
        preinit_loop fuel' T k
      else
        modify (set_heapStart addr) ;;
        modify (fun st =>
                  set_heapEnd (Int.uintptr T (heapStart st + heapSize st)) st)
  end.

Definition preinit_fuel : nat := 32.

Definition preinit (T : target) (k : kernel) : M unit :=
  modify (set_heapMaxSize (1 * 1024 * 1024 * 1024)) ;;
  preinit_loop preinit_fuel T k.

(** Modelled from the spec: [setHeapEnd] belongs to the allocator; the
    spec has it take the new boundary ("update activeEnd accordingly and
    notify the allocator of the new boundary"). *)
Definition setHeapEnd (newHeapEnd : Z) : M unit :=
  emit (EvSetHeapEnd newHeapEnd) ;;
  modify (set_heapEnd newHeapEnd).

(** [growHeap] tries to grow the heap size.  It returns true if it
    succeeds, false otherwise. *)
Definition growHeap (T : target) : M bool :=
  sz <- gets heapSize ;;
  mx <- gets heapMaxSize ;;
  if sz =? mx then ret false
  else
    modify (fun st =>
              set_heapSize
                (Int.andnot (Int.uintptr T (heapSize st * 4) / 3) 4095) st) ;;
    sz' <- gets heapSize ;;
    (if sz' >? mx
     then modify (fun st => set_heapSize (heapMaxSize st) st)
     else ret tt) ;;
    hs <- gets heapStart ;;
    sz'' <- gets heapSize ;;
    setHeapEnd (Int.uintptr T (hs + sz'')) ;;
    ret true.

(** ** Signal capture and delivery *)

(** [init]: set up a channel to receive signals into. *)
Definition init : M unit :=
  modify (set_signalChan (make_chan 1)).

Definition atomic_LoadUint32 : M Z := gets receivedSignals.

Definition atomic_CompareAndSwapUint32 (old new : Z) : M bool :=
  fun st =>
    if receivedSignals st =? old
    then Ok true (set_receivedSignals new st)
    else Ok false st.

(** Bound on the retries of a compare-and-swap loop. *)
Definition cas_fuel : nat := 2.

Definition signal_enable (s : Z) : M unit :=
  (if s >=? 32
   then runtimePanicAt "unsupported signal number"
   else ret tt) ;;
  modify (set_hasSignals true) ;;
  modify (fun st =>
            set_activeSignals (Z.lor (activeSignals st) (Int.shl32 1 s)) st) ;;
  emit (EvSignalEnable s).

Definition signal_ignore (s : Z) : M unit :=
  (if s >=? 32
   then runtimePanicAt "unsupported signal number"
   else ret tt) ;;
  modify (fun st =>
            set_activeSignals
              (Int.andnot (activeSignals st) (Int.shl32 1 s)) st) ;;
  emit (EvSignalIgnore s).

Definition signal_disable (s : Z) : M unit :=
  (if s >=? 32
   then runtimePanicAt "unsupported signal number"
   else ret tt) ;;
  modify (fun st =>
            set_activeSignals
              (Int.andnot (activeSignals st) (Int.shl32 1 s)) st) ;;
  emit (EvSignalDisable s).

(** The handler: the atomic equivalent of [receivedSignals |= 1 << s]. *)
Fixpoint signal_handler_loop (fuel : nat) (s : Z) : M unit :=
  match fuel with
  | O => out_of_fuel
  | S fuel' =>
      let mask := Int.shl32 1 (Int.uint32 s) in
      val <- atomic_LoadUint32 ;;
      swapped <- atomic_CompareAndSwapUint32 val (Z.lor val mask) ;;
      if swapped then ret tt else signal_handler_loop fuel' s
  end.

Definition tinygo_signal_handler (s : Z) : M unit :=
  signal_handler_loop cas_fuel s.

(** Non-blocking send on [signalChan]. *)
Definition signalChan_send_nb (num : Z) : M bool :=
  fun st =>
    match chan_send_nb (signalChan st) num with
    | Some c => Ok true (set_signalChan c st)
    | None => Ok false st
    end.

(** The inner loop of [checkSignals]: atomically clear [num]. *)
Fixpoint clear_signal_loop (fuel : nat) (val num : Z) : M unit :=
  match fuel with
  | O => out_of_fuel
  | S fuel' =>
      let newVal := Int.andnot val (Int.shl32 1 num) in
      swapped <- atomic_CompareAndSwapUint32 val newVal ;;
      if swapped then ret tt
      else
        val' <- atomic_LoadUint32 ;;
        clear_signal_loop fuel' val' num
  end.

(** Find a signal that previously occurred and send it into [signalChan];
    return true if at least one signal was delivered this way. *)
Fixpoint checkSignals_loop (fuel : nat) (gotSignals : bool) : M bool :=
  match fuel with
  | O => out_of_fuel
  | S fuel' =>
      val <- atomic_LoadUint32 ;;
      if val =? 0 then ret gotSignals
      else
        let num := Int.TrailingZeros32 val in
        sent <- signalChan_send_nb num ;;
        if sent then
          clear_signal_loop cas_fuel val num ;;
          checkSignals_loop fuel' true
        else ret gotSignals
  end.

Definition checkSignals_fuel : nat := 33.

Definition checkSignals : M bool :=
  checkSignals_loop checkSignals_fuel false.

(** Called from os/signal to get the next received signal. *)
Definition signal_recv : M Z :=
  fun st =>
    match chan_recv (signalChan st) with
    | None => Parked st
    | Some (val, c) =>
        (checkSignals ;; ret val) (set_signalChan c st)
    end.

(** [len(c)] *)
Definition chan_len (c : chan) : nat := List.length (chan_buf c).

(** [signal_waitUntilIdle]: make sure all signals are sent on the channel,
    then that all of them are processed.  [Gosched] belongs to the
    scheduler; what the other goroutines do while the caller yields is the
    parameter [Gosched].  Neither loop has a bound of its own, so the fuel
    is a parameter as well. *)
Fixpoint waitUntilIdle_send (fuel : nat) (Gosched : M unit) : M unit :=
  match fuel with
  | O => out_of_fuel
  | S fuel' =>
      val <- atomic_LoadUint32 ;;
      if negb (val =? 0) then
        checkSignals ;;
        Gosched ;;
        waitUntilIdle_send fuel' Gosched
      else ret tt
  end.

Fixpoint waitUntilIdle_processed (fuel : nat) (Gosched : M unit) : M unit :=
  match fuel with
  | O => out_of_fuel
  | S fuel' =>
      n <- gets (fun st => chan_len (signalChan st)) ;;
      if negb (Nat.eqb n 0) then
        Gosched ;;
        waitUntilIdle_processed fuel' Gosched
      else ret tt
  end.

Definition signal_waitUntilIdle (fuel : nat) (Gosched : M unit) : M unit :=
  waitUntilIdle_send fuel Gosched ;;
  waitUntilIdle_processed fuel Gosched.

(** ** Sleep and wake *)

Fixpoint run_handlers (l : list Z) : M unit :=
  match l with
  | [] => ret tt
  | s :: l' => tinygo_signal_handler s ;; run_handlers l'
  end.

Definition usleep (k : kernel) (usec : Z) : M Z :=
  emit (EvUsleep usec) ;;
  run_handlers (fst (k_usleep k usec)) ;;
  ret (snd (k_usleep k usec)).

Definition tinygo_wfi_mask (active : Z) : M unit := emit (EvWfiMask active).
Definition tinygo_wfi_unmask : M unit := emit EvWfiUnmask.

Definition tinygo_wfi_sleep (k : kernel) (active timeout : Z) : M Z :=
  emit (EvWfiSleep active timeout) ;; ret (k_wfi_sleep k active timeout).

Definition tinygo_wfi_wait (k : kernel) (active : Z) : M Z :=
  emit (EvWfiWait active) ;; ret (k_wfi_wait k active).

Definition sleepTicks (T : target) (k : kernel) (d : Z) : M unit :=
  hs <- gets hasSignals ;;
  if negb hs then
    usleep k (Int.uint T d / 1000) ;;
    ret tt
  else
    match GOOS T with
    | darwin =>
        got <- checkSignals ;;
        if got then ret tt
        else
          result <- usleep k (Int.uint T d / 1000) ;;
          if negb (result =? 0)
          then checkSignals ;; ret tt
          else ret tt
    | linux =>
        act <- gets activeSignals ;;
        tinygo_wfi_mask act ;;
        got <- checkSignals ;;
        if got then tinygo_wfi_unmask
        else
          act' <- gets activeSignals ;;
          signal <- tinygo_wfi_sleep k act' (Int.uint64 d) ;;
          (if signal >=? 0
           then tinygo_signal_handler signal ;; checkSignals ;; ret tt
           else ret tt) ;;
          tinygo_wfi_unmask
    end.

Definition waitForEvents (k : kernel) : M unit :=
  hs <- gets hasSignals ;;
  if hs then
    act <- gets activeSignals ;;
    tinygo_wfi_mask act ;;
    got <- checkSignals ;;
    if got then tinygo_wfi_unmask
    else
      act' <- gets activeSignals ;;
      signal <- tinygo_wfi_wait k act' ;;
      tinygo_signal_handler signal ;;
      checkSignals ;;
      tinygo_wfi_unmask
  else
    runtimePanic "deadlocked: no event source".

(** ** Runs of the runtime

    After start-up ([preinit], then [init]) the rest of the program drives
    the runtime through the operations below; the kernel may also run the
    signal handler between any two of them. *)

Inductive op : Type :=
| OpGrowHeap
| OpSignalEnable (s : Z)
| OpSignalIgnore (s : Z)
| OpSignalDisable (s : Z)
| OpSignalHandler (s : Z)
| OpCheckSignals
| OpSignalRecv
| OpSleepTicks (k : kernel) (d : Z)
| OpWaitForEvents (k : kernel)
| OpGetTime (k : kernel) (clock : Z).

Definition exec_op (T : target) (o : op) : M unit :=
  match o with
  | OpGrowHeap => growHeap T ;; ret tt
  | OpSignalEnable s => signal_enable s
  | OpSignalIgnore s => signal_ignore s
  | OpSignalDisable s => signal_disable s
  | OpSignalHandler s => tinygo_signal_handler s
  | OpCheckSignals => checkSignals ;; ret tt
  | OpSignalRecv => signal_recv ;; ret tt
  | OpSleepTicks k d => sleepTicks T k d
  | OpWaitForEvents k => waitForEvents k
  | OpGetTime k clock => getTime T k clock ;; ret tt
  end.

Fixpoint run (T : target) (ops : list op) : M unit :=
  match ops with
  | [] => ret tt
  | o :: ops' => exec_op T o ;; run T ops'
  end.

Definition startup (T : target) (k : kernel) : M unit :=
  preinit T k ;; init.

(** ** [checkSignals] step by step

    The handler may run between any two accesses [checkSignals] makes to
    [receivedSignals].  Here the control points of [checkSignals] are
    explicit, a step is one of its atomic actions, and runs of the handler
    are interleaved freely. *)

Inductive cs_pc : Type :=
| PcLoad (gotSignals : bool)
| PcSend (gotSignals : bool) (val : Z)
| PcCas (val num : Z)
| PcReload (num : Z)
| PcDone (result : bool).

Definition cs_step (pc : cs_pc) : M cs_pc :=
  match pc with
  | PcLoad got =>
      val <- atomic_LoadUint32 ;;
      if val =? 0 then ret (PcDone got) else ret (PcSend got val)
  | PcSend got val =>
      let num := Int.TrailingZeros32 val in
      sent <- signalChan_send_nb num ;;
      if sent then ret (PcCas val num) else ret (PcDone got)
  | PcCas val num =>
      let newVal := Int.andnot val (Int.shl32 1 num) in
      swapped <- atomic_CompareAndSwapUint32 val newVal ;;
      if swapped then ret (PcLoad true) else ret (PcReload num)
  | PcReload num =>
      val <- atomic_LoadUint32 ;;
      ret (PcCas val num)
  | PcDone result => ret (PcDone result)
  end.

Inductive cs_steps : cs_pc * state -> cs_pc * state -> Prop :=
| cs_steps_refl c : cs_steps c c
| cs_steps_main pc st pc' st' c :
    cs_step pc st = Ok pc' st' ->
    cs_steps (pc', st') c ->
    cs_steps (pc, st) c
| cs_steps_irq pc st s st' c :
    tinygo_signal_handler s st = Ok tt st' ->
    cs_steps (pc, st') c ->
    cs_steps (pc, st) c.

(** * Vocabulary of the properties *)

(** ** Frames *)

(** The state an outcome carries, if any, is [R]-related to [st]. *)
Definition outcome_rel {A : Type} (R : state -> state -> Prop)
           (st : state) (o : outcome A) : Prop :=
  match o with
  | Ok _ st' => R st st'
  | Fatal _ st' => R st st'
  | Parked st' => R st st'
  | OutOfFuel => True
  end.

(** [preserves R m]: however [m] ends, the state it ends in is
    [R]-related to the one it started from. *)
Definition preserves {A : Type} (R : state -> state -> Prop)
           (m : M A) : Prop :=
  forall st, outcome_rel R st (m st).

(** The calls that reserve memory. *)

Definition is_mmap (e : event) : bool :=
  match e with
  | EvMmap _ => true
  | _ => false
  end.

(** What no operation after start-up changes. *)
Record stable (st st' : state) : Prop := mkStable {
  stable_heapStart : heapStart st' = heapStart st;
  stable_heapMaxSize : heapMaxSize st' = heapMaxSize st;
  stable_trace :
    exists tr, trace st' = trace st ++ tr /\ filter is_mmap tr = [];
  stable_hasSignals : hasSignals st = true -> hasSignals st' = true;
  stable_chan_cap : chan_cap (signalChan st') = chan_cap (signalChan st)
}.

(** Agreement of two states on everything but the pending mask, the
    queue contents and the trace. *)
Record same_config (st st' : state) : Prop := mkSameConfig {
  sc_heapSize : heapSize st' = heapSize st;
  sc_heapMaxSize : heapMaxSize st' = heapMaxSize st;
  sc_heapStart : heapStart st' = heapStart st;
  sc_heapEnd : heapEnd st' = heapEnd st;
  sc_hasSignals : hasSignals st' = hasSignals st;
  sc_activeSignals : activeSignals st' = activeSignals st;
  sc_chan_cap : chan_cap (signalChan st') = chan_cap (signalChan st)
}.

(** The flag is left alone. *)
Definition flag_kept (st st' : state) : Prop := hasSignals st' = hasSignals st.

(** The outcome is not an exhausted fuel, and [P] holds of the state of a
    normal return. *)
Definition outcome_ok {A : Type} (P : state -> Prop) (o : outcome A) : Prop :=
  match o with
  | Ok _ st' => P st'
  | Fatal _ _ => True
  | Parked _ => True
  | OutOfFuel => False
  end.

(** [total_inv P m]: started in a state satisfying [P], [m] never runs out
    of fuel, and when it returns normally [P] holds again. *)
Definition total_inv {A : Type} (P : state -> Prop) (m : M A) : Prop :=
  forall st, P st -> outcome_ok P (m st).

(** The pending mask is a 32-bit value. *)
Definition sig_ok (st : state) : Prop := Int.is_uint32 (receivedSignals st).

(** ** Queue and pending mask *)

(** The queue has no room left. *)
Definition chan_full (c : chan) : Prop :=
  (chan_cap c <= List.length (chan_buf c))%nat.

(** The queue can take one more number. *)
Definition chan_room (c : chan) : bool :=
  (List.length (chan_buf c) <? chan_cap c)%nat.

(** The state after [sent] went into the queue and the pending mask
    became [r]. *)
Definition drained (sent : list Z) (r : Z) (st : state) : state :=
  set_receivedSignals r
    (set_signalChan
       (mkChan (chan_buf (signalChan st) ++ sent) (chan_cap (signalChan st)))
       st).

(** What one call of [checkSignals] may do to the state. *)
Record drain_rel (st st' : state) (sent : list Z) : Prop := mkDrainRel {
  dr_state : st' = drained sent (receivedSignals st') st;
  dr_sorted : StronglySorted Z.lt sent;
  dr_sent_pending :
    forall i, In i sent ->
              0 <= i < 32 /\ Z.testbit (receivedSignals st) i = true;
  dr_bits :
    forall i, Z.testbit (receivedSignals st') i =
              Z.testbit (receivedSignals st) i && negb (existsb (Z.eqb i) sent);
  dr_lowest :
    forall i j, In i sent -> Z.testbit (receivedSignals st') j = true -> i < j;
  dr_stop : receivedSignals st' <> 0 -> chan_full (signalChan st');
  dr_uint32 : Int.is_uint32 (receivedSignals st')
}.

(** The pending mask after the handler ran for each signal of [l]. *)
Definition arrive (l : list Z) (r : Z) : Z :=
  fold_left (fun acc s => Z.lor acc (Int.shl32 1 (Int.uint32 s))) l r.

(** What holds at a control point once [sent] has gone into the queue
    during this call. *)
Definition cs_inv (st0 : state) (pc : cs_pc) (st : state)
           (sent : list Z) : Prop :=
  chan_buf (signalChan st) = chan_buf (signalChan st0) ++ sent
  /\ match pc with
     | PcLoad got | PcSend got _ | PcDone got => got = true <-> sent <> []
     | PcCas _ num | PcReload num => In num sent
     end.

(** ** Heap region *)

Definition page_size : Z := 4096.
Definition initial_heapSize : Z := 128 * 1024.

(** The sizes [preinit] asks for, in order: 1 GiB, then half of it, ... *)
Definition candidate (j : nat) : Z := 2 ^ (30 - Z.of_nat j).

Definition mmap_attempts (first count : nat) : list event :=
  map (fun j => EvMmap (candidate j)) (seq first count).

(** The size [growHeap] computes before capping it. *)
Definition grow_target (sz : Z) : Z := page_size * (sz * 4 / 3 / page_size).

(** The state after a successful [growHeap] that settles on [sz]. *)
Definition grown (T : target) (sz : Z) (st : state) : state :=
  mkState sz (heapMaxSize st) (heapStart st)
          (Int.uintptr T (heapStart st + sz))
          (signalChan st) (hasSignals st) (receivedSignals st)
          (activeSignals st)
          (trace st ++ [EvSetHeapEnd (Int.uintptr T (heapStart st + sz))]).

(** The heap region as start-up and [growHeap] leave it. *)
Record heap_ok (st : state) : Prop := mkHeapOk {
  ho_max : exists j, (j <= 18)%nat /\ heapMaxSize st = candidate j;
  ho_page : heapSize st mod page_size = 0;
  ho_size :
    initial_heapSize <= heapSize st <= heapMaxSize st
    \/ (heapSize st = initial_heapSize /\ heapMaxSize st < initial_heapSize)
    \/ heapSize st = heapMaxSize st
}.

(** What the operations after start-up do to a well-formed heap region:
    they keep it well formed and keep [heapMaxSize]; when the reservation
    is at least the initial [heapSize], they never shrink [heapSize]. *)
Definition heap_step (st st' : state) : Prop :=
  heap_ok st ->
  heap_ok st'
  /\ heapMaxSize st' = heapMaxSize st
  /\ (initial_heapSize <= heapMaxSize st -> heapSize st <= heapSize st').

(** The states the runtime can be in after start-up. *)
Inductive reachable (T : target) : state -> Prop :=
| reach_startup k st :
    startup T k boot_state = Ok tt st -> reachable T st
| reach_step o st st' :
    reachable T st -> exec_op T o st = Ok tt st' -> reachable T st'.

(** ** Concrete targets, kernels and states *)

Definition linux64 : target := mkTarget 64 linux 4 0.
Definition darwin64 : target := mkTarget 64 darwin 4 0.
Definition linux32 : target := mkTarget 32 linux 4 0.

(** A kernel whose [mmap] grants at most [limit] bytes, at [addr]. *)
Definition kernel_granting (T : target) (limit addr : Z) : kernel :=
  mkKernel (fun len => if len <=? limit then addr else MAP_FAILED T)
           (fun _ => ([], 0))
           (fun _ _ => -1)
           (fun _ => 2)
           (fun _ => mkTimespec 0 0)
           (fun _ => mkTimespec 0 0).

Definition quiet_kernel : kernel := kernel_granting linux64 1073741824 4096.

(** A kernel under which signal 3 is handled after the caller's look at
    the pending mask, and [usleep] then runs its full time (result 0). *)
Definition racing_kernel : kernel :=
  mkKernel (fun _ => 4096) (fun _ => ([3], 0)) (fun _ _ => -1) (fun _ => 3)
           (fun _ => mkTimespec 0 0) (fun _ => mkTimespec 0 0).

(** A clock that reads 18446744074 seconds. *)
Definition far_kernel : kernel :=
  mkKernel (fun _ => 4096) (fun _ => ([], 0)) (fun _ _ => -1) (fun _ => 2)
           (fun _ => mkTimespec 18446744074 0)
           (fun _ => mkTimespec 18446744074 0).

(** Signals 3 and 5 pending, queue empty. *)
Definition drain_example : state :=
  mkState 131072 1073741824 4096 135168 (mkChan [] 1) true 40 40 [].

(** Signal 2 enabled, nothing pending, queue empty. *)
Definition drain_idle : state :=
  mkState 131072 1073741824 4096 135168 (make_chan 1) true 0 4 [].

(** After start-up: signals 2 and 5 are enabled, 5 arrives and is drained
    into the queue, then 2 arrives before anyone has read the queue. *)
Definition backlog_ops : list op :=
  [OpSignalEnable 2; OpSignalEnable 5; OpSignalHandler 5; OpCheckSignals;
   OpSignalHandler 2].

(** The state this leads to: signal 2 pending, the queue still holding 5. *)
Definition backlog_state : state :=
  mkState 131072 1073741824 4096 135168 (mkChan [5] 1) true 4 36
          [EvMmap 1073741824; EvSignalEnable 2; EvSignalEnable 5].

(** After start-up and [signal_enable 3]: nothing pending, queue empty. *)
Definition armed_state : state :=
  mkState 131072 1073741824 4096 135168 (make_chan 1) true 0 8
          [EvMmap 1073741824; EvSignalEnable 3].

(** ** Consumers of the queue *)

(** [n] calls of [signal_recv] in a row, with the numbers they return. *)
Fixpoint recv_all (n : nat) : M (list Z) :=
  match n with
  | O => ret []
  | S n' =>
      v <- signal_recv ;;
      vs <- recv_all n' ;;
      ret (v :: vs)
  end.

(** The signal numbers pending in the mask [r], in ascending order. *)
Definition pending_list (r : Z) : list Z :=
  filter (Z.testbit r) (map Z.of_nat (seq 0 32)).

(** A goroutine that reads the queue: when it gets to run it takes one
    number with [signal_recv] if there is one, and stays parked
    otherwise. *)
Definition consumer : M unit :=
  fun st =>
    match chan_buf (signalChan st) with
    | [] => Ok tt st
    | _ :: _ => (signal_recv ;; ret tt) st
    end.

(** The queue as [init] and the drain keep it: capacity one, at most one
    entry, every entry a signal number below 32; the pending mask a
    32-bit value. *)
Record queue_ok (st : state) : Prop := mkQueueOk {
  qo_mask : Int.is_uint32 (receivedSignals st);
  qo_cap : chan_cap (signalChan st) = 1%nat;
  qo_len : (List.length (chan_buf (signalChan st)) <= 1)%nat;
  qo_entries : Forall (fun v => 0 <= v < 32) (chan_buf (signalChan st))
}.

(** The number of signals on their way to the reader: pending in the
    mask or waiting in the queue. *)
Definition backlog (st : state) : nat :=
  (List.length (pending_list (receivedSignals st))
   + List.length (chan_buf (signalChan st)))%nat.

(** ** Clock readings *)

(** The kernel's answer to a clock reading on target [T], and the call
    that obtains it. *)
Definition kernel_reading (T : target) (k : kernel) (clock : Z) : timespec :=
  if TargetBits T =? 32 then k_clock_gettime64 k clock
  else k_clock_gettime k clock.

Definition reading_event (T : target) (clock : Z) : event :=
  if TargetBits T =? 32 then EvClockGettime64 clock
  else EvClockGettime clock.

Definition nanoseconds (ts : timespec) : Z := tv_sec ts * 10 ^ 9 + tv_nsec ts.

(** The heap end is where the live part of the region ends. *)
Definition heap_end_ok (T : target) (st : state) : Prop :=
  heapEnd st = Int.uintptr T (heapStart st + heapSize st).

(** Nothing pending, nothing queued, signals registered. *)
Definition idle_state : state :=
  mkState 131072 1073741824 4096 135168 (make_chan 1) true 0 40
          [EvMmap 1073741824; EvSignalEnable 3; EvSignalEnable 5].

(** Signals 3 and 5 pending on top of that. *)
Definition pending_state : state := set_receivedSignals 40 idle_state.

(** A kernel whose waits are ended by signal 5. *)
Definition waking_kernel : kernel :=
  mkKernel (fun _ => 4096) (fun _ => ([], 0)) (fun _ _ => 5) (fun _ => 5)
           (fun _ => mkTimespec 0 0) (fun _ => mkTimespec 0 0).

(** * Properties *)

(** ** Bit-level facts *)

Module IntFacts.
Import Int.

Lemma tz_scan_bounds n i v :
  i <= tz_scan n i v <= i + Z.of_nat n.
Proof.
  revert i; induction n as [|n IH]; intros i.
  - simpl. lia.
  - cbn [tz_scan]. destruct (Z.testbit v i).
    + lia.
    + specialize (IH (i + 1)). lia.
Qed.

Lemma tz_scan_below n i v j :
  i <= j < tz_scan n i v -> Z.testbit v j = false.
Proof.
  revert i; induction n as [|n IH]; intros i Hj.
  - simpl in Hj. lia.
  - cbn [tz_scan] in Hj. destruct (Z.testbit v i) eqn:E.
    + lia.
    + destruct (Z.eq_dec j i) as [->|Hne]; [exact E|].
      apply (IH (i + 1)). lia.
Qed.

Lemma tz_scan_hit n i v :
  tz_scan n i v < i + Z.of_nat n -> Z.testbit v (tz_scan n i v) = true.
Proof.
  revert i; induction n as [|n IH]; intros i Hlt.
  - simpl in Hlt. lia.
  - cbn [tz_scan] in *. destruct (Z.testbit v i) eqn:E.
    + exact E.
    + apply IH. lia.
Qed.

Lemma uint32_high_bits v i :
  is_uint32 v -> 32 <= i -> Z.testbit v i = false.
Proof.
  intros Hv Hi. unfold is_uint32 in Hv.
  rewrite <- (Z.mod_small v (2 ^ 32)) by exact Hv.
  apply Z.mod_pow2_bits_high. lia.
Qed.

Lemma TrailingZeros32_range v :
  0 <= TrailingZeros32 v <= 32.
Proof.
  unfold TrailingZeros32.
  pose proof (tz_scan_bounds 32 0 v). lia.
Qed.

Lemma TrailingZeros32_below v j :
  0 <= j < TrailingZeros32 v -> Z.testbit v j = false.
Proof. apply tz_scan_below. Qed.

Lemma TrailingZeros32_nonzero v :
  is_uint32 v -> v <> 0 -> TrailingZeros32 v < 32.
Proof.
  intros Hv Hnz.
  destruct (Z_lt_ge_dec (TrailingZeros32 v) 32) as [Hlt|Hge]; [exact Hlt|].
  exfalso. apply Hnz. apply Z.bits_inj'. intros j Hj.
  rewrite Z.bits_0.
  destruct (Z_lt_ge_dec j 32).
  - apply TrailingZeros32_below. lia.
  - apply uint32_high_bits; [exact Hv | lia].
Qed.

Lemma TrailingZeros32_set v :
  is_uint32 v -> v <> 0 -> Z.testbit v (TrailingZeros32 v) = true.
Proof.
  intros Hv Hnz. pose proof (TrailingZeros32_nonzero v Hv Hnz) as Hlt.
  unfold TrailingZeros32 in *. apply tz_scan_hit. simpl Z.of_nat. lia.
Qed.

Lemma shl32_one n :
  0 <= n < 32 -> shl32 1 n = 2 ^ n.
Proof.
  intros Hn. unfold shl32, uint32.
  destruct (n <? 32) eqn:E; [|apply Z.ltb_ge in E; lia].
  rewrite Z.shiftl_1_l. apply Z.mod_small.
  split; [apply Z.pow_nonneg; lia | apply Z.pow_lt_mono_r; lia].
Qed.

Lemma shl32_is_uint32 x n : is_uint32 (shl32 x n).
Proof.
  unfold shl32, uint32, is_uint32.
  destruct (n <? 32).
  - apply Z.mod_pos_bound. lia.
  - lia.
Qed.

Lemma testbit_pow2 n i :
  0 <= n -> Z.testbit (2 ^ n) i = (i =? n).
Proof.
  intros Hn. destruct (Z.eqb_spec i n) as [->|Hne].
  - apply Z.pow2_bits_true. exact Hn.
  - apply Z.pow2_bits_false. congruence.
Qed.

Lemma andnot_bit v n i :
  0 <= n -> Z.testbit (andnot v (2 ^ n)) i = Z.testbit v i && negb (i =? n).
Proof.
  intros Hn. unfold andnot.
  destruct (Z_lt_ge_dec i 0) as [Hneg|Hpos].
  - rewrite !Z.testbit_neg_r by lia. reflexivity.
  - rewrite Z.ldiff_spec, testbit_pow2 by lia. reflexivity.
Qed.

Lemma is_uint32_of_bits v :
  0 <= v -> (forall i, 32 <= i -> Z.testbit v i = false) -> is_uint32 v.
Proof.
  intros Hv Hhigh. unfold is_uint32. split; [exact Hv|].
  destruct (Z.eq_dec v 0) as [->|Hnz]; [reflexivity|].
  apply Z.log2_lt_pow2; [lia|].
  destruct (Z_lt_ge_dec (Z.log2 v) 32) as [Hlt|Hge]; [exact Hlt|].
  exfalso. assert (Hb : Z.testbit v (Z.log2 v) = true)
    by (apply Z.bit_log2; lia).
  rewrite Hhigh in Hb by lia. discriminate.
Qed.

Lemma andnot_is_uint32 v m :
  is_uint32 v -> 0 <= m -> is_uint32 (andnot v m).
Proof.
  intros Hv Hm. apply is_uint32_of_bits.
  - unfold andnot. apply Z.ldiff_nonneg. left. apply Hv.
  - intros i Hi. unfold andnot. rewrite Z.ldiff_spec.
    rewrite (uint32_high_bits v i Hv Hi). reflexivity.
Qed.

Lemma lor_is_uint32 a b :
  is_uint32 a -> is_uint32 b -> is_uint32 (Z.lor a b).
Proof.
  intros Ha Hb. apply is_uint32_of_bits.
  - apply Z.lor_nonneg. split; [apply Ha | apply Hb].
  - intros i Hi. rewrite Z.lor_spec.
    rewrite (uint32_high_bits a i Ha Hi), (uint32_high_bits b i Hb Hi).
    reflexivity.
Qed.

End IntFacts.

(** ** Sequential behaviour of the signal pipeline *)

Section SignalFacts.
Import Int IntFacts.

Lemma cas_hit new st :
  atomic_CompareAndSwapUint32 (receivedSignals st) new st
  = Ok true (set_receivedSignals new st).
Proof.
  unfold atomic_CompareAndSwapUint32. rewrite Z.eqb_refl. reflexivity.
Qed.

Lemma signal_handler_loop_eq fuel s st :
  signal_handler_loop (S fuel) s st
  = Ok tt (set_receivedSignals
             (Z.lor (receivedSignals st) (shl32 1 (uint32 s))) st).
Proof.
  cbn [signal_handler_loop]. unfold bind, atomic_LoadUint32, gets.
  rewrite cas_hit. reflexivity.
Qed.

Lemma tinygo_signal_handler_eq s st :
  tinygo_signal_handler s st
  = Ok tt (set_receivedSignals
             (Z.lor (receivedSignals st) (shl32 1 (uint32 s))) st).
Proof. apply signal_handler_loop_eq. Qed.

Lemma clear_signal_loop_eq fuel num st :
  clear_signal_loop (S fuel) (receivedSignals st) num st
  = Ok tt (set_receivedSignals
             (andnot (receivedSignals st) (shl32 1 num)) st).
Proof.
  cbn [clear_signal_loop]. unfold bind. rewrite cas_hit. reflexivity.
Qed.

(** One iteration of the loop of [checkSignals]. *)
Lemma checkSignals_loop_step fuel got st :
  checkSignals_loop (S fuel) got st =
  if receivedSignals st =? 0 then Ok got st
  else
    match chan_send_nb (signalChan st)
                       (TrailingZeros32 (receivedSignals st)) with
    | Some c =>
        checkSignals_loop fuel true
          (set_receivedSignals
             (andnot (receivedSignals st)
                     (shl32 1 (TrailingZeros32 (receivedSignals st))))
             (set_signalChan c st))
    | None => Ok got st
    end.
Proof.
  cbn [checkSignals_loop]. unfold bind at 1. unfold atomic_LoadUint32, gets.
  destruct (receivedSignals st =? 0); [reflexivity|].
  unfold bind at 1. unfold signalChan_send_nb.
  destruct (chan_send_nb (signalChan st) _) as [c|]; [|reflexivity].
  unfold bind.
  change (receivedSignals st)
    with (receivedSignals (set_signalChan c st)) at 1.
  unfold cas_fuel. rewrite clear_signal_loop_eq. reflexivity.
Qed.

Lemma drained_nil st : drained [] (receivedSignals st) st = st.
Proof.
  destruct st as [a b c d [buf cap] e f g h].
  unfold drained, set_receivedSignals, set_signalChan. simpl.
  rewrite app_nil_r. reflexivity.
Qed.

Lemma chan_send_nb_some c v c' :
  chan_send_nb c v = Some c' ->
  c' = mkChan (chan_buf c ++ [v]) (chan_cap c)
  /\ (List.length (chan_buf c) < chan_cap c)%nat.
Proof.
  unfold chan_send_nb.
  destruct (Nat.ltb_spec (List.length (chan_buf c)) (chan_cap c));
    intros H'; inversion H'; auto.
Qed.

Lemma chan_send_nb_none c v :
  chan_send_nb c v = None -> chan_full c.
Proof.
  unfold chan_send_nb, chan_full.
  destruct (Nat.ltb_spec (List.length (chan_buf c)) (chan_cap c));
    intros H'; [discriminate | assumption].
Qed.

Lemma drain_rel_nil st :
  is_uint32 (receivedSignals st) ->
  (receivedSignals st <> 0 -> chan_full (signalChan st)) ->
  drain_rel st st [].
Proof.
  intros Hr Hfull. constructor.
  - symmetry. apply drained_nil.
  - constructor.
  - intros i [].
  - intros i. simpl. rewrite andb_true_r. reflexivity.
  - intros i j [].
  - exact Hfull.
  - exact Hr.
Qed.

Lemma checkSignals_loop_spec fuel :
  forall got st k,
    is_uint32 (receivedSignals st) ->
    0 <= k <= 32 ->
    (forall i, 0 <= i < k -> Z.testbit (receivedSignals st) i = false) ->
    33 - k <= Z.of_nat fuel ->
    exists sent st',
      checkSignals_loop fuel got st
      = Ok (got || negb (Nat.eqb (List.length sent) 0)) st'
      /\ drain_rel st st' sent
      /\ Forall (fun i => k <= i) sent.
Proof.
  induction fuel as [|fuel IH]; intros got st k Hr Hk Hlow Hfuel.
  - change (Z.of_nat 0) with 0 in Hfuel. lia.
  - rewrite checkSignals_loop_step.
    destruct (Z.eqb_spec (receivedSignals st) 0) as [Hz|Hnz].
    + exists [], st. simpl. rewrite orb_false_r.
      split; [reflexivity|]. split; [|constructor].
      apply drain_rel_nil; [exact Hr | congruence].
    + set (r := receivedSignals st) in *.
      set (num := TrailingZeros32 r).
      assert (Hnum_set : Z.testbit r num = true)
        by (apply TrailingZeros32_set; assumption).
      assert (Hnum32 : num < 32)
        by (apply TrailingZeros32_nonzero; assumption).
      assert (Hnumk : k <= num).
      { destruct (Z_lt_ge_dec num k) as [Hlt|Hge]; [|lia].
        pose proof (TrailingZeros32_range r).
        rewrite Hlow in Hnum_set by (fold num in H; lia). discriminate. }
      destruct (chan_send_nb (signalChan st) num) as [c|] eqn:Hsend.
      * apply chan_send_nb_some in Hsend. destruct Hsend as [-> Hroom].
        rewrite shl32_one by lia.
        set (c := mkChan (chan_buf (signalChan st) ++ [num])
                         (chan_cap (signalChan st))).
        set (st1 := set_receivedSignals (andnot r (2 ^ num))
                                        (set_signalChan c st)).
        assert (Hr1 : is_uint32 (receivedSignals st1)).
        { subst st1. simpl. apply andnot_is_uint32; [exact Hr|].
          apply Z.pow_nonneg. lia. }
        assert (Hlow1 : forall i, 0 <= i < num + 1 ->
                                  Z.testbit (receivedSignals st1) i = false).
        { intros i Hi. subst st1. simpl. rewrite andnot_bit by lia.
          destruct (Z.eqb_spec i num) as [->|Hne].
          - rewrite andb_false_r. reflexivity.
          - fold r. rewrite (TrailingZeros32_below r i) by (fold num; lia).
            reflexivity. }
        destruct (IH true st1 (num + 1) Hr1 ltac:(lia) Hlow1 ltac:(lia))
          as (sent & st' & Hrun & Hrel & Hall).
        exists (num :: sent), st'.
        split; [rewrite Hrun; simpl; rewrite orb_true_r; reflexivity|].
        destruct Hrel as [Hst Hsorted Hpend Hbits Hlowest Hstop Hu].
        split; [constructor|].
        -- rewrite Hst at 1. subst st1 c. unfold drained. simpl.
           rewrite <- app_assoc. reflexivity.
        -- constructor; [exact Hsorted|].
           eapply Forall_impl; [|exact Hall]. simpl. intros a Ha. lia.
        -- intros i [<-|Hin].
           ++ split; [lia | exact Hnum_set].
           ++ destruct (Hpend i Hin) as [Hi Hb]. split; [exact Hi|].
              subst st1. simpl in Hb. rewrite andnot_bit in Hb by lia.
              apply andb_true_iff in Hb. apply Hb.
        -- intros i. rewrite Hbits. subst st1. simpl.
           rewrite andnot_bit by lia. fold r.
           rewrite (Z.eqb_sym i num).
           destruct (Z.testbit r i), (num =? i), (existsb (Z.eqb i) sent);
             reflexivity.
        -- intros i j [<-|Hin] Hj.
           ++ rewrite Hbits in Hj. apply andb_true_iff in Hj.
              destruct Hj as [Hj _]. subst st1. simpl in Hj.
              rewrite andnot_bit in Hj by lia.
              apply andb_true_iff in Hj. destruct Hj as [Hj Hne].
              destruct (Z.eqb_spec j num) as [->|Hne']; [discriminate|].
              destruct (Z_lt_ge_dec j 0) as [Hneg|Hpos].
              { rewrite Z.testbit_neg_r in Hj by lia. discriminate. }
              destruct (Z_lt_ge_dec j num) as [Hlt|Hge]; [|lia].
              fold r in Hj.
              rewrite (TrailingZeros32_below r j) in Hj by (fold num; lia).
              discriminate.
           ++ apply (Hlowest i j Hin Hj).
        -- exact Hstop.
        -- exact Hu.
        -- constructor; [exact Hnumk|].
           eapply Forall_impl; [|exact Hall]. simpl. intros a Ha. lia.
      * exists [], st. simpl. rewrite orb_false_r.
        split; [reflexivity|]. split; [|constructor].
        apply drain_rel_nil; [exact Hr|].
        intros _. eapply chan_send_nb_none. exact Hsend.
Qed.

End SignalFacts.

Section DrainFacts.
Import Int IntFacts.

Lemma checkSignals_spec st :
  is_uint32 (receivedSignals st) ->
  exists sent st',
    checkSignals st = Ok (negb (Nat.eqb (List.length sent) 0)) st'
    /\ drain_rel st st' sent.
Proof.
  intros Hr.
  destruct (checkSignals_loop_spec checkSignals_fuel false st 0 Hr)
    as (sent & st' & Hrun & Hrel & _).
  - lia.
  - intros i Hi. lia.
  - unfold checkSignals_fuel. simpl. lia.
  - exists sent, st'. split; [exact Hrun | exact Hrel].
Qed.

Lemma existsb_eqb_In i l :
  existsb (Z.eqb i) l = true <-> In i l.
Proof.
  rewrite existsb_exists. split.
  - intros (x & Hin & Heq). apply Z.eqb_eq in Heq. subst. exact Hin.
  - intros Hin. exists i. split; [exact Hin | apply Z.eqb_refl].
Qed.

Lemma drain_rel_no_loss st st' sent i :
  drain_rel st st' sent ->
  Z.testbit (receivedSignals st) i = true ->
  Z.testbit (receivedSignals st') i = true \/ In i sent.
Proof.
  intros Hrel Hi. rewrite (dr_bits _ _ _ Hrel), Hi.
  destruct (existsb (Z.eqb i) sent) eqn:E.
  - right. apply existsb_eqb_In. exact E.
  - left. reflexivity.
Qed.

(** The result of a drain is decided by its first iteration. *)
Lemma checkSignals_result st :
  is_uint32 (receivedSignals st) ->
  exists st',
    checkSignals st
    = Ok (negb (receivedSignals st =? 0)
          && (List.length (chan_buf (signalChan st))
              <? chan_cap (signalChan st))%nat) st'
    /\ is_uint32 (receivedSignals st').
Proof.
  intros Hr. unfold checkSignals, checkSignals_fuel.
  rewrite checkSignals_loop_step.
  destruct (Z.eqb_spec (receivedSignals st) 0) as [Hz|Hnz].
  - exists st. split; [reflexivity | exact Hr].
  - unfold chan_send_nb.
    destruct (List.length (chan_buf (signalChan st))
              <? chan_cap (signalChan st))%nat.
    + pose proof (TrailingZeros32_nonzero _ Hr Hnz) as H32.
      pose proof (TrailingZeros32_range (receivedSignals st)) as Hrange.
      match goal with
      | |- exists _, checkSignals_loop _ _ ?s = _ /\ _ =>
          destruct (checkSignals_loop_spec
                      32 true s (TrailingZeros32 (receivedSignals st) + 1))
            as (sent & st' & Hrun & Hrel & _)
      end.
      * simpl. apply andnot_is_uint32; [exact Hr|].
        apply shl32_is_uint32.
      * lia.
      * intros i Hi. simpl. rewrite shl32_one by lia.
        rewrite andnot_bit by lia.
        destruct (Z.eqb_spec i (TrailingZeros32 (receivedSignals st)))
          as [->|Hne].
        -- apply andb_false_r.
        -- rewrite TrailingZeros32_below by lia. reflexivity.
      * change (Z.of_nat 32) with 32. lia.
      * exists st'. split; [exact Hrun | exact (dr_uint32 _ _ _ Hrel)].
    + exists st. split; [reflexivity | exact Hr].
Qed.

End DrainFacts.

(** ** [checkSignals] interrupted by the handler *)

Section Interleaving.
Import Int IntFacts.

(** Without interruption the steps compute [checkSignals]. *)
Lemma checkSignals_loop_steps fuel :
  forall got st b st',
    checkSignals_loop fuel got st = Ok b st' ->
    cs_steps (PcLoad got, st) (PcDone b, st').
Proof.
  induction fuel as [|fuel IH]; intros got st b st' Hrun.
  - discriminate.
  - rewrite checkSignals_loop_step in Hrun.
    destruct (receivedSignals st =? 0) eqn:Ez.
    + inversion Hrun; subst.
      eapply cs_steps_main; [|apply cs_steps_refl].
      cbn [cs_step]. unfold bind, atomic_LoadUint32, gets.
      rewrite Ez. reflexivity.
    + eapply cs_steps_main.
      { cbn [cs_step]. unfold bind, atomic_LoadUint32, gets.
        rewrite Ez. reflexivity. }
      destruct (chan_send_nb (signalChan st)
                             (TrailingZeros32 (receivedSignals st)))
        as [c|] eqn:Es.
      * eapply cs_steps_main.
        { cbn [cs_step]. unfold bind, signalChan_send_nb.
          rewrite Es. reflexivity. }
        eapply cs_steps_main.
        { cbn [cs_step]. unfold bind.
          change (receivedSignals st)
            with (receivedSignals (set_signalChan c st)) at 1.
          rewrite cas_hit. reflexivity. }
        apply IH. exact Hrun.
      * inversion Hrun; subst.
        eapply cs_steps_main; [|apply cs_steps_refl].
        cbn [cs_step]. unfold bind, signalChan_send_nb.
        rewrite Es. reflexivity.
Qed.

(** Clearing [1 << n] takes away no bit but [n]. *)
Lemma andnot_shl32_keeps v n i :
  i <> n ->
  Z.testbit (andnot v (shl32 1 n)) i = Z.testbit v i.
Proof.
  intros Hne. unfold andnot, shl32, uint32.
  destruct (Z_lt_ge_dec i 0) as [Hneg|Hpos].
  { rewrite !Z.testbit_neg_r by lia. reflexivity. }
  rewrite Z.ldiff_spec.
  replace (Z.testbit (if n <? 32 then Z.shiftl 1 n mod 2 ^ 32 else 0) i)
    with false; [apply andb_true_r|].
  symmetry. destruct (n <? 32); [|apply Z.bits_0].
  destruct (Z_lt_ge_dec n 0) as [Hn|Hn].
  - rewrite Z.shiftl_1_l, Z.pow_neg_r by lia. apply Z.bits_0.
  - rewrite Z.shiftl_1_l.
    destruct (Z_lt_ge_dec i 32).
    + rewrite Z.mod_pow2_bits_low by lia. apply Z.pow2_bits_false. lia.
    + apply Z.mod_pow2_bits_high. lia.
Qed.

Lemma lor_keeps a b i :
  Z.testbit a i = true -> Z.testbit (Z.lor a b) i = true.
Proof.
  intros H. destruct (Z_lt_ge_dec i 0) as [Hneg|Hpos].
  - rewrite Z.testbit_neg_r in H by lia. discriminate.
  - rewrite Z.lor_spec, H. reflexivity.
Qed.

Variable st0 : state.

Lemma cs_inv_main pc st sent pc' st' :
  cs_inv st0 pc st sent ->
  cs_step pc st = Ok pc' st' ->
  exists extra,
    cs_inv st0 pc' st' (sent ++ extra)
    /\ forall i, Z.testbit (receivedSignals st) i = true ->
                 Z.testbit (receivedSignals st') i = true
                 \/ In i (sent ++ extra).
Proof.
  intros [Hbuf Hpc] Hstep. destruct pc as [got|got val|val num|num|res];
    cbn [cs_step] in Hstep.
  - unfold bind, atomic_LoadUint32, gets, ret in Hstep.
    exists []. rewrite app_nil_r.
    destruct (receivedSignals st =? 0); inversion Hstep; subst;
      (split; [split; assumption | auto]).
  - unfold bind, signalChan_send_nb, ret in Hstep.
    destruct (chan_send_nb (signalChan st) (TrailingZeros32 val))
      as [c|] eqn:Es; inversion Hstep; subst; clear Hstep.
    + apply chan_send_nb_some in Es. destruct Es as [-> _].
      exists [TrailingZeros32 val]. split; [split|].
      * cbn [signalChan set_signalChan chan_buf].
        rewrite Hbuf, app_assoc. reflexivity.
      * apply in_or_app. right. left. reflexivity.
      * intros i Hi. left. exact Hi.
    + exists []. rewrite app_nil_r. split; [split; assumption | auto].
  - unfold bind, atomic_CompareAndSwapUint32, ret in Hstep.
    exists []. rewrite app_nil_r.
    destruct (Z.eqb_spec (receivedSignals st) val) as [Heq|Hne];
      inversion Hstep; subst; clear Hstep.
    + split; [split|].
      * exact Hbuf.
      * split; [intros _ Hnil; rewrite Hnil in Hpc; destruct Hpc
               | reflexivity].
      * intros i Hi. cbn [receivedSignals set_receivedSignals].
        destruct (Z.eq_dec i num) as [->|Hne]; [right; exact Hpc|].
        left. rewrite andnot_shl32_keeps by exact Hne. exact Hi.
    + split; [split; assumption | auto].
  - unfold bind, atomic_LoadUint32, gets, ret in Hstep.
    inversion Hstep; subst. exists []. rewrite app_nil_r.
    split; [split; assumption | auto].
  - unfold ret in Hstep. inversion Hstep; subst.
    exists []. rewrite app_nil_r. split; [split; assumption | auto].
Qed.

Lemma cs_inv_irq pc st sent s st' :
  cs_inv st0 pc st sent ->
  tinygo_signal_handler s st = Ok tt st' ->
  cs_inv st0 pc st' sent
  /\ forall i, Z.testbit (receivedSignals st) i = true ->
               Z.testbit (receivedSignals st') i = true.
Proof.
  intros [Hbuf Hpc] Hirq. rewrite tinygo_signal_handler_eq in Hirq.
  inversion Hirq; subst; clear Hirq. split; [split; assumption|].
  intros i Hi. cbn [receivedSignals set_receivedSignals].
  apply lor_keeps. exact Hi.
Qed.

(** Between any two points of an interrupted drain, a pending bit is
    either still pending or its number went into the queue during the
    call. *)
Lemma cs_no_loss c1 c2 :
  cs_steps c1 c2 ->
  forall sent1,
    cs_inv st0 (fst c1) (snd c1) sent1 ->
    exists extra,
      cs_inv st0 (fst c2) (snd c2) (sent1 ++ extra)
      /\ forall i, Z.testbit (receivedSignals (snd c1)) i = true ->
                   Z.testbit (receivedSignals (snd c2)) i = true
                   \/ In i (sent1 ++ extra).
Proof.
  induction 1 as [c|pc st pc' st' c Hstep Hrest IH
                  |pc st s st' c Hirq Hrest IH]; intros sent1 Hinv.
  - exists []. rewrite app_nil_r. split; [exact Hinv | auto].
  - cbn [fst snd] in *.
    destruct (cs_inv_main pc st sent1 pc' st' Hinv Hstep)
      as (e1 & Hinv1 & Hkeep1).
    destruct (IH (sent1 ++ e1) Hinv1) as (e2 & Hinv2 & Hkeep2).
    exists (e1 ++ e2). rewrite app_assoc. split; [exact Hinv2|].
    intros i Hi. destruct (Hkeep1 i Hi) as [Hset|Hin].
    + apply Hkeep2. exact Hset.
    + right. apply in_or_app. left. exact Hin.
  - cbn [fst snd] in *.
    destruct (cs_inv_irq pc st sent1 s st' Hinv Hirq) as (Hinv1 & Hkeep1).
    destruct (IH sent1 Hinv1) as (e2 & Hinv2 & Hkeep2).
    exists e2. split; [exact Hinv2|].
    intros i Hi. apply Hkeep2, Hkeep1. exact Hi.
Qed.

Lemma cs_inv_init : cs_inv st0 (PcLoad false) st0 [].
Proof.
  split; [rewrite app_nil_r; reflexivity|].
  split; [discriminate | intros H; contradiction].
Qed.

End Interleaving.

(** A run in which signal 5 arrives between the send of 3 and the
    compare-and-swap: the swap fails, the mask is read again, and only
    bit 3 is cleared. *)
Lemma checkSignals_retry_example :
  cs_steps
    (PcLoad false,
     mkState 131072 1073741824 4096 135168 (mkChan [] 1) true 8 40 [])
    (PcDone true,
     mkState 131072 1073741824 4096 135168 (mkChan [3] 1) true 32 40 []).
Proof.
  eapply cs_steps_main; [vm_compute; reflexivity|].
  eapply cs_steps_main; [vm_compute; reflexivity|].
  eapply (cs_steps_irq _ _ 5); [vm_compute; reflexivity|].
  eapply cs_steps_main; [vm_compute; reflexivity|].
  eapply cs_steps_main; [vm_compute; reflexivity|].
  eapply cs_steps_main; [vm_compute; reflexivity|].
  eapply cs_steps_main; [vm_compute; reflexivity|].
  eapply cs_steps_main; [vm_compute; reflexivity|].
  apply cs_steps_refl.
Qed.

(** ** C1: draining never clears an undelivered signal *)

(** C1.  For every 32-bit value of the pending mask, an iteration of the
    loop of [checkSignals] reads the mask, stops with the current result
    when it is zero, and otherwise takes the lowest set bit [num] and
    tries a non-blocking send of [num]: when the send succeeds the
    iteration clears exactly bit [num] and loops with the result set to
    true, when it fails the call returns at once with the state (and so
    the bit) untouched.  A whole call returns true exactly when it put at
    least one number into the queue; the numbers it put there are, in
    ascending order, the lowest pending ones, the mask loses exactly
    their bits, and so every bit that was pending is still pending or
    was delivered.  The same holds when the handler interrupts the call
    at any point: between any two moments of the call, a bit that was
    pending is still pending or its number is among those the call has
    put into the queue, and the result is true exactly when it has put
    some number there. *)
Theorem checkSignals_delivers_before_clearing (st : state) :
  Int.is_uint32 (receivedSignals st) ->
  (forall fuel got,
      checkSignals_loop (S fuel) got st =
      if receivedSignals st =? 0 then Ok got st
      else
        match chan_send_nb (signalChan st)
                           (Int.TrailingZeros32 (receivedSignals st)) with
        | Some c =>
            checkSignals_loop fuel true
              (set_receivedSignals
                 (Int.andnot (receivedSignals st)
                             (2 ^ Int.TrailingZeros32 (receivedSignals st)))
                 (set_signalChan c st))
        | None => Ok got st
        end)
  /\ (receivedSignals st <> 0 ->
      0 <= Int.TrailingZeros32 (receivedSignals st) < 32
      /\ Z.testbit (receivedSignals st)
                   (Int.TrailingZeros32 (receivedSignals st)) = true
      /\ forall j, 0 <= j < Int.TrailingZeros32 (receivedSignals st) ->
                   Z.testbit (receivedSignals st) j = false)
  /\ (forall i,
         Z.testbit (Int.andnot (receivedSignals st)
                               (2 ^ Int.TrailingZeros32 (receivedSignals st))) i
         = Z.testbit (receivedSignals st) i
           && negb (i =? Int.TrailingZeros32 (receivedSignals st)))
  /\ (forall c,
         chan_send_nb (signalChan st)
                      (Int.TrailingZeros32 (receivedSignals st)) = Some c ->
         chan_buf c = chan_buf (signalChan st)
                      ++ [Int.TrailingZeros32 (receivedSignals st)])
  /\ (chan_send_nb (signalChan st)
                   (Int.TrailingZeros32 (receivedSignals st)) = None <->
      chan_full (signalChan st))
  /\ (exists sent st',
         checkSignals st = Ok (negb (Nat.eqb (List.length sent) 0)) st'
         /\ drain_rel st st' sent
         /\ (forall i, Z.testbit (receivedSignals st) i = true ->
                       Z.testbit (receivedSignals st') i = true \/ In i sent))
  /\ (forall b st',
         checkSignals st = Ok b st' ->
         cs_steps (PcLoad false, st) (PcDone b, st'))
  /\ (forall c1 c2,
         cs_steps (PcLoad false, st) c1 ->
         cs_steps c1 c2 ->
         exists sent,
           chan_buf (signalChan (snd c2)) = chan_buf (signalChan st) ++ sent
           /\ (forall i, Z.testbit (receivedSignals (snd c1)) i = true ->
                         Z.testbit (receivedSignals (snd c2)) i = true
                         \/ In i sent)
           /\ (forall b, fst c2 = PcDone b -> (b = true <-> sent <> []))).
Proof.
  intros Hr.
  pose proof (IntFacts.TrailingZeros32_range (receivedSignals st)) as Hrange.
  split; [|split; [|split; [|split; [|split; [|split; [|split]]]]]].
  - intros fuel got. rewrite checkSignals_loop_step.
    destruct (Z.eqb_spec (receivedSignals st) 0) as [Hz|Hnz]; [reflexivity|].
    rewrite IntFacts.shl32_one; [reflexivity|].
    pose proof (IntFacts.TrailingZeros32_nonzero _ Hr Hnz). lia.
  - intros Hnz. split; [|split].
    + pose proof (IntFacts.TrailingZeros32_nonzero _ Hr Hnz). lia.
    + apply IntFacts.TrailingZeros32_set; assumption.
    + intros j Hj. apply IntFacts.TrailingZeros32_below. exact Hj.
  - intros i. apply IntFacts.andnot_bit. lia.
  - intros c Hc. apply chan_send_nb_some in Hc. destruct Hc as [-> _].
    reflexivity.
  - split.
    + apply chan_send_nb_none.
    + unfold chan_full, chan_send_nb. intros Hfull.
      destruct (Nat.ltb_spec (List.length (chan_buf (signalChan st)))
                             (chan_cap (signalChan st))); [lia|reflexivity].
  - destruct (checkSignals_spec st Hr) as (sent & st' & Hrun & Hrel).
    exists sent, st'. split; [exact Hrun|]. split; [exact Hrel|].
    intros i Hi. eapply drain_rel_no_loss; eassumption.
  - intros b st' Hrun. eapply checkSignals_loop_steps. exact Hrun.
  - intros c1 c2 H01 H12.
    destruct (cs_no_loss st _ _ H01 [] (cs_inv_init st))
      as (sent1 & Hinv1 & _).
    destruct (cs_no_loss st _ _ H12 _ Hinv1) as (extra & [Hbuf Hpc] & Hkeep).
    exists (sent1 ++ extra). split; [exact Hbuf|]. split; [exact Hkeep|].
    intros b Hdone. rewrite Hdone in Hpc. exact Hpc.
Qed.

Lemma checkSignals_delivers_before_clearing_witness :
  Int.is_uint32 (receivedSignals drain_example)
  /\ exists sent st',
      checkSignals drain_example
      = Ok (negb (Nat.eqb (List.length sent) 0)) st'
      /\ drain_rel drain_example st' sent
      /\ (forall i, Z.testbit (receivedSignals drain_example) i = true ->
                    Z.testbit (receivedSignals st') i = true \/ In i sent).
Proof.
  assert (Hr : Int.is_uint32 (receivedSignals drain_example))
    by (unfold Int.is_uint32; simpl; lia).
  split; [exact Hr|].
  destruct (checkSignals_delivers_before_clearing drain_example Hr)
    as (_ & _ & _ & _ & _ & Hcall & _).
  exact Hcall.
Defined.

(** ** C4: occurrences of one signal are coalesced *)

Section CoalesceFacts.
Import Int IntFacts.

Lemma pow2_is_uint32 s : 0 <= s < 32 -> is_uint32 (2 ^ s).
Proof.
  intros Hs. unfold is_uint32. split.
  - apply Z.pow_nonneg. lia.
  - apply Z.pow_lt_mono_r; lia.
Qed.

Lemma TrailingZeros32_pow2 s :
  0 <= s < 32 -> TrailingZeros32 (2 ^ s) = s.
Proof.
  intros Hs.
  assert (Hnz : 2 ^ s <> 0) by (apply Z.pow_nonzero; lia).
  pose proof (TrailingZeros32_set (2 ^ s) (pow2_is_uint32 s Hs) Hnz) as Hb.
  pose proof (TrailingZeros32_range (2 ^ s)) as Hrange.
  rewrite testbit_pow2 in Hb by lia. apply Z.eqb_eq in Hb. exact Hb.
Qed.

Lemma uint32_small s : 0 <= s < 32 -> uint32 s = s.
Proof. intros Hs. unfold uint32. apply Z.mod_small. lia. Qed.

Lemma handler_twice s st :
  (tinygo_signal_handler s ;; tinygo_signal_handler s) st
  = tinygo_signal_handler s st.
Proof.
  unfold bind. rewrite !tinygo_signal_handler_eq.
  destruct st as [a b c d ch e r f g].
  unfold set_receivedSignals. simpl.
  rewrite <- Z.lor_assoc, Z.lor_diag. reflexivity.
Qed.

End CoalesceFacts.

(** C4.  In every state and for every signal number, running the
    handler twice leaves the same state, and so the same pending mask, as
    running it once.  When moreover nothing was pending and the queue
    (of capacity one) was empty, and [0 <= s < 32], the drain that
    follows returns true and leaves exactly the one entry [s] in the
    queue and nothing pending; [signal_recv] then yields [s], and a
    further drain returns false and changes nothing. *)
Theorem signal_handler_coalesces (s : Z) (st : state) :
  (tinygo_signal_handler s ;; tinygo_signal_handler s) st
  = tinygo_signal_handler s st
  /\ tinygo_signal_handler s st
     = Ok tt (set_receivedSignals
                (Z.lor (receivedSignals st) (Int.shl32 1 (Int.uint32 s))) st)
  /\ (0 <= s < 32 ->
      receivedSignals st = 0 ->
      signalChan st = make_chan 1 ->
      (tinygo_signal_handler s ;; tinygo_signal_handler s) st
      = Ok tt (set_receivedSignals (2 ^ s) st)
      /\ checkSignals (set_receivedSignals (2 ^ s) st)
         = Ok true (set_signalChan (mkChan [s] 1) st)
      /\ count_occ Z.eq_dec
                   (chan_buf (signalChan (set_signalChan (mkChan [s] 1) st))) s
         = 1%nat
      /\ signal_recv (set_signalChan (mkChan [s] 1) st) = Ok s st
      /\ checkSignals st = Ok false st).
Proof.
  split; [apply handler_twice|].
  split; [apply tinygo_signal_handler_eq|].
  intros Hs Hr Hc.
  assert (Hone : tinygo_signal_handler s st
                 = Ok tt (set_receivedSignals (2 ^ s) st)).
  { rewrite tinygo_signal_handler_eq, Hr, uint32_small, IntFacts.shl32_one
      by exact Hs.
    rewrite Z.lor_0_l. reflexivity. }
  assert (Hidle : checkSignals st = Ok false st).
  { unfold checkSignals, checkSignals_fuel. rewrite checkSignals_loop_step.
    rewrite Hr. reflexivity. }
  split; [rewrite handler_twice; exact Hone|].
  split; [|split; [|split]].
  - unfold checkSignals, checkSignals_fuel.
    rewrite checkSignals_loop_step.
    cbn [receivedSignals set_receivedSignals signalChan].
    assert (Hnz : 2 ^ s <> 0) by (apply Z.pow_nonzero; lia).
    destruct (Z.eqb_spec (2 ^ s) 0) as [|_]; [contradiction|].
    rewrite TrailingZeros32_pow2, IntFacts.shl32_one by exact Hs.
    rewrite Hc. cbn [chan_send_nb make_chan chan_buf chan_cap List.length
                     Nat.ltb Nat.leb app].
    rewrite checkSignals_loop_step.
    cbn [receivedSignals set_receivedSignals set_signalChan signalChan].
    unfold Int.andnot. rewrite Z.ldiff_diag. cbn [Z.eqb].
    destruct st as [a b c d ch e r f g]. simpl in *. subst. reflexivity.
  - cbn [signalChan set_signalChan chan_buf count_occ].
    destruct (Z.eq_dec s s); [reflexivity | contradiction].
  - unfold signal_recv. cbn [signalChan set_signalChan chan_recv chan_buf
                              chan_cap].
    unfold bind.
    assert (Hback : set_signalChan (mkChan [] 1)
                                   (set_signalChan (mkChan [s] 1) st) = st).
    { destruct st as [a b c d ch e r f g]. simpl in *. subst. reflexivity. }
    rewrite Hback, Hidle. reflexivity.
  - exact Hidle.
Qed.

Lemma signal_handler_coalesces_witness :
  checkSignals (set_receivedSignals (2 ^ 2) drain_idle)
  = Ok true (set_signalChan (mkChan [2] 1) drain_idle)
  /\ signal_recv (set_signalChan (mkChan [2] 1) drain_idle) = Ok 2 drain_idle
  /\ checkSignals drain_idle = Ok false drain_idle.
Proof.
  assert (Hs : 0 <= 2 < 32) by lia.
  assert (Hr : receivedSignals drain_idle = 0) by reflexivity.
  assert (Hc : signalChan drain_idle = make_chan 1) by reflexivity.
  destruct (signal_handler_coalesces 2 drain_idle) as (_ & _ & Hscenario).
  destruct (Hscenario Hs Hr Hc) as (_ & Hdrain & _ & Hrecv & Hidle).
  split; [exact Hdrain|]. split; [exact Hrecv | exact Hidle].
Defined.

(** ** C6: the signal-number limit *)

(** C6.  [signal_enable], [signal_ignore] and [signal_disable] halt
    fatally exactly when [s >= 32].  [signal_enable 31] returns normally,
    with bit 31 set in [activeSignals], [hasSignals] set, and one call of
    the kernel-side [tinygo_signal_enable 31] added to the trace. *)
Theorem signal_number_limit (s : Z) (st : state) :
  ((exists msg st', signal_enable s st = Fatal msg st') <-> 32 <= s)
  /\ ((exists msg st', signal_ignore s st = Fatal msg st') <-> 32 <= s)
  /\ ((exists msg st', signal_disable s st = Fatal msg st') <-> 32 <= s)
  /\ (32 <= s ->
      signal_enable s st = Fatal "unsupported signal number" st
      /\ signal_ignore s st = Fatal "unsupported signal number" st
      /\ signal_disable s st = Fatal "unsupported signal number" st)
  /\ exists st',
      signal_enable 31 st = Ok tt st'
      /\ Z.testbit (activeSignals st') 31 = true
      /\ activeSignals st' = Z.lor (activeSignals st) (2 ^ 31)
      /\ hasSignals st' = true
      /\ trace st' = trace st ++ [EvSignalEnable 31].
Proof.
  unfold signal_enable, signal_ignore, signal_disable, bind, runtimePanicAt,
    ret, modify, emit.
  split; [|split; [|split; [|split]]].
  - destruct (Z.geb_spec s 32) as [Hge|Hlt]; split.
    + intros _. lia.
    + intros _. eauto.
    + intros (msg & st' & H). discriminate.
    + intros H. lia.
  - destruct (Z.geb_spec s 32) as [Hge|Hlt]; split.
    + intros _. lia.
    + intros _. eauto.
    + intros (msg & st' & H). discriminate.
    + intros H. lia.
  - destruct (Z.geb_spec s 32) as [Hge|Hlt]; split.
    + intros _. lia.
    + intros _. eauto.
    + intros (msg & st' & H). discriminate.
    + intros H. lia.
  - intros Hs. destruct (Z.geb_spec s 32) as [Hge|Hlt]; [auto | lia].
  - eexists. split; [reflexivity|].
    cbn [activeSignals set_activeSignals set_hasSignals log hasSignals trace].
    rewrite IntFacts.shl32_one by lia.
    split; [|split; [|split]]; try reflexivity.
    rewrite Z.lor_spec, Z.pow2_bits_true by lia. apply orb_true_r.
Qed.

Lemma signal_number_limit_witness :
  signal_enable 32 boot_state = Fatal "unsupported signal number" boot_state
  /\ exists st',
      signal_enable 31 boot_state = Ok tt st'
      /\ Z.testbit (activeSignals st') 31 = true.
Proof.
  destruct (signal_number_limit 32 boot_state)
    as (_ & _ & _ & Hfatal & st' & Hok & Hbit & _).
  split.
  - destruct Hfatal as (He & _); [lia | exact He].
  - exists st'. split; [exact Hok | exact Hbit].
Defined.

(** ** Heap region *)

Section PreinitFacts.

Variable T : target.
Variable k : kernel.

Lemma candidate_half j :
  (j < 30)%nat -> candidate j / 2 = candidate (S j).
Proof.
  intros Hj. unfold candidate.
  replace (30 - Z.of_nat j) with (Z.succ (30 - Z.of_nat (S j))) by lia.
  rewrite Z.pow_succ_r by lia.
  rewrite Z.mul_comm, Z.div_mul by lia. reflexivity.
Qed.

Lemma candidate_floor j :
  (j <= 18)%nat -> 4096 <= candidate j.
Proof.
  intros Hj. unfold candidate. change 4096 with (2 ^ 12).
  apply Z.pow_le_mono_r; lia.
Qed.

Lemma preinit_iter_fail fuel st :
  k_mmap k (heapMaxSize st) = MAP_FAILED T ->
  preinit_loop (S fuel) T k st =
  if heapMaxSize st / 2 <? 4096
  then Fatal "cannot allocate heap memory"
             (set_heapMaxSize (heapMaxSize st / 2)
                              (log (EvMmap (heapMaxSize st)) st))
  else preinit_loop fuel T k
                    (set_heapMaxSize (heapMaxSize st / 2)
                                     (log (EvMmap (heapMaxSize st)) st)).
Proof.
  intros Hfail. cbn [preinit_loop].
  unfold mmap, emit, runtimePanic. unfold bind, gets, modify, ret.
  cbn [heapMaxSize log set_heapMaxSize].
  rewrite Hfail, Z.eqb_refl. cbn [heapMaxSize log set_heapMaxSize].
  destruct (heapMaxSize st / 2 <? 4096); reflexivity.
Qed.

Lemma preinit_iter_ok fuel st :
  k_mmap k (heapMaxSize st) <> MAP_FAILED T ->
  preinit_loop (S fuel) T k st =
  Ok tt (mkState (heapSize st) (heapMaxSize st) (k_mmap k (heapMaxSize st))
                 (Int.uintptr T (k_mmap k (heapMaxSize st) + heapSize st))
                 (signalChan st) (hasSignals st) (receivedSignals st)
                 (activeSignals st)
                 (trace st ++ [EvMmap (heapMaxSize st)])).
Proof.
  intros Hok. cbn [preinit_loop].
  unfold mmap, emit. unfold bind, gets, modify, ret.
  cbn [heapMaxSize log].
  destruct (Z.eqb_spec (k_mmap k (heapMaxSize st)) (MAP_FAILED T));
    [contradiction | reflexivity].
Qed.

Lemma preinit_loop_success n :
  forall m fuel st,
    heapMaxSize st = candidate m ->
    (m + n <= 18)%nat ->
    (n < fuel)%nat ->
    (forall j, (m <= j < m + n)%nat -> k_mmap k (candidate j) = MAP_FAILED T) ->
    k_mmap k (candidate (m + n)) <> MAP_FAILED T ->
    preinit_loop fuel T k st =
    Ok tt (mkState (heapSize st) (candidate (m + n))
                   (k_mmap k (candidate (m + n)))
                   (Int.uintptr T (k_mmap k (candidate (m + n)) + heapSize st))
                   (signalChan st) (hasSignals st) (receivedSignals st)
                   (activeSignals st)
                   (trace st ++ mmap_attempts m (S n))).
Proof.
  induction n as [|n IH]; intros m fuel st Hmax Hle Hfuel Hfail Hok;
    (destruct fuel as [|fuel]; [lia|]).
  - rewrite Nat.add_0_r in *. rewrite preinit_iter_ok by (rewrite Hmax; exact Hok).
    rewrite Hmax. reflexivity.
  - rewrite preinit_iter_fail by (rewrite Hmax; apply Hfail; lia).
    rewrite Hmax, candidate_half by lia.
    pose proof (candidate_floor (S m) ltac:(lia)) as Hfloor.
    destruct (Z.ltb_spec (candidate (S m)) 4096) as [Hlt|_]; [lia|].
    rewrite (IH (S m)).
    + cbn [heapSize set_heapMaxSize log signalChan hasSignals
                    receivedSignals activeSignals trace].
      replace (S m + n)%nat with (m + S n)%nat by lia.
      rewrite <- app_assoc. reflexivity.
    + reflexivity.
    + lia.
    + lia.
    + intros j Hj. apply Hfail. lia.
    + replace (S m + n)%nat with (m + S n)%nat by lia. exact Hok.
Qed.

Lemma preinit_loop_failure d :
  forall m fuel st,
    heapMaxSize st = candidate m ->
    (m + d = 18)%nat ->
    (d < fuel)%nat ->
    (forall j, (m <= j <= 18)%nat -> k_mmap k (candidate j) = MAP_FAILED T) ->
    preinit_loop fuel T k st =
    Fatal "cannot allocate heap memory"
          (mkState (heapSize st) 2048 (heapStart st) (heapEnd st)
                   (signalChan st) (hasSignals st) (receivedSignals st)
                   (activeSignals st)
                   (trace st ++ mmap_attempts m (S d))).
Proof.
  induction d as [|d IH]; intros m fuel st Hmax Hsum Hfuel Hfail;
    (destruct fuel as [|fuel]; [lia|]);
    rewrite preinit_iter_fail by (rewrite Hmax; apply Hfail; lia);
    rewrite Hmax, candidate_half by lia.
  - assert (m = 18%nat) by lia. subst m.
    change (candidate 19) with 2048. reflexivity.
  - pose proof (candidate_floor (S m) ltac:(lia)) as Hfloor.
    destruct (Z.ltb_spec (candidate (S m)) 4096) as [Hlt|_]; [lia|].
    rewrite (IH (S m)).
    + cbn [heapSize heapStart heapEnd set_heapMaxSize log signalChan
                    hasSignals receivedSignals activeSignals trace].
      rewrite <- app_assoc. reflexivity.
    + reflexivity.
    + lia.
    + lia.
    + intros j Hj. apply Hfail. lia.
Qed.

End PreinitFacts.

Section GrowFacts.
Import Int.

Lemma andnot_page x :
  0 <= x -> andnot x 4095 = 4096 * (x / 4096).
Proof.
  intros Hx. unfold andnot. change 4095 with (Z.ones 12).
  rewrite Z.ldiff_ones_r by lia.
  rewrite Z.shiftl_mul_pow2, Z.shiftr_div_pow2 by lia.
  change (2 ^ 12) with 4096. lia.
Qed.

Lemma growHeap_eq T st :
  growHeap T st =
  if heapSize st =? heapMaxSize st then Ok false st
  else
    Ok true
       (grown T
              (if andnot (uintptr T (heapSize st * 4) / 3) 4095
                  >? heapMaxSize st
               then heapMaxSize st
               else andnot (uintptr T (heapSize st * 4) / 3) 4095)
              st).
Proof.
  unfold growHeap, setHeapEnd, emit. unfold bind, gets, modify, ret.
  destruct (heapSize st =? heapMaxSize st); [reflexivity|].
  cbn [heapSize set_heapSize heapMaxSize].
  destruct (andnot (uintptr T (heapSize st * 4) / 3) 4095 >? heapMaxSize st);
    reflexivity.
Qed.

End GrowFacts.

(** ** Frame properties

    [preserves R m] says that whatever way [m] ends, the state it ends in
    is [R]-related to the state it started from. *)

Section Frame.

Variable R : state -> state -> Prop.
Hypothesis R_refl : forall st, R st st.
Hypothesis R_trans : forall a b c, R a b -> R b c -> R a c.
Hypothesis R_signalChan :
  forall c st, chan_cap c = chan_cap (signalChan st) ->
               R st (set_signalChan c st).
Hypothesis R_receivedSignals : forall v st, R st (set_receivedSignals v st).
Hypothesis R_activeSignals : forall v st, R st (set_activeSignals v st).
Hypothesis R_hasSignals : forall st, R st (set_hasSignals true st).
Hypothesis R_log : forall e st, is_mmap e = false -> R st (log e st).

Lemma preserves_ret A (a : A) : preserves R (ret a).
Proof. intros st. apply R_refl. Qed.

Lemma preserves_gets A (f : state -> A) : preserves R (gets f).
Proof. intros st. apply R_refl. Qed.

Lemma preserves_panic A msg : preserves R (@runtimePanic A msg).
Proof. intros st. apply R_refl. Qed.

Lemma preserves_panic_at A msg : preserves R (@runtimePanicAt A msg).
Proof. intros st. apply R_refl. Qed.

Lemma preserves_out_of_fuel A : preserves R (@out_of_fuel A).
Proof. intros st. exact I. Qed.

Lemma preserves_modify f :
  (forall st, R st (f st)) -> preserves R (modify f).
Proof. intros Hf st. apply Hf. Qed.

Lemma preserves_emit e : is_mmap e = false -> preserves R (emit e).
Proof. intros He st. apply R_log. exact He. Qed.

Lemma preserves_bind A B (m : M A) (f : A -> M B) :
  preserves R m -> (forall a, preserves R (f a)) -> preserves R (bind m f).
Proof.
  intros Hm Hf st. unfold bind. specialize (Hm st).
  destruct (m st) as [a st'| | |]; simpl in *; try assumption.
  specialize (Hf a st').
  destruct (f a st'); simpl in *; try exact I; eapply R_trans; eassumption.
Qed.

Ltac frame_step :=
  lazymatch goal with
  | |- preserves _ (bind _ _) => apply preserves_bind; [|intros ?]
  | |- preserves _ (ret _) => apply preserves_ret
  | |- preserves _ (gets _) => apply preserves_gets
  | |- preserves _ (runtimePanic _) => apply preserves_panic
  | |- preserves _ (runtimePanicAt _) => apply preserves_panic_at
  | |- preserves _ out_of_fuel => apply preserves_out_of_fuel
  | |- preserves _ (emit _) => apply preserves_emit; reflexivity
  | |- preserves _ (modify _) => apply preserves_modify; intros ?
  | |- preserves _ (if ?b then _ else _) => destruct b
  | |- preserves _ (match ?x with _ => _ end) => destruct x
  end.

Lemma preserves_cas old new :
  preserves R (atomic_CompareAndSwapUint32 old new).
Proof.
  intros st. unfold atomic_CompareAndSwapUint32.
  destruct (receivedSignals st =? old); simpl; auto.
Qed.

Lemma preserves_signal_handler s : preserves R (tinygo_signal_handler s).
Proof.
  unfold tinygo_signal_handler.
  induction cas_fuel as [|fuel IH]; cbn [signal_handler_loop].
  - apply preserves_out_of_fuel.
  - unfold atomic_LoadUint32.
    repeat first [apply preserves_cas | exact IH | frame_step].
Qed.

Lemma preserves_clear_signal_loop fuel :
  forall val num, preserves R (clear_signal_loop fuel val num).
Proof.
  induction fuel as [|fuel IH]; intros val num; cbn [clear_signal_loop].
  - apply preserves_out_of_fuel.
  - unfold atomic_LoadUint32.
    repeat first [apply preserves_cas | apply IH | frame_step].
Qed.

Lemma preserves_send_nb num : preserves R (signalChan_send_nb num).
Proof.
  intros st. unfold signalChan_send_nb.
  destruct (chan_send_nb (signalChan st) num) as [c|] eqn:E; simpl; auto.
  apply R_signalChan. apply chan_send_nb_some in E.
  destruct E as [-> _]. reflexivity.
Qed.

Lemma preserves_checkSignals_loop fuel :
  forall got, preserves R (checkSignals_loop fuel got).
Proof.
  induction fuel as [|fuel IH]; intros got; cbn [checkSignals_loop].
  - apply preserves_out_of_fuel.
  - unfold atomic_LoadUint32.
    repeat first [apply preserves_send_nb
                 | apply preserves_clear_signal_loop
                 | apply IH
                 | frame_step].
Qed.

Lemma preserves_checkSignals : preserves R checkSignals.
Proof. apply preserves_checkSignals_loop. Qed.

Lemma preserves_signal_recv : preserves R signal_recv.
Proof.
  intros st. unfold signal_recv.
  destruct (chan_recv (signalChan st)) as [[val c]|] eqn:E.
  - assert (Hc : R st (set_signalChan c st)).
    { apply R_signalChan. unfold chan_recv in E.
      destruct (chan_buf (signalChan st)); inversion E. reflexivity. }
    assert (Hm : preserves R (checkSignals ;; ret val))
      by (repeat first [apply preserves_checkSignals | frame_step]).
    specialize (Hm (set_signalChan c st)).
    destruct ((checkSignals ;; ret val) (set_signalChan c st));
      simpl in *; try exact I; eapply R_trans; eassumption.
  - simpl. apply R_refl.
Qed.

Lemma preserves_signal_enable s : preserves R (signal_enable s).
Proof. unfold signal_enable. repeat frame_step; auto. Qed.

Lemma preserves_signal_ignore s : preserves R (signal_ignore s).
Proof. unfold signal_ignore. repeat frame_step; auto. Qed.

Lemma preserves_signal_disable s : preserves R (signal_disable s).
Proof. unfold signal_disable. repeat frame_step; auto. Qed.

Lemma preserves_run_handlers l : preserves R (run_handlers l).
Proof.
  induction l as [|s l IH]; cbn [run_handlers].
  - apply preserves_ret.
  - apply preserves_bind; [apply preserves_signal_handler | intros _; exact IH].
Qed.

Lemma preserves_usleep k usec : preserves R (usleep k usec).
Proof.
  unfold usleep. repeat first [apply preserves_run_handlers | frame_step].
Qed.

Lemma preserves_sleepTicks T k d : preserves R (sleepTicks T k d).
Proof.
  unfold sleepTicks, tinygo_wfi_mask, tinygo_wfi_unmask, tinygo_wfi_sleep.
  repeat first [apply preserves_usleep
               | apply preserves_checkSignals
               | apply preserves_signal_handler
               | frame_step].
Qed.

Lemma preserves_waitForEvents k : preserves R (waitForEvents k).
Proof.
  unfold waitForEvents, tinygo_wfi_mask, tinygo_wfi_unmask, tinygo_wfi_wait.
  repeat first [apply preserves_checkSignals
               | apply preserves_signal_handler
               | frame_step].
Qed.

Lemma preserves_getTime T k clock : preserves R (getTime T k clock).
Proof. unfold getTime, clock_gettime. repeat frame_step. Qed.

Section WithGrow.

Variable T : target.
Hypothesis R_growHeap : preserves R (growHeap T).

Lemma preserves_exec_op o : preserves R (exec_op T o).
Proof.
  destruct o; cbn [exec_op];
    repeat first [apply R_growHeap
                 | apply preserves_signal_enable
                 | apply preserves_signal_ignore
                 | apply preserves_signal_disable
                 | apply preserves_signal_handler
                 | apply preserves_checkSignals
                 | apply preserves_signal_recv
                 | apply preserves_sleepTicks
                 | apply preserves_waitForEvents
                 | apply preserves_getTime
                 | frame_step].
Qed.

Lemma preserves_run ops : preserves R (run T ops).
Proof.
  induction ops as [|o ops IH]; cbn [run].
  - apply preserves_ret.
  - apply preserves_bind; [apply preserves_exec_op | intros _; exact IH].
Qed.

End WithGrow.

End Frame.

(** ** What no operation after start-up changes *)

Section StableFacts.

Lemma stable_refl st : stable st st.
Proof.
  constructor; auto. exists []. rewrite app_nil_r. auto.
Qed.

Lemma stable_trans a b c : stable a b -> stable b c -> stable a c.
Proof.
  intros [H1 H2 (t1 & H3 & H3') H4 H5] [G1 G2 (t2 & G3 & G3') G4 G5].
  constructor; try congruence; auto.
  exists (t1 ++ t2). split.
  - rewrite G3, H3, app_assoc. reflexivity.
  - rewrite filter_app, H3', G3'. reflexivity.
Qed.

Lemma stable_field_update st st' :
  heapStart st' = heapStart st ->
  heapMaxSize st' = heapMaxSize st ->
  trace st' = trace st ->
  (hasSignals st = true -> hasSignals st' = true) ->
  chan_cap (signalChan st') = chan_cap (signalChan st) ->
  stable st st'.
Proof.
  intros H1 H2 H3 H4 H5. constructor; auto.
  exists []. rewrite app_nil_r. auto.
Qed.

Lemma stable_log e st : is_mmap e = false -> stable st (log e st).
Proof.
  intros He. constructor; auto.
  exists [e]. simpl. rewrite He. auto.
Qed.

Lemma stable_growHeap T : preserves stable (growHeap T).
Proof.
  intros st. rewrite growHeap_eq.
  destruct (heapSize st =? heapMaxSize st); simpl.
  - apply stable_refl.
  - constructor; simpl; auto.
    eexists. split; [reflexivity | reflexivity].
Qed.

Lemma stable_run T ops : preserves stable (run T ops).
Proof.
  apply preserves_run.
  - apply stable_refl.
  - apply stable_trans.
  - intros c st Hc. apply stable_field_update; auto.
  - intros v st. apply stable_field_update; auto.
  - intros v st. apply stable_field_update; auto.
  - intros st. apply stable_field_update; auto.
  - apply stable_log.
  - apply stable_growHeap.
Qed.

Lemma first_fit (P : nat -> bool) N :
  (exists n, (n < N)%nat /\ P n = true
             /\ forall j, (j < n)%nat -> P j = false)
  \/ (forall j, (j < N)%nat -> P j = false).
Proof.
  induction N as [|N [(n & Hn & Hp & Hbefore)|Hnone]].
  - right. intros j Hj. lia.
  - left. exists n. split; [lia|]. auto.
  - destruct (P N) eqn:E.
    + left. exists N. split; [lia|]. auto.
    + right. intros j Hj.
      destruct (Nat.eq_dec j N) as [->|Hne]; [exact E|].
      apply Hnone. lia.
Qed.

End StableFacts.

(** ** C8: reserving the heap region *)

(** C8.  [preinit] asks [mmap] for 1 GiB first and, each time the answer
    is the failure value, for half the previous size.  When the first
    [n] requests fail and request [n] (of size [2^(30-n)], at least
    4 KiB) succeeds, it returns with [heapMaxSize = 2^(30-n)],
    [heapStart] the address obtained and
    [heapEnd = heapStart + heapSize].  When all nineteen requests down to
    4 KiB fail, it halts fatally with [heapMaxSize] below 4 KiB.  One of
    the two always happens.  The sum for [heapEnd] is taken at pointer
    width, and is the plain sum whenever that is an address.  No
    operation of the runtime afterwards changes [heapStart] or
    [heapMaxSize] or calls [mmap] again. *)
Theorem preinit_reserves_by_halving (T : target) (k : kernel) (st : state) :
  candidate 0 = 1024 * 1024 * 1024
  /\ candidate 18 = 4096
  /\ (forall n,
         (n <= 18)%nat ->
         (forall j, (j < n)%nat -> k_mmap k (candidate j) = MAP_FAILED T) ->
         k_mmap k (candidate n) <> MAP_FAILED T ->
         candidate n = candidate 0 / 2 ^ Z.of_nat n
         /\ 4096 <= candidate n
         /\ preinit T k st =
            Ok tt (mkState (heapSize st) (candidate n)
                           (k_mmap k (candidate n))
                           (Int.uintptr T (k_mmap k (candidate n) + heapSize st))
                           (signalChan st) (hasSignals st)
                           (receivedSignals st) (activeSignals st)
                           (trace st ++ mmap_attempts 0 (S n))))
  /\ ((forall j, (j <= 18)%nat -> k_mmap k (candidate j) = MAP_FAILED T) ->
      preinit T k st =
      Fatal "cannot allocate heap memory"
            (mkState (heapSize st) 2048 (heapStart st) (heapEnd st)
                     (signalChan st) (hasSignals st)
                     (receivedSignals st) (activeSignals st)
                     (trace st ++ mmap_attempts 0 19)))
  /\ ((exists n, (n <= 18)%nat
                 /\ (forall j, (j < n)%nat ->
                               k_mmap k (candidate j) = MAP_FAILED T)
                 /\ k_mmap k (candidate n) <> MAP_FAILED T)
      \/ (forall j, (j <= 18)%nat -> k_mmap k (candidate j) = MAP_FAILED T))
  /\ (forall addr sz,
         0 <= addr + sz < 2 ^ TargetBits T ->
         Int.uintptr T (addr + sz) = addr + sz)
  /\ (forall ops st1, outcome_rel stable st1 (run T ops st1)).
Proof.
  split; [reflexivity|]. split; [reflexivity|].
  split; [|split; [|split; [|split]]].
  - intros n Hn Hfail Hok. split; [|split].
    + unfold candidate. change (30 - Z.of_nat 0) with 30.
      replace 30 with ((30 - Z.of_nat n) + Z.of_nat n) at 2 by lia.
      rewrite Z.pow_add_r by lia. rewrite Z.div_mul; [reflexivity|].
      apply Z.pow_nonzero; lia.
    + apply candidate_floor. exact Hn.
    + unfold preinit, bind, modify.
      rewrite (preinit_loop_success T k n 0); try reflexivity.
      * lia.
      * unfold preinit_fuel. lia.
      * intros j Hj. apply Hfail. lia.
      * exact Hok.
  - intros Hfail. unfold preinit, bind, modify.
    rewrite (preinit_loop_failure T k 18 0); try reflexivity.
    + unfold preinit_fuel. lia.
    + intros j Hj. apply Hfail. lia.
  - destruct (first_fit (fun j => negb (k_mmap k (candidate j) =? MAP_FAILED T))
                        19) as [(n & Hn & Hp & Hbefore)|Hnone].
    + left. exists n. split; [lia|]. split.
      * intros j Hj. specialize (Hbefore j Hj).
        apply negb_false_iff, Z.eqb_eq in Hbefore. exact Hbefore.
      * apply negb_true_iff, Z.eqb_neq in Hp. exact Hp.
    + right. intros j Hj. specialize (Hnone j ltac:(lia)).
      apply negb_false_iff, Z.eqb_eq in Hnone. exact Hnone.
  - intros addr sz Hrange. unfold Int.uintptr. apply Z.mod_small.
    exact Hrange.
  - intros ops st1. apply stable_run.
Qed.

Lemma preinit_reserves_by_halving_witness :
  preinit linux64 (kernel_granting linux64 65536 40960) boot_state
  = Ok tt (mkState 131072 65536 40960 172032 (mkChan [] 0) false 0 0
                   (mmap_attempts 0 15)).
Proof.
  destruct (preinit_reserves_by_halving
              linux64 (kernel_granting linux64 65536 40960) boot_state)
    as (_ & _ & Hok & _).
  destruct (Hok 14%nat) as (_ & _ & Hrun).
  - lia.
  - intros j Hj.
    do 14 (destruct j as [|j]; [reflexivity|]). lia.
  - discriminate.
  - exact Hrun.
Defined.

(** ** Reachable states and the heap invariant *)

Section HeapInvariant.
Import Int.

Variable T : target.
Hypothesis T_wide : 32 <= TargetBits T.

Lemma candidate_bounds j :
  (j <= 18)%nat -> 4096 <= candidate j <= 2 ^ 30.
Proof.
  intros Hj. split; [apply candidate_floor; exact Hj|].
  unfold candidate. apply Z.pow_le_mono_r; lia.
Qed.

Lemma candidate_page j :
  (j <= 18)%nat -> candidate j mod page_size = 0.
Proof.
  intros Hj. unfold candidate, page_size.
  replace (30 - Z.of_nat j) with ((18 - Z.of_nat j) + 12) by lia.
  rewrite Z.pow_add_r by lia. change (2 ^ 12) with 4096.
  apply Z.mod_mul. lia.
Qed.

Lemma uintptr_small x :
  0 <= x < 2 ^ 32 -> uintptr T x = x.
Proof.
  intros Hx. unfold uintptr. apply Z.mod_small.
  split; [lia|]. apply Z.lt_le_trans with (2 ^ 32); [lia|].
  apply Z.pow_le_mono_r; lia.
Qed.

Lemma grow_target_bounds sz :
  0 <= sz ->
  3 * grow_target sz <= 4 * sz < 3 * grow_target sz + 3 * page_size + 3.
Proof.
  intros Hsz. unfold grow_target, page_size.
  pose proof (Z.div_mod (sz * 4) 3 ltac:(lia)) as H1.
  pose proof (Z.mod_pos_bound (sz * 4) 3 ltac:(lia)) as H2.
  pose proof (Z.div_mod (sz * 4 / 3) 4096 ltac:(lia)) as H3.
  pose proof (Z.mod_pos_bound (sz * 4 / 3) 4096 ltac:(lia)) as H4.
  lia.
Qed.

Lemma grow_target_increases sz :
  sz mod page_size = 0 -> 3 * page_size <= sz -> sz < grow_target sz.
Proof.
  unfold grow_target, page_size. intros Hpage Hsz.
  pose proof (Z.div_mod sz 4096 ltac:(lia)) as H0.
  pose proof (Z.div_mod (sz * 4) 3 ltac:(lia)) as H1.
  pose proof (Z.mod_pos_bound (sz * 4) 3 ltac:(lia)) as H2.
  pose proof (Z.div_mod (sz * 4 / 3) 4096 ltac:(lia)) as H3.
  pose proof (Z.mod_pos_bound (sz * 4 / 3) 4096 ltac:(lia)) as H4.
  rewrite Hpage in H0.
  set (q := sz / 4096) in *. set (a := sz * 4 / 3) in *.
  set (b := a / 4096) in *.
  assert (q < b); [|lia].
  (* 4096 b > a - 4096 >= (4 sz - 2) / 3 - 4096 *)
  assert (3 * 4096 * b > 4 * 4096 * q - 3 - 3 * 4096) by lia.
  assert (3 <= q) by lia.
  destruct (Z_lt_ge_dec q b) as [|Hge]; [assumption|].
  exfalso.
  assert (3 * 4096 * b <= 3 * 4096 * q) by lia.
  assert (4096 * q < 3 + 3 * 4096) by lia.
  assert (q <= 3) by lia.
  assert (q = 3) by lia.
  assert (Hsz12 : sz = 12288) by lia.
  subst a b. rewrite Hsz12 in Hge. vm_compute in Hge. lia.
Qed.

Lemma growHeap_reachable_eq st :
  heap_ok st ->
  growHeap T st =
  if heapSize st =? heapMaxSize st then Ok false st
  else Ok true (grown T (Z.min (grow_target (heapSize st)) (heapMaxSize st))
                      st).
Proof.
  intros [(j & Hj & Hmax) Hpage Hsize]. rewrite growHeap_eq.
  destruct (Z.eqb_spec (heapSize st) (heapMaxSize st)) as [|Hne];
    [reflexivity|].
  pose proof (candidate_bounds j Hj) as Hb. rewrite <- Hmax in Hb.
  change (2 ^ 30) with 1073741824 in Hb.
  unfold initial_heapSize in Hsize.
  assert (Hsz : 0 <= heapSize st * 4 < 2 ^ 32).
  { change (2 ^ 32) with 4294967296. lia. }
  rewrite uintptr_small by exact Hsz.
  rewrite andnot_page by (apply Z.div_pos; lia).
  fold page_size. fold (grow_target (heapSize st)).
  f_equal. f_equal.
  destruct (Z.gtb_spec (grow_target (heapSize st)) (heapMaxSize st)); lia.
Qed.

Lemma heap_ok_growHeap : preserves (fun st st' => heap_ok st -> heap_ok st')
                                   (growHeap T).
Proof.
  intros st. destruct (growHeap T st) as [b st'| | |] eqn:E; simpl; auto.
  - intros Hok. rewrite (growHeap_reachable_eq st Hok) in E.
    destruct (Z.eqb_spec (heapSize st) (heapMaxSize st)) as [Heq|Hne];
      inversion E; subst; clear E; [exact Hok|].
    destruct Hok as [(j & Hj & Hmax) Hpage Hsize].
    pose proof (candidate_page j Hj) as Hmaxpage. rewrite <- Hmax in Hmaxpage.
    pose proof (candidate_bounds j Hj) as Hb. rewrite <- Hmax in Hb.
    unfold initial_heapSize in *.
    constructor; cbn [grown heapSize heapMaxSize];
      unfold initial_heapSize.
    + exists j. auto.
    + destruct (Z.min_spec (grow_target (heapSize st)) (heapMaxSize st))
        as [[_ ->]|[_ ->]]; [|exact Hmaxpage].
      unfold grow_target. rewrite Z.mul_comm. apply Z.mod_mul.
      unfold page_size. lia.
    + destruct Hsize as [Hin|[[Hinit Hsmall]|Heq]]; [| |contradiction].
      * left.
        pose proof (grow_target_increases (heapSize st) Hpage
                      ltac:(unfold page_size; lia)).
        lia.
      * right. right.
        rewrite Hinit. change (grow_target (128 * 1024)) with 172032. lia.
  - unfold growHeap, setHeapEnd, emit in E.
    unfold bind, gets, modify, ret in E.
    destruct (heapSize st =? heapMaxSize st); [discriminate|].
    cbn in E.
    destruct (_ >? _) in E; discriminate.
  - unfold growHeap, setHeapEnd, emit in E.
    unfold bind, gets, modify, ret in E.
    destruct (heapSize st =? heapMaxSize st); [discriminate|].
    cbn in E.
    destruct (_ >? _) in E; discriminate.
Qed.

End HeapInvariant.

Section HeapRuns.

Variable T : target.
Hypothesis T_wide : 32 <= TargetBits T.

Lemma heap_step_refl st : heap_step st st.
Proof. intros Hok. split; [exact Hok|]. split; [reflexivity|]. lia. Qed.

Lemma heap_step_trans a b c : heap_step a b -> heap_step b c -> heap_step a c.
Proof.
  intros Hab Hbc Hok. destruct (Hab Hok) as (Hb & Hmax & Hmono).
  destruct (Hbc Hb) as (Hc & Hmax' & Hmono').
  split; [exact Hc|]. split; [congruence|].
  intros Hinit. specialize (Hmono Hinit).
  rewrite <- Hmax in Hinit. specialize (Hmono' Hinit). lia.
Qed.

Lemma heap_step_same st st' :
  heapSize st' = heapSize st -> heapMaxSize st' = heapMaxSize st ->
  heap_step st st'.
Proof.
  intros Hsz Hmax [H1 H2 H3].
  split; [|split; [exact Hmax | lia]].
  constructor; rewrite ?Hsz, ?Hmax; assumption.
Qed.

Lemma heap_step_growHeap : preserves heap_step (growHeap T).
Proof.
  intros st. pose proof (heap_ok_growHeap T T_wide st) as Hpres.
  destruct (growHeap T st) as [b st'| | |] eqn:E; simpl in *; auto.
  - intros Hok. split; [apply Hpres; exact Hok|].
    rewrite (growHeap_reachable_eq T T_wide st Hok) in E.
    destruct (Z.eqb_spec (heapSize st) (heapMaxSize st)) as [Heq|Hne];
      inversion E; subst; clear E.
    + split; [reflexivity | lia].
    + cbn [grown heapSize heapMaxSize]. split; [reflexivity|].
      intros Hinit. destruct Hok as [_ Hpage Hsize].
      unfold initial_heapSize in *.
      destruct Hsize as [Hin|[[_ Hsmall]|Heq]]; [|lia|contradiction].
      pose proof (grow_target_increases (heapSize st) Hpage
                    ltac:(unfold page_size; lia)).
      lia.
  - rewrite growHeap_eq in E.
    destruct (heapSize st =? heapMaxSize st); discriminate.
  - rewrite growHeap_eq in E.
    destruct (heapSize st =? heapMaxSize st); discriminate.
Qed.

Lemma heap_step_exec_op o : preserves heap_step (exec_op T o).
Proof.
  apply preserves_exec_op.
  - apply heap_step_refl.
  - apply heap_step_trans.
  - intros c st _. apply heap_step_same; reflexivity.
  - intros v st. apply heap_step_same; reflexivity.
  - intros v st. apply heap_step_same; reflexivity.
  - intros st. apply heap_step_same; reflexivity.
  - intros e st _. apply heap_step_same; reflexivity.
  - apply heap_step_growHeap.
Qed.

Lemma heap_step_run ops : preserves heap_step (run T ops).
Proof.
  induction ops as [|o ops IH]; cbn [run].
  - apply preserves_ret. apply heap_step_refl.
  - apply preserves_bind.
    + apply heap_step_trans.
    + apply heap_step_exec_op.
    + intros _. exact IH.
Qed.

End HeapRuns.

Section Reachability.

Variable T : target.
Hypothesis T_wide : 32 <= TargetBits T.

Lemma preinit_outcome k st :
  (exists n, (n <= 18)%nat
             /\ preinit T k st =
                Ok tt (mkState (heapSize st) (candidate n)
                               (k_mmap k (candidate n))
                               (Int.uintptr T (k_mmap k (candidate n)
                                               + heapSize st))
                               (signalChan st) (hasSignals st)
                               (receivedSignals st) (activeSignals st)
                               (trace st ++ mmap_attempts 0 (S n))))
  \/ preinit T k st =
     Fatal "cannot allocate heap memory"
           (mkState (heapSize st) 2048 (heapStart st) (heapEnd st)
                    (signalChan st) (hasSignals st)
                    (receivedSignals st) (activeSignals st)
                    (trace st ++ mmap_attempts 0 19)).
Proof.
  destruct (first_fit (fun j => negb (k_mmap k (candidate j) =? MAP_FAILED T))
                      19) as [(n & Hn & Hp & Hbefore)|Hnone].
  - left. exists n. split; [lia|].
    unfold preinit, bind, modify.
    rewrite (preinit_loop_success T k n 0); try reflexivity.
    + lia.
    + unfold preinit_fuel. lia.
    + intros j Hj. specialize (Hbefore j ltac:(lia)).
      apply negb_false_iff, Z.eqb_eq in Hbefore. exact Hbefore.
    + apply negb_true_iff, Z.eqb_neq in Hp. exact Hp.
  - right. unfold preinit, bind, modify.
    rewrite (preinit_loop_failure T k 18 0); try reflexivity.
    + unfold preinit_fuel. lia.
    + intros j Hj. specialize (Hnone j ltac:(lia)).
      apply negb_false_iff, Z.eqb_eq in Hnone. exact Hnone.
Qed.

Lemma startup_heap_ok k st :
  startup T k boot_state = Ok tt st -> heap_ok st.
Proof.
  unfold startup, bind, init, modify.
  destruct (preinit_outcome k boot_state) as [(n & Hn & ->)| ->];
    [|discriminate].
  intros H. inversion H; subst; clear H.
  constructor; cbn.
  - exists n. auto.
  - reflexivity.
  - pose proof (candidate_bounds n Hn).
    unfold initial_heapSize.
    destruct (Z_le_gt_dec (128 * 1024) (candidate n)); [left|right; left];
      lia.
Qed.

Lemma reachable_heap_ok st : reachable T st -> heap_ok st.
Proof.
  induction 1 as [k st Hstart|o st st' Hreach IH Hstep].
  - eapply startup_heap_ok. exact Hstart.
  - pose proof (heap_step_exec_op T T_wide o st) as Hpres.
    rewrite Hstep in Hpres. simpl in Hpres. apply Hpres. exact IH.
Qed.

(** While the reservation is at least as large as the initial heap,
    [heapSize] only grows, in whole pages, up to [heapMaxSize]. *)
Lemma heapSize_monotone st ops st' :
  reachable T st ->
  initial_heapSize <= heapMaxSize st ->
  run T ops st = Ok tt st' ->
  heapSize st <= heapSize st' <= heapMaxSize st'
  /\ heapSize st' mod page_size = 0
  /\ heapMaxSize st' = heapMaxSize st.
Proof.
  intros Hreach Hinit Hrun.
  pose proof (reachable_heap_ok st Hreach) as Hok.
  pose proof (heap_step_run T T_wide ops st) as Hpres.
  rewrite Hrun in Hpres. simpl in Hpres.
  destruct (Hpres Hok) as ([_ Hpage Hsize] & Hmax & Hmono).
  specialize (Hmono Hinit). rewrite Hmax in Hsize.
  split; [|split; assumption].
  rewrite Hmax. lia.
Qed.

End Reachability.

(** ** C2: a small reservation breaks the growth invariant *)

(** C2 (the code departs from it).  When [mmap] refuses every size above
    64 KiB, start-up leaves [heapSize] (128 KiB) above [heapMaxSize]
    (64 KiB) and [heapEnd] beyond the reserved range, and the first
    [growHeap] reports success while lowering [heapSize] to 64 KiB. *)
Theorem growHeap_shrinks_after_small_reservation :
  exists st0 st1,
    startup linux64 (kernel_granting linux64 65536 40960) boot_state
    = Ok tt st0
    /\ heapMaxSize st0 = 65536
    /\ heapSize st0 = 131072
    /\ heapMaxSize st0 < heapSize st0
    /\ heapStart st0 + heapMaxSize st0 < heapEnd st0
    /\ run linux64 [OpGrowHeap] st0 = Ok tt st1
    /\ growHeap linux64 st0 = Ok true st1
    /\ heapSize st1 = 65536
    /\ heapSize st1 < heapSize st0.
Proof.
  eexists. eexists.
  split; [vm_compute; reflexivity|].
  split; [reflexivity|]. split; [reflexivity|]. split; [reflexivity|].
  split; [reflexivity|].
  split; [vm_compute; reflexivity|].
  split; [vm_compute; reflexivity|].
  split; reflexivity.
Qed.

(** ** [growHeap] is all or nothing *)

(** X15.  In every state the runtime can reach (on a target of at least
    32 bits): when [heapSize = heapMaxSize], [growHeap] returns false and
    the state is unchanged; otherwise it returns true, [heapSize]
    becomes the smaller of [heapMaxSize] and 4/3 of its value rounded
    down to a multiple of 4096, [heapEnd] becomes [heapStart] plus the
    new [heapSize] and is passed to [setHeapEnd], and nothing else
    changes.  The uncapped size is within one page (and a rounding unit)
    below 4/3 of the old size.  The new size is strictly larger than the
    old one when the old one is below [heapMaxSize]; nothing of the kind
    is said of a [heapSize] above [heapMaxSize], where the result is
    [heapMaxSize] itself. *)
Theorem growHeap_all_or_nothing (T : target) (st : state) :
  32 <= TargetBits T ->
  reachable T st ->
  (heapSize st = heapMaxSize st -> growHeap T st = Ok false st)
  /\ (heapSize st <> heapMaxSize st ->
      growHeap T st =
      Ok true
         (mkState (Z.min (grow_target (heapSize st)) (heapMaxSize st))
                  (heapMaxSize st) (heapStart st)
                  (Int.uintptr T
                     (heapStart st
                      + Z.min (grow_target (heapSize st)) (heapMaxSize st)))
                  (signalChan st) (hasSignals st) (receivedSignals st)
                  (activeSignals st)
                  (trace st ++
                     [EvSetHeapEnd
                        (Int.uintptr T
                           (heapStart st
                            + Z.min (grow_target (heapSize st))
                                    (heapMaxSize st)))])))
  /\ grow_target (heapSize st) = 4096 * (heapSize st * 4 / 3 / 4096)
  /\ 3 * grow_target (heapSize st) <= 4 * heapSize st
     < 3 * grow_target (heapSize st) + 3 * 4096 + 3
  /\ (heapSize st < heapMaxSize st ->
      heapSize st < Z.min (grow_target (heapSize st)) (heapMaxSize st)).
Proof.
  intros Hwide Hreach.
  pose proof (reachable_heap_ok T Hwide st Hreach) as Hok.
  pose proof (growHeap_reachable_eq T Hwide st Hok) as Heq.
  split; [|split; [|split; [|split]]].
  - intros Hmax. rewrite Heq. rewrite (proj2 (Z.eqb_eq _ _) Hmax). reflexivity.
  - intros Hne. rewrite Heq.
    destruct (Z.eqb_spec (heapSize st) (heapMaxSize st)); [contradiction|].
    reflexivity.
  - reflexivity.
  - destruct Hok as [(j & Hj & Hmax) Hpage Hsize].
    pose proof (candidate_bounds j Hj) as Hb. rewrite <- Hmax in Hb.
    unfold initial_heapSize in Hsize.
    apply (grow_target_bounds (heapSize st)). lia.
  - intros Hlt. destruct Hok as [_ Hpage Hsize].
    unfold initial_heapSize in Hsize.
    pose proof (grow_target_increases (heapSize st) Hpage) as Hinc.
    unfold page_size in Hinc. lia.
Qed.

Lemma growHeap_all_or_nothing_witness :
  growHeap linux64
           (mkState 131072 1073741824 4096 135168 (make_chan 1) false 0 0
                    (mmap_attempts 0 1))
  = Ok true
       (mkState 172032 1073741824 4096 176128 (make_chan 1) false 0 0
                (mmap_attempts 0 1 ++ [EvSetHeapEnd 176128])).
Proof.
  assert (Hwide : 32 <= TargetBits linux64) by (simpl; lia).
  assert (Hreach : reachable linux64
                     (mkState 131072 1073741824 4096 135168 (make_chan 1)
                              false 0 0 (mmap_attempts 0 1))).
  { apply (reach_startup linux64 (kernel_granting linux64 1073741824 4096)).
    vm_compute. reflexivity. }
  destruct (growHeap_all_or_nothing linux64 _ Hwide Hreach)
    as (_ & Hgrow & _).
  rewrite Hgrow by (simpl; lia). vm_compute. reflexivity.
Defined.

(** ** C3: success reported without growth *)

(** C3 (the code departs from it).  In a reachable state whose
    [heapSize] exceeds [heapMaxSize], [growHeap] does not take the
    failure path (the two differ) and returns true, but the size it
    stores is [heapMaxSize]: [heapSize] and [heapEnd] go down instead of
    up.  Such a state is reached when [mmap] grants no more than 4 KiB:
    start-up leaves [heapSize] at 128 KiB with [heapMaxSize] at 4 KiB,
    and [growHeap] reports success while lowering [heapSize] to 4 KiB. *)
Theorem growHeap_reports_success_while_shrinking :
  (forall T st,
      32 <= TargetBits T ->
      reachable T st ->
      heapMaxSize st < heapSize st ->
      heapSize st <> heapMaxSize st
      /\ growHeap T st = Ok true (grown T (heapMaxSize st) st)
      /\ heapSize (grown T (heapMaxSize st) st) < heapSize st)
  /\ exists st0 st1,
      startup linux64 (kernel_granting linux64 4096 40960) boot_state
      = Ok tt st0
      /\ reachable linux64 st0
      /\ heapSize st0 = 131072
      /\ heapMaxSize st0 = 4096
      /\ heapSize st0 <> heapMaxSize st0
      /\ growHeap linux64 st0 = Ok true st1
      /\ heapSize st1 = 4096
      /\ heapSize st1 < heapSize st0
      /\ heapEnd st1 < heapEnd st0.
Proof.
  split.
  - intros T st Hwide Hreach Hlt.
    pose proof (reachable_heap_ok T Hwide st Hreach) as Hok.
    split; [lia|]. split; [|cbn [grown heapSize]; exact Hlt].
    rewrite (growHeap_reachable_eq T Hwide st Hok).
    destruct (Z.eqb_spec (heapSize st) (heapMaxSize st)) as [Heq|_]; [lia|].
    destruct Hok as [_ _ Hsize]. unfold initial_heapSize in Hsize.
    destruct Hsize as [Hin|[[Hinit Hsmall]|Heq]]; [lia| |lia].
    rewrite Hinit. change (grow_target (128 * 1024)) with 172032.
    rewrite Z.min_r by lia. reflexivity.
  - set (st0 := mkState 131072 4096 40960 172032 (make_chan 1) false 0 0
                        (mmap_attempts 0 19)).
    assert (Hstart : startup linux64 (kernel_granting linux64 4096 40960)
                             boot_state = Ok tt st0)
      by (vm_compute; reflexivity).
    exists st0. eexists.
    split; [exact Hstart|].
    split; [eapply reach_startup; exact Hstart|].
    split; [reflexivity|]. split; [reflexivity|].
    split; [discriminate|].
    split; [vm_compute; reflexivity|].
    split; [reflexivity|]. split; reflexivity.
Qed.

(** ** Sequential behaviour of the sleep and wait primitives *)

Section SleepFacts.
Import Int IntFacts.

Lemma set_receivedSignals_same st :
  set_receivedSignals (receivedSignals st) st = st.
Proof. destruct st; reflexivity. Qed.

Lemma run_handlers_eq l :
  forall st,
    run_handlers l st
    = Ok tt (set_receivedSignals (arrive l (receivedSignals st)) st).
Proof.
  induction l as [|s l IH]; intros st; cbn [run_handlers arrive fold_left].
  - unfold ret. rewrite set_receivedSignals_same. reflexivity.
  - unfold bind. rewrite tinygo_signal_handler_eq, IH. reflexivity.
Qed.

Lemma arrive_is_uint32 l :
  forall r, is_uint32 r -> is_uint32 (arrive l r).
Proof.
  induction l as [|s l IH]; intros r Hr; cbn [arrive fold_left].
  - exact Hr.
  - apply IH. apply lor_is_uint32; [exact Hr | apply shl32_is_uint32].
Qed.

Lemma usleep_eq k usec st :
  usleep k usec st
  = Ok (snd (k_usleep k usec))
       (set_receivedSignals
          (arrive (fst (k_usleep k usec)) (receivedSignals st))
          (log (EvUsleep usec) st)).
Proof.
  unfold usleep, emit. unfold bind, modify, ret.
  rewrite run_handlers_eq. reflexivity.
Qed.

Lemma chan_room_full c : chan_room c = false <-> chan_full c.
Proof.
  unfold chan_room, chan_full.
  destruct (Nat.ltb_spec (List.length (chan_buf c)) (chan_cap c));
    split; intros; try discriminate; try reflexivity; lia.
Qed.

(** Nothing pending, or no room: the drain gives up at once. *)
Lemma checkSignals_idle st :
  receivedSignals st = 0 \/ chan_full (signalChan st) ->
  checkSignals st = Ok false st.
Proof.
  intros H. unfold checkSignals, checkSignals_fuel.
  rewrite checkSignals_loop_step.
  destruct (Z.eqb_spec (receivedSignals st) 0) as [|Hnz]; [reflexivity|].
  destruct H as [H|H]; [contradiction|].
  apply chan_room_full in H. unfold chan_room in H.
  unfold chan_send_nb. rewrite H. reflexivity.
Qed.

Lemma drain_rel_same_config st st' sent :
  drain_rel st st' sent -> same_config st st' /\ trace st' = trace st.
Proof.
  intros Hrel. rewrite (dr_state _ _ _ Hrel).
  split; [constructor|]; reflexivity.
Qed.

(** Something pending and room for it: the drain delivers. *)
Lemma checkSignals_busy st :
  is_uint32 (receivedSignals st) ->
  receivedSignals st <> 0 ->
  ~ chan_full (signalChan st) ->
  exists st',
    checkSignals st = Ok true st'
    /\ is_uint32 (receivedSignals st')
    /\ same_config st st'
    /\ trace st' = trace st.
Proof.
  intros Hr Hnz Hroom.
  destruct (checkSignals_result st Hr) as (st' & Hrun & Hu).
  destruct (checkSignals_spec st Hr) as (sent & st'' & Hrun' & Hrel).
  rewrite Hrun in Hrun'. inversion Hrun'; subst st''.
  exists st'. rewrite Hrun.
  destruct (Z.eqb_spec (receivedSignals st) 0) as [|_]; [contradiction|].
  destruct (Nat.ltb_spec (List.length (chan_buf (signalChan st)))
                         (chan_cap (signalChan st))) as [_|Hfull];
    [|exfalso; apply Hroom; exact Hfull].
  split; [reflexivity|]. split; [exact Hu|].
  eapply drain_rel_same_config. exact Hrel.
Qed.

(** Every drain of a well-formed state returns. *)
Lemma checkSignals_total st :
  is_uint32 (receivedSignals st) ->
  exists got st',
    checkSignals st = Ok got st'
    /\ (got = true <->
        receivedSignals st <> 0 /\ ~ chan_full (signalChan st))
    /\ (got = false -> st' = st)
    /\ is_uint32 (receivedSignals st')
    /\ same_config st st'
    /\ trace st' = trace st.
Proof.
  intros Hr.
  destruct (Z.eq_dec (receivedSignals st) 0) as [Hz|Hnz].
  - exists false, st. rewrite checkSignals_idle by (left; exact Hz).
    split; [reflexivity|]. split.
    + split; [discriminate | intros [H _]; contradiction].
    + split; [reflexivity|]. split; [exact Hr|].
      split; [constructor|]; reflexivity.
  - destruct (chan_room (signalChan st)) eqn:E.
    + assert (Hroom : ~ chan_full (signalChan st)).
      { intros Hfull. apply chan_room_full in Hfull. congruence. }
      destruct (checkSignals_busy st Hr Hnz Hroom)
        as (st' & Hrun & Hu & Hcfg & Htr).
      exists true, st'. split; [exact Hrun|]. split; [tauto|].
      split; [discriminate|]. auto.
    + apply chan_room_full in E.
      exists false, st. rewrite checkSignals_idle by (right; exact E).
      split; [reflexivity|]. split.
      * split; [discriminate | intros [_ H]; contradiction].
      * split; [reflexivity|]. split; [exact Hr|].
        split; [constructor|]; reflexivity.
Qed.

End SleepFacts.

(** ** The fuel always suffices *)

Section Totality.

Lemma total_ret A (a : A) : total_inv sig_ok (ret a).
Proof. intros st H. exact H. Qed.

Lemma total_gets A (f : state -> A) : total_inv sig_ok (gets f).
Proof. intros st H. exact H. Qed.

Lemma total_panic A msg : total_inv sig_ok (@runtimePanic A msg).
Proof. intros st H. exact I. Qed.

Lemma total_panic_at A msg : total_inv sig_ok (@runtimePanicAt A msg).
Proof. intros st H. exact I. Qed.

Lemma total_modify f :
  (forall st, receivedSignals (f st) = receivedSignals st) ->
  total_inv sig_ok (modify f).
Proof. intros Hf st H. unfold modify, sig_ok. simpl. rewrite Hf. exact H. Qed.

Lemma total_emit e : total_inv sig_ok (emit e).
Proof. apply total_modify. reflexivity. Qed.

Lemma total_bind A B (m : M A) (f : A -> M B) :
  total_inv sig_ok m -> (forall a, total_inv sig_ok (f a)) ->
  total_inv sig_ok (bind m f).
Proof.
  intros Hm Hf st H. unfold bind. specialize (Hm st H).
  destruct (m st) as [a st'| | |]; simpl in *; try assumption.
  apply Hf. exact Hm.
Qed.

Ltac total_step :=
  lazymatch goal with
  | |- total_inv _ (bind _ _) => apply total_bind; [|intros ?]
  | |- total_inv _ (ret _) => apply total_ret
  | |- total_inv _ (gets _) => apply total_gets
  | |- total_inv _ (runtimePanic _) => apply total_panic
  | |- total_inv _ (runtimePanicAt _) => apply total_panic_at
  | |- total_inv _ (emit _) => apply total_emit
  | |- total_inv _ (modify _) => apply total_modify; intros ?; reflexivity
  | |- total_inv _ (if ?b then _ else _) => destruct b
  | |- total_inv _ (match ?x with _ => _ end) => destruct x
  end.

Lemma total_signal_handler s : total_inv sig_ok (tinygo_signal_handler s).
Proof.
  intros st H. rewrite tinygo_signal_handler_eq. simpl. unfold sig_ok. simpl.
  apply IntFacts.lor_is_uint32; [exact H | apply IntFacts.shl32_is_uint32].
Qed.

Lemma total_checkSignals : total_inv sig_ok checkSignals.
Proof.
  intros st H.
  destruct (checkSignals_total st H) as (got & st' & -> & _ & _ & Hu & _).
  exact Hu.
Qed.

Lemma total_signal_recv : total_inv sig_ok signal_recv.
Proof.
  intros st H. unfold signal_recv.
  destruct (chan_recv (signalChan st)) as [[val c]|]; [|exact I].
  assert (Hm : total_inv sig_ok (checkSignals ;; ret val))
    by (repeat first [apply total_checkSignals | total_step]).
  apply Hm. exact H.
Qed.

Lemma total_run_handlers l : total_inv sig_ok (run_handlers l).
Proof.
  induction l as [|s l IH]; cbn [run_handlers].
  - apply total_ret.
  - apply total_bind; [apply total_signal_handler | intros _; exact IH].
Qed.

Lemma total_exec_op T o : total_inv sig_ok (exec_op T o).
Proof.
  destruct o; cbn [exec_op];
    unfold growHeap, setHeapEnd, signal_enable, signal_ignore, signal_disable,
      sleepTicks, waitForEvents, usleep, tinygo_wfi_mask, tinygo_wfi_unmask,
      tinygo_wfi_sleep, tinygo_wfi_wait, getTime, clock_gettime;
    repeat first [apply total_signal_handler
                 | apply total_checkSignals
                 | apply total_signal_recv
                 | apply total_run_handlers
                 | total_step].
Qed.

(** A run from a well-formed state never runs out of fuel: it returns,
    halts fatally, or parks the caller on the empty queue. *)
Lemma run_total T ops : total_inv sig_ok (run T ops).
Proof.
  induction ops as [|o ops IH]; cbn [run].
  - apply total_ret.
  - apply total_bind; [apply total_exec_op | intros _; exact IH].
Qed.

Lemma startup_sig_ok T k st :
  startup T k boot_state = Ok tt st -> sig_ok st.
Proof.
  unfold startup, bind, init, modify.
  destruct (preinit_outcome T k boot_state) as [(n & Hn & ->)| ->];
    [|discriminate].
  intros H. inversion H; subst. unfold sig_ok, Int.is_uint32. simpl. lia.
Qed.

Lemma reachable_sig_ok T st : reachable T st -> sig_ok st.
Proof.
  induction 1 as [k st Hstart|o st st' Hreach IH Hstep].
  - eapply startup_sig_ok. exact Hstart.
  - pose proof (total_exec_op T o st IH) as Hok.
    rewrite Hstep in Hok. exact Hok.
Qed.

End Totality.

(** ** The signal-interest flag *)

Section FlagFacts.

Ltac flag_side :=
  unfold flag_kept; intros; simpl; congruence.

Lemma flag_kept_growHeap T : preserves flag_kept (growHeap T).
Proof.
  intros st. rewrite growHeap_eq.
  destruct (heapSize st =? heapMaxSize st); reflexivity.
Qed.

Lemma flag_kept_exec_op T o :
  (forall s, o <> OpSignalEnable s) ->
  preserves flag_kept (exec_op T o).
Proof.
  intros Hne. destruct o; cbn [exec_op];
    try (exfalso; eapply Hne; reflexivity).
  - apply preserves_bind; [flag_side | apply flag_kept_growHeap|].
    intros b. apply preserves_ret. flag_side.
  - apply preserves_signal_ignore; flag_side.
  - apply preserves_signal_disable; flag_side.
  - apply preserves_signal_handler; flag_side.
  - apply preserves_bind; [flag_side | |].
    + apply preserves_checkSignals; flag_side.
    + intros b. apply preserves_ret. flag_side.
  - apply preserves_bind; [flag_side | |].
    + apply preserves_signal_recv; flag_side.
    + intros b. apply preserves_ret. flag_side.
  - apply preserves_sleepTicks; flag_side.
  - apply preserves_waitForEvents; flag_side.
  - apply preserves_bind; [flag_side | |].
    + apply preserves_getTime; flag_side.
    + intros b. apply preserves_ret. flag_side.
Qed.

Lemma sleepTicks_plain T k d st :
  hasSignals st = false ->
  sleepTicks T k d st
  = (usleep k (Int.uint T d / 1000) ;; ret tt) st.
Proof.
  intros Hhs. unfold sleepTicks. unfold bind at 1. unfold gets at 1.
  rewrite Hhs. reflexivity.
Qed.

Lemma sleepTicks_signal_aware T k d st :
  hasSignals st = true ->
  sleepTicks T k d st
  = match GOOS T with
    | darwin =>
        got <- checkSignals ;;
        if got then ret tt
        else
          result <- usleep k (Int.uint T d / 1000) ;;
          if negb (result =? 0)
          then checkSignals ;; ret tt
          else ret tt
    | linux =>
        act <- gets activeSignals ;;
        tinygo_wfi_mask act ;;
        got <- checkSignals ;;
        if got then tinygo_wfi_unmask
        else
          act' <- gets activeSignals ;;
          signal <- tinygo_wfi_sleep k act' (Int.uint64 d) ;;
          (if signal >=? 0
           then tinygo_signal_handler signal ;; checkSignals ;; ret tt
           else ret tt) ;;
          tinygo_wfi_unmask
    end st.
Proof.
  intros Hhs. unfold sleepTicks. unfold bind at 1. unfold gets at 1.
  rewrite Hhs. reflexivity.
Qed.

Lemma sleepTicks_linux_masks T k d st :
  GOOS T = linux ->
  hasSignals st = true ->
  Int.is_uint32 (receivedSignals st) ->
  exists st2 tr,
    sleepTicks T k d st = Ok tt st2
    /\ trace st2 = trace st ++ EvWfiMask (activeSignals st) :: tr
    /\ Forall (fun e => forall usec, e <> EvUsleep usec) tr.
Proof.
  intros Hos Hhs Hr. rewrite sleepTicks_signal_aware by exact Hhs.
  rewrite Hos.
  unfold tinygo_wfi_mask, tinygo_wfi_unmask, tinygo_wfi_sleep, emit.
  unfold bind at 1. unfold gets at 1.
  unfold bind at 1. unfold modify at 1.
  set (st_m := log (EvWfiMask (activeSignals st)) st).
  destruct (checkSignals_total st_m Hr)
    as (got & st1 & Hrun & _ & Hfalse & Hu & Hcfg & Htr).
  unfold bind at 1. rewrite Hrun. destruct got.
  - unfold modify. eexists. exists [EvWfiUnmask].
    split; [reflexivity|]. cbn [trace log]. rewrite Htr.
    subst st_m. cbn [trace log]. rewrite <- app_assoc.
    split; [reflexivity|]. repeat constructor. discriminate.
  - specialize (Hfalse eq_refl). subst st1.
    unfold bind at 1. unfold gets at 1.
    unfold bind at 1. unfold bind at 1. unfold modify at 1. unfold ret at 1.
    set (st_s := log (EvWfiSleep (activeSignals st_m) (Int.uint64 d)) st_m).
    unfold bind at 1.
    destruct (k_wfi_sleep k (activeSignals st_m) (Int.uint64 d) >=? 0).
    + unfold bind at 1. rewrite tinygo_signal_handler_eq.
      unfold bind at 1.
      match goal with
      | |- context [checkSignals ?s] =>
          destruct (checkSignals_total s)
            as (got2 & st3 & Hrun2 & _ & _ & _ & _ & Htr2)
      end.
      * cbn [receivedSignals set_receivedSignals].
        apply IntFacts.lor_is_uint32;
          [exact Hr | apply IntFacts.shl32_is_uint32].
      * rewrite Hrun2. unfold ret, modify.
        eexists. exists [EvWfiSleep (activeSignals st_m) (Int.uint64 d);
                         EvWfiUnmask].
        split; [reflexivity|]. cbn [trace log]. rewrite Htr2.
        subst st_s st_m. cbn [trace log set_receivedSignals].
        rewrite <- !app_assoc.
        split; [reflexivity|]. repeat constructor; discriminate.
    + unfold ret, modify.
      eexists. exists [EvWfiSleep (activeSignals st_m) (Int.uint64 d);
                       EvWfiUnmask].
      split; [reflexivity|].
      subst st_s st_m. cbn [trace log].
      rewrite <- !app_assoc.
      split; [reflexivity|]. repeat constructor; discriminate.
Qed.

Lemma waitForEvents_returns k st :
  hasSignals st = true ->
  Int.is_uint32 (receivedSignals st) ->
  exists st', waitForEvents k st = Ok tt st'.
Proof.
  intros Hhs Hr.
  unfold waitForEvents, tinygo_wfi_mask, tinygo_wfi_unmask,
    tinygo_wfi_wait, emit.
  unfold bind at 1. unfold gets at 1. rewrite Hhs.
  unfold bind at 1. unfold gets at 1.
  unfold bind at 1. unfold modify at 1.
  set (st_m := log (EvWfiMask (activeSignals st)) st).
  destruct (checkSignals_total st_m Hr)
    as (got & st1 & Hrun & _ & Hfalse & Hu & _).
  unfold bind at 1. rewrite Hrun. destruct got.
  - unfold modify. eexists. reflexivity.
  - unfold bind at 1. unfold gets at 1.
    unfold bind at 1. unfold bind at 1. unfold modify at 1. unfold ret at 1.
    unfold bind at 1. rewrite tinygo_signal_handler_eq.
    unfold bind at 1.
    match goal with
    | |- context [checkSignals ?s] =>
        destruct (checkSignals_total s) as (got2 & st3 & Hrun2 & _)
    end.
    + cbn [receivedSignals set_receivedSignals log].
      apply IntFacts.lor_is_uint32;
        [exact Hu | apply IntFacts.shl32_is_uint32].
    + rewrite Hrun2. unfold modify.
      eexists. reflexivity.
Qed.

End FlagFacts.

Lemma outcome_rel_impl A (R R' : state -> state -> Prop) st (o : outcome A) :
  (forall st', R st st' -> R' st st') ->
  outcome_rel R st o -> outcome_rel R' st o.
Proof. intros Himp. destruct o; simpl; auto. Qed.

Lemma enable_then_drop s o st :
  0 <= s < 32 ->
  o = OpSignalIgnore s \/ o = OpSignalDisable s ->
  activeSignals st = 0 ->
  forall T,
  exists tr,
    run T [OpSignalEnable s; o] st
    = Ok tt (mkState (heapSize st) (heapMaxSize st) (heapStart st)
                     (heapEnd st) (signalChan st) true (receivedSignals st)
                     0 (trace st ++ tr)).
Proof.
  intros Hs Ho Hact T.
  assert (Hlt : (s >=? 32) = false)
    by (destruct (Z.geb_spec s 32); [lia | reflexivity]).
  assert (Hclear : Int.andnot (Z.lor 0 (Int.shl32 1 s)) (Int.shl32 1 s) = 0).
  { unfold Int.andnot. rewrite Z.lor_0_l. apply Z.ldiff_diag. }
  destruct Ho as [-> | ->]; cbn [run exec_op];
    unfold signal_enable, signal_ignore, signal_disable, emit;
    unfold bind, modify, ret; rewrite Hlt;
    cbn [activeSignals set_activeSignals set_hasSignals log];
    rewrite Hact, Hclear; unfold log, set_activeSignals, set_hasSignals;
    cbn [heapSize heapMaxSize heapStart heapEnd signalChan hasSignals
                  receivedSignals activeSignals trace];
    rewrite <- app_assoc; eexists; reflexivity.
Qed.

Lemma run_app T ops1 ops2 st :
  run T (ops1 ++ ops2) st = (run T ops1 ;; run T ops2) st.
Proof.
  revert st. induction ops1 as [|o ops1 IH]; intros st.
  - reflexivity.
  - cbn [run app]. unfold bind in *.
    destruct (exec_op T o st) as [[] st1| | |]; try reflexivity.
    apply IH.
Qed.

Lemma run_with_enable T ops1 s ops2 st st' :
  run T (ops1 ++ OpSignalEnable s :: ops2) st = Ok tt st' ->
  hasSignals st' = true.
Proof.
  rewrite run_app. unfold bind. cbn [run exec_op].
  destruct (run T ops1 st) as [[] st1| | |]; try discriminate.
  unfold bind.
  destruct (signal_enable s st1) as [[] st2| | |] eqn:Hen; try discriminate.
  intros Hrest.
  assert (Hflag : hasSignals st2 = true).
  { unfold signal_enable, emit in Hen. unfold bind, modify, ret in Hen.
    destruct (s >=? 32); [discriminate|].
    inversion Hen; subst. reflexivity. }
  pose proof (stable_run T ops2 st2) as Hst. rewrite Hrest in Hst.
  apply (stable_hasSignals _ _ Hst). exact Hflag.
Qed.

Lemma flag_kept_run T ops :
  (forall s, ~ In (OpSignalEnable s) ops) ->
  preserves flag_kept (run T ops).
Proof.
  induction ops as [|o ops IH]; intros Hno; cbn [run].
  - apply preserves_ret. intros st. reflexivity.
  - apply preserves_bind.
    + unfold flag_kept. intros. congruence.
    + apply flag_kept_exec_op. intros s Heq. apply (Hno s). left. exact Heq.
    + intros _. apply IH. intros s Hin. apply (Hno s). right. exact Hin.
Qed.

(** Start-up leaves the flag at its zero value. *)
Lemma startup_flag T k st :
  startup T k boot_state = Ok tt st -> hasSignals st = false.
Proof.
  unfold startup, bind, init, modify.
  destruct (preinit_outcome T k boot_state) as [(n & Hn & ->)| ->];
    [|discriminate].
  intros H. inversion H; subst. reflexivity.
Qed.

(** ** C5: waiting without a deadline *)

(** C5 as the claim words it fails: with a signal pending but the queue
    full, [waitForEvents] does not return after unmasking; it goes on to
    block in [tinygo_wfi_wait]. *)
Lemma waitForEvents_blocks_despite_pending :
  (startup linux64 quiet_kernel ;; run linux64 backlog_ops) boot_state
  = Ok tt backlog_state
  /\ hasSignals backlog_state = true
  /\ receivedSignals backlog_state <> 0
  /\ ~ (exists st',
           waitForEvents quiet_kernel backlog_state = Ok tt st'
           /\ trace st' = trace backlog_state
                          ++ [EvWfiMask (activeSignals backlog_state);
                              EvWfiUnmask])
  /\ exists st',
      waitForEvents quiet_kernel backlog_state = Ok tt st'
      /\ trace st' = trace backlog_state
                     ++ [EvWfiMask 36; EvWfiWait 36; EvWfiUnmask].
Proof.
  split; [vm_compute; reflexivity|].
  split; [reflexivity|]. split; [discriminate|]. split.
  - intros (st' & Hrun & Htr). vm_compute in Hrun.
    inversion Hrun; subst st'. vm_compute in Htr. discriminate.
  - eexists. split; vm_compute; reflexivity.
Qed.

(** C5, amended.  Without signal interest ([hasSignals] false, as it is
    after start-up and any run in which [signal_enable] was never called)
    [waitForEvents] halts fatally at once, before any kernel call.  With
    signal interest it masks the active set and drains; when that drain
    delivers a signal (something pending and room in the queue) it
    unmasks and returns; otherwise (nothing pending, or the queue full)
    it blocks in [tinygo_wfi_wait], runs the handler on the signal
    number it gets, drains, unmasks and returns. *)
Theorem waitForEvents_masked_wait (k : kernel) (st : state) :
  Int.is_uint32 (receivedSignals st) ->
  (hasSignals st = false ->
   waitForEvents k st = Fatal "deadlocked: no event source" st)
  /\ (forall T k0 ops st',
         (forall s, ~ In (OpSignalEnable s) ops) ->
         (startup T k0 ;; run T ops) boot_state = Ok tt st' ->
         waitForEvents k st' = Fatal "deadlocked: no event source" st')
  /\ (hasSignals st = true ->
      exists got st1,
        checkSignals (log (EvWfiMask (activeSignals st)) st) = Ok got st1
        /\ (got = true <->
            receivedSignals st <> 0 /\ ~ chan_full (signalChan st))
        /\ (got = true ->
            waitForEvents k st = Ok tt (log EvWfiUnmask st1)
            /\ trace (log EvWfiUnmask st1)
               = trace st ++ [EvWfiMask (activeSignals st); EvWfiUnmask])
        /\ (got = false ->
            exists st2 got2 st3,
              tinygo_signal_handler
                (k_wfi_wait k (activeSignals st))
                (log (EvWfiWait (activeSignals st))
                     (log (EvWfiMask (activeSignals st)) st))
              = Ok tt st2
              /\ checkSignals st2 = Ok got2 st3
              /\ waitForEvents k st = Ok tt (log EvWfiUnmask st3)
              /\ trace (log EvWfiUnmask st3)
                 = trace st ++ [EvWfiMask (activeSignals st);
                                EvWfiWait (activeSignals st);
                                EvWfiUnmask])).
Proof.
  intros Hr.
  assert (Hdead : forall s0, hasSignals s0 = false ->
                             waitForEvents k s0
                             = Fatal "deadlocked: no event source" s0).
  { intros s0 Hhs. unfold waitForEvents, bind, gets. rewrite Hhs.
    reflexivity. }
  split; [apply Hdead|]. split.
  - intros T k0 ops st' Hno Hrun. apply Hdead.
    unfold bind in Hrun.
    destruct (startup T k0 boot_state) as [[] st1| | |] eqn:Hstart;
      try discriminate.
    pose proof (flag_kept_run T ops Hno st1) as Hkept.
    rewrite Hrun in Hkept. simpl in Hkept. unfold flag_kept in Hkept.
    rewrite Hkept. eapply startup_flag. exact Hstart.
  - intros Hhs.
    set (act := activeSignals st).
    set (st_m := log (EvWfiMask act) st).
    destruct (checkSignals_total st_m Hr)
      as (got & st1 & Hrun & Hiff & Hfalse & Hu & Hcfg & Htr).
    exists got, st1. split; [exact Hrun|]. split; [exact Hiff|].
    assert (Hwait : waitForEvents k st =
                    if got then Ok tt (log EvWfiUnmask st1)
                    else
                      match
                        (tinygo_signal_handler (k_wfi_wait k (activeSignals st1)) ;;
                         checkSignals ;; tinygo_wfi_unmask)
                          (log (EvWfiWait (activeSignals st1)) st1)
                      with
                      | Ok _ st' => Ok tt st'
                      | Fatal msg st' => Fatal msg st'
                      | Parked st' => Parked st'
                      | OutOfFuel => OutOfFuel
                      end).
    { unfold waitForEvents, tinygo_wfi_mask, tinygo_wfi_unmask,
        tinygo_wfi_wait, emit.
      unfold bind at 1. unfold gets at 1. rewrite Hhs.
      unfold bind at 1. unfold gets at 1.
      unfold bind at 1. unfold modify at 1. fold act. fold st_m.
      unfold bind at 1. rewrite Hrun.
      destruct got; [reflexivity|].
      unfold bind, gets, modify, ret.
      destruct (tinygo_signal_handler _ _) as [[] st2| | |]; try reflexivity.
      destruct (checkSignals st2) as [b st3| | |]; reflexivity. }
    split.
    + intros ->. split; [exact Hwait|].
      cbn [trace log]. rewrite Htr. subst st_m. cbn [trace log].
      rewrite <- app_assoc. reflexivity.
    + intros ->. specialize (Hfalse eq_refl). subst st1.
      rewrite tinygo_signal_handler_eq.
      match goal with
      | |- exists st2 _ _, Ok tt ?s = Ok tt st2 /\ _ => set (st_h := s)
      end.
      assert (Hrh : Int.is_uint32 (receivedSignals st_h)).
      { subst st_h. cbn [receivedSignals set_receivedSignals].
        apply IntFacts.lor_is_uint32; [exact Hr | apply IntFacts.shl32_is_uint32]. }
      destruct (checkSignals_total st_h Hrh)
        as (got2 & st3 & Hrun2 & _ & _ & _ & _ & Htr2).
      exists st_h, got2, st3.
      split; [reflexivity|]. split; [exact Hrun2|].
      split.
      * rewrite Hwait. unfold bind.
        rewrite tinygo_signal_handler_eq.
        match goal with
        | |- context [checkSignals ?s] => change s with st_h
        end.
        rewrite Hrun2. reflexivity.
      * cbn [trace log]. rewrite Htr2. subst st_h st_m.
        cbn [trace log set_receivedSignals].
        rewrite <- !app_assoc. reflexivity.
Qed.

Lemma waitForEvents_masked_wait_witness :
  Int.is_uint32 (receivedSignals backlog_state)
  /\ exists got st1,
      checkSignals (log (EvWfiMask (activeSignals backlog_state)) backlog_state)
      = Ok got st1
      /\ (got = true <->
          receivedSignals backlog_state <> 0
          /\ ~ chan_full (signalChan backlog_state)).
Proof.
  assert (Hr : Int.is_uint32 (receivedSignals backlog_state))
    by (unfold Int.is_uint32; simpl; lia).
  split; [exact Hr|].
  destruct (waitForEvents_masked_wait quiet_kernel backlog_state Hr)
    as (_ & _ & Hsig).
  destruct (Hsig eq_refl) as (got & st1 & Hrun & Hiff & _).
  exists got, st1. split; [exact Hrun | exact Hiff].
Defined.

(** ** C7: the timed sleep on darwin *)

(** C7 as the claim words it fails, twice over.  When [usleep] returns 0
    the darwin path does not look at the pending signals again: signal 3,
    handled after the first look and before [usleep] returned (the window
    the source warns about), is still pending and not in the queue when
    [sleepTicks] returns, although a drain there would deliver it.  And
    with a signal pending while the queue is full, the first look
    delivers nothing and [sleepTicks] goes to sleep all the same. *)
Lemma sleepTicks_darwin_skips_check_after_full_sleep :
  ((startup darwin64 racing_kernel ;; run darwin64 [OpSignalEnable 3])
     boot_state
   = Ok tt armed_state
   /\ hasSignals armed_state = true
   /\ checkSignals armed_state = Ok false armed_state
   /\ exists st2,
       usleep racing_kernel 50000 armed_state = Ok 0 st2
       /\ sleepTicks darwin64 racing_kernel 50000000 armed_state = Ok tt st2
       /\ receivedSignals st2 = 8
       /\ chan_buf (signalChan st2) = []
       /\ ~ (exists got2 st3,
                checkSignals st2 = Ok got2 st3
                /\ sleepTicks darwin64 racing_kernel 50000000 armed_state
                   = Ok tt st3))
  /\ ((startup darwin64 quiet_kernel ;; run darwin64 backlog_ops) boot_state
      = Ok tt backlog_state
      /\ hasSignals backlog_state = true
      /\ receivedSignals backlog_state <> 0
      /\ exists st',
          sleepTicks darwin64 quiet_kernel 50000000 backlog_state = Ok tt st'
          /\ trace st' = trace backlog_state ++ [EvUsleep 50000]).
Proof.
  split.
  - split; [vm_compute; reflexivity|].
    split; [reflexivity|]. split; [vm_compute; reflexivity|].
    eexists. split; [vm_compute; reflexivity|].
    split; [vm_compute; reflexivity|].
    split; [reflexivity|]. split; [reflexivity|].
    intros (got2 & st3 & Hcheck & Hsleep).
    vm_compute in Hcheck. vm_compute in Hsleep.
    inversion Hcheck; subst. discriminate.
  - split; [vm_compute; reflexivity|].
    split; [reflexivity|]. split; [discriminate|].
    eexists. split; vm_compute; reflexivity.
Qed.

(** C7, amended.  On darwin with signal interest, [sleepTicks] drains
    first and returns at once, without sleeping, when that drain
    delivered a signal.  Otherwise it calls [usleep]; when [usleep]
    returns a non-zero result it drains once more, and when [usleep]
    returns 0 it returns without a second look. *)
Theorem sleepTicks_darwin_checks (T : target) (k : kernel) (d : Z) (st : state) :
  GOOS T = darwin ->
  hasSignals st = true ->
  Int.is_uint32 (receivedSignals st) ->
  exists got st1,
    checkSignals st = Ok got st1
    /\ (got = true <-> receivedSignals st <> 0 /\ ~ chan_full (signalChan st))
    /\ (got = true ->
        sleepTicks T k d st = Ok tt st1 /\ trace st1 = trace st)
    /\ (got = false ->
        st1 = st
        /\ exists st2,
            usleep k (Int.uint T d / 1000) st
            = Ok (snd (k_usleep k (Int.uint T d / 1000))) st2
            /\ trace st2 = trace st ++ [EvUsleep (Int.uint T d / 1000)]
            /\ (snd (k_usleep k (Int.uint T d / 1000)) = 0 ->
                sleepTicks T k d st = Ok tt st2)
            /\ (snd (k_usleep k (Int.uint T d / 1000)) <> 0 ->
                exists got2 st3,
                  checkSignals st2 = Ok got2 st3
                  /\ sleepTicks T k d st = Ok tt st3)).
Proof.
  intros Hos Hhs Hr.
  destruct (checkSignals_total st Hr)
    as (got & st1 & Hrun & Hiff & Hfalse & Hu & Hcfg & Htr).
  exists got, st1. split; [exact Hrun|]. split; [exact Hiff|].
  assert (Hsleep : sleepTicks T k d st =
                   if got then Ok tt st1
                   else
                     match usleep k (Int.uint T d / 1000) st1 with
                     | Ok result st2 =>
                         if negb (result =? 0)
                         then (checkSignals ;; ret tt) st2
                         else Ok tt st2
                     | Fatal msg st' => Fatal msg st'
                     | Parked st' => Parked st'
                     | OutOfFuel => OutOfFuel
                     end).
  { unfold sleepTicks. unfold bind at 1. unfold gets at 1.
    rewrite Hhs, Hos. cbn [negb].
    unfold bind at 1. rewrite Hrun.
    destruct got; [reflexivity|].
    unfold bind at 1.
    destruct (usleep k (Int.uint T d / 1000) st1) as [result st2| | |];
      try reflexivity.
    destruct (negb (result =? 0)); reflexivity. }
  split.
  - intros ->. split; [exact Hsleep | exact Htr].
  - intros ->. specialize (Hfalse eq_refl). subst st1.
    split; [reflexivity|].
    rewrite usleep_eq in Hsleep. rewrite usleep_eq.
    eexists. split; [reflexivity|]. split; [reflexivity|]. split.
    + intros Hzero. rewrite Hsleep, Hzero. reflexivity.
    + intros Hnz. rewrite Hsleep.
      destruct (Z.eqb_spec (snd (k_usleep k (Int.uint T d / 1000))) 0)
        as [|_]; [contradiction|].
      cbn [negb]. unfold bind, ret.
      match goal with
      | |- context [checkSignals ?s] =>
          destruct (checkSignals_total s) as (got2 & st3 & Hrun2 & _)
      end.
      * cbn [receivedSignals set_receivedSignals log].
        apply arrive_is_uint32. exact Hr.
      * exists got2, st3. rewrite Hrun2. split; reflexivity.
Qed.

Lemma sleepTicks_darwin_checks_witness :
  GOOS darwin64 = darwin
  /\ hasSignals armed_state = true
  /\ Int.is_uint32 (receivedSignals armed_state)
  /\ exists got st1,
      checkSignals armed_state = Ok got st1
      /\ (got = true <->
          receivedSignals armed_state <> 0
          /\ ~ chan_full (signalChan armed_state)).
Proof.
  assert (Hr : Int.is_uint32 (receivedSignals armed_state))
    by (unfold Int.is_uint32; simpl; lia).
  split; [reflexivity|]. split; [reflexivity|]. split; [exact Hr|].
  destruct (sleepTicks_darwin_checks darwin64 racing_kernel 50000000
                                     armed_state eq_refl eq_refl Hr)
    as (got & st1 & Hrun & Hiff & _).
  exists got, st1. split; [exact Hrun | exact Hiff].
Defined.

(** ** C9: reading the clock *)

Section ClockFacts.
Import Int.

Lemma mul64_mod a b : mul64 (a mod 2 ^ 64) b = (a * b) mod 2 ^ 64.
Proof. unfold mul64, uint64. apply Z.mul_mod_idemp_l. lia. Qed.

Lemma add64_mod a b :
  add64 (a mod 2 ^ 64) (b mod 2 ^ 64) = (a + b) mod 2 ^ 64.
Proof.
  unfold add64, uint64. symmetry. apply Z.add_mod. lia.
Qed.

Lemma nanoseconds_mod sec nsec :
  add64 (mul64 (mul64 (mul64 (uint64 sec) 1000) 1000) 1000) (uint64 nsec)
  = (sec * 10 ^ 9 + nsec) mod 2 ^ 64.
Proof.
  unfold uint64. rewrite !mul64_mod, add64_mod.
  f_equal. lia.
Qed.

Lemma getTime_eq T k clock st :
  getTime T k clock st =
  if TargetBits T =? 32
  then Ok ((tv_sec (k_clock_gettime64 k clock) * 10 ^ 9
            + tv_nsec (k_clock_gettime64 k clock)) mod 2 ^ 64)
          (log (EvClockGettime64 clock) st)
  else Ok ((tv_sec (k_clock_gettime k clock) * 10 ^ 9
            + tv_nsec (k_clock_gettime k clock)) mod 2 ^ 64)
          (log (EvClockGettime clock) st).
Proof.
  unfold getTime, clock_gettime.
  destruct (TargetBits T =? 32); unfold emit; unfold bind, modify, ret;
    rewrite nanoseconds_mod; reflexivity.
Qed.

End ClockFacts.

(** C9 as the claim words it fails: the sum is formed in unsigned 64-bit
    arithmetic, so for a reading of 18446744074 s the adapter returns
    290448384 and not [18446744074 * 10^9]. *)
Lemma getTime_not_exact_beyond_64_bits :
  Int.is_int64 (tv_sec (k_clock_gettime far_kernel 4))
  /\ Int.is_int64 (tv_nsec (k_clock_gettime far_kernel 4))
  /\ exists v st',
      getTime linux64 far_kernel 4 boot_state = Ok v st'
      /\ v = 290448384
      /\ v <> tv_sec (k_clock_gettime far_kernel 4) * 10 ^ 9
              + tv_nsec (k_clock_gettime far_kernel 4).
Proof.
  split; [unfold Int.is_int64; simpl; lia|].
  split; [unfold Int.is_int64; simpl; lia|].
  eexists. eexists. split; [vm_compute; reflexivity|].
  split; [reflexivity|]. vm_compute. discriminate.
Qed.

(** C9, amended.  On a 32-bit target every clock reading ([clock_gettime],
    and through it [getTime], [monotime] and [now]) calls
    [__clock_gettime64], on any other target it calls [clock_gettime];
    [getTime] returns [(seconds * 10^9 + nanoseconds) mod 2^64], which is
    [seconds * 10^9 + nanoseconds] itself whenever that lies in
    [[0, 2^64)]. *)
Theorem getTime_reads_the_right_clock (T : target) (k : kernel) (clock : Z)
        (st : state) :
  (TargetBits T = 32 ->
   clock_gettime T k clock st
   = Ok (k_clock_gettime64 k clock) (log (EvClockGettime64 clock) st)
   /\ getTime T k clock st
      = Ok ((tv_sec (k_clock_gettime64 k clock) * 10 ^ 9
             + tv_nsec (k_clock_gettime64 k clock)) mod 2 ^ 64)
           (log (EvClockGettime64 clock) st)
   /\ (exists v st', monotime T k st = Ok v st'
                     /\ trace st' = trace st
                                    ++ [EvClockGettime64 (clock_MONOTONIC_RAW T)])
   /\ (exists v st', now T k st = Ok v st'
                     /\ trace st' = trace st
                                    ++ [EvClockGettime64 (clock_REALTIME T);
                                        EvClockGettime64 (clock_MONOTONIC_RAW T)]))
  /\ (TargetBits T <> 32 ->
      clock_gettime T k clock st
      = Ok (k_clock_gettime k clock) (log (EvClockGettime clock) st)
      /\ getTime T k clock st
         = Ok ((tv_sec (k_clock_gettime k clock) * 10 ^ 9
                + tv_nsec (k_clock_gettime k clock)) mod 2 ^ 64)
              (log (EvClockGettime clock) st)
      /\ (exists v st', monotime T k st = Ok v st'
                        /\ trace st' = trace st
                                       ++ [EvClockGettime (clock_MONOTONIC_RAW T)])
      /\ (exists v st', now T k st = Ok v st'
                        /\ trace st' = trace st
                                       ++ [EvClockGettime (clock_REALTIME T);
                                           EvClockGettime (clock_MONOTONIC_RAW T)]))
  /\ (forall sec nsec,
         0 <= sec * 10 ^ 9 + nsec < 2 ^ 64 ->
         (sec * 10 ^ 9 + nsec) mod 2 ^ 64 = sec * 10 ^ 9 + nsec).
Proof.
  split; [|split].
  - intros Hbits.
    assert (Hcg : clock_gettime T k clock st
                  = Ok (k_clock_gettime64 k clock)
                       (log (EvClockGettime64 clock) st)).
    { unfold clock_gettime. rewrite Hbits. reflexivity. }
    split; [exact Hcg|]. split; [|split].
    + rewrite getTime_eq, Hbits. reflexivity.
    + unfold monotime. rewrite getTime_eq, Hbits. cbn [Z.eqb Pos.eqb].
      eexists. eexists. split; reflexivity.
    + unfold now, nanotime, ticks, monotime, clock_gettime.
      rewrite Hbits. cbn [Z.eqb Pos.eqb]. unfold bind at 1.
      unfold emit. unfold bind at 1. unfold modify at 1. unfold ret at 1.
      unfold bind. rewrite getTime_eq, Hbits. cbn [Z.eqb Pos.eqb].
      unfold ret. eexists. eexists. split; [reflexivity|].
      cbn [trace log]. rewrite <- app_assoc. reflexivity.
  - intros Hbits. apply Z.eqb_neq in Hbits.
    assert (Hcg : clock_gettime T k clock st
                  = Ok (k_clock_gettime k clock)
                       (log (EvClockGettime clock) st)).
    { unfold clock_gettime. rewrite Hbits. reflexivity. }
    split; [exact Hcg|]. split; [|split].
    + rewrite getTime_eq, Hbits. reflexivity.
    + unfold monotime. rewrite getTime_eq, Hbits.
      eexists. eexists. split; reflexivity.
    + unfold now, nanotime, ticks, monotime, clock_gettime.
      rewrite Hbits. unfold bind at 1.
      unfold emit. unfold bind at 1. unfold modify at 1. unfold ret at 1.
      unfold bind. rewrite getTime_eq, Hbits.
      unfold ret. eexists. eexists. split; [reflexivity|].
      cbn [trace log]. rewrite <- app_assoc. reflexivity.
  - intros sec nsec Hrange. apply Z.mod_small. exact Hrange.
Qed.

Lemma getTime_reads_the_right_clock_witness :
  getTime linux32 far_kernel 4 boot_state
  = Ok 290448384 (log (EvClockGettime64 4) boot_state)
  /\ (1 * 10 ^ 9 + 5) mod 2 ^ 64 = 1 * 10 ^ 9 + 5.
Proof.
  destruct (getTime_reads_the_right_clock linux32 far_kernel 4 boot_state)
    as (H32 & _ & Hexact).
  destruct (H32 eq_refl) as (_ & Hget & _).
  split.
  - rewrite Hget. vm_compute. reflexivity.
  - apply Hexact. vm_compute. split; [intro H; discriminate H | reflexivity].
Defined.

(** ** C10: the signal-interest flag *)

(** C10.  [hasSignals] is set by every successful [signal_enable], is
    changed by no other operation, and once true stays true through any
    run of the runtime, however the run ends; so after any run in which a
    [signal_enable] succeeded it is true.  Whenever it is true, whatever
    [activeSignals] holds, [waitForEvents] returns normally instead of
    halting with the no-event-source deadlock, and [sleepTicks] takes the
    branch for registered signals (on Linux it masks the active set and
    never calls [usleep]; on darwin it drains before and, on an early
    wake-up, after [usleep]) rather than the plain [usleep] of the
    flag-less case.  In particular this is the situation after enabling a
    signal and then ignoring or disabling it, which leaves
    [activeSignals] empty and [hasSignals] true. *)
Theorem hasSignals_never_cleared (T : target) :
  (forall s st,
      s < 32 ->
      exists st', signal_enable s st = Ok tt st' /\ hasSignals st' = true)
  /\ (forall o st,
         (forall s, o <> OpSignalEnable s) ->
         outcome_rel flag_kept st (exec_op T o st))
  /\ (forall ops st,
         hasSignals st = true ->
         outcome_rel (fun _ st' => hasSignals st' = true) st (run T ops st))
  /\ (forall ops1 s ops2 st st',
         run T (ops1 ++ OpSignalEnable s :: ops2) st = Ok tt st' ->
         hasSignals st' = true)
  /\ (forall k d st,
         hasSignals st = false ->
         sleepTicks T k d st = (usleep k (Int.uint T d / 1000) ;; ret tt) st)
  /\ (forall k d st,
         hasSignals st = true ->
         Int.is_uint32 (receivedSignals st) ->
         (exists st2, waitForEvents k st = Ok tt st2)
         /\ (GOOS T = linux ->
             exists st2 tr,
               sleepTicks T k d st = Ok tt st2
               /\ trace st2 = trace st ++ EvWfiMask (activeSignals st) :: tr
               /\ Forall (fun e => forall usec, e <> EvUsleep usec) tr)
         /\ (GOOS T = darwin ->
             sleepTicks T k d st
             = (got <- checkSignals ;;
                if got then ret tt
                else
                  result <- usleep k (Int.uint T d / 1000) ;;
                  if negb (result =? 0)
                  then checkSignals ;; ret tt
                  else ret tt) st))
  /\ (forall s o st,
         0 <= s < 32 ->
         o = OpSignalIgnore s \/ o = OpSignalDisable s ->
         activeSignals st = 0 ->
         exists st1,
           run T [OpSignalEnable s; o] st = Ok tt st1
           /\ activeSignals st1 = 0
           /\ hasSignals st1 = true
           /\ receivedSignals st1 = receivedSignals st).
Proof.
  split; [|split; [|split; [|split; [|split; [|split]]]]].
  - intros s st Hs. unfold signal_enable, emit. unfold bind, modify, ret.
    assert (Hlt : (s >=? 32) = false)
      by (destruct (Z.geb_spec s 32); [lia | reflexivity]).
    rewrite Hlt. eexists. split; reflexivity.
  - intros o st Hne. apply flag_kept_exec_op. exact Hne.
  - intros ops st Hhs.
    apply (outcome_rel_impl _ stable); [|apply stable_run].
    intros st' Hst. apply (stable_hasSignals _ _ Hst). exact Hhs.
  - intros ops1 s ops2 st st'. apply run_with_enable.
  - intros k d st Hhs. apply sleepTicks_plain. exact Hhs.
  - intros k d st Hhs Hr. split; [|split].
    + apply waitForEvents_returns; assumption.
    + intros Hos. apply sleepTicks_linux_masks; assumption.
    + intros Hos. rewrite sleepTicks_signal_aware by exact Hhs.
      rewrite Hos. reflexivity.
  - intros s o st Hs Ho Hact.
    destruct (enable_then_drop s o st Hs Ho Hact T) as (tr & Hrun).
    eexists. split; [exact Hrun|].
    split; [reflexivity|]. split; reflexivity.
Qed.

Lemma hasSignals_never_cleared_witness :
  exists st1,
    run linux64 [OpSignalEnable 2; OpSignalIgnore 2] boot_state = Ok tt st1
    /\ activeSignals st1 = 0
    /\ hasSignals st1 = true
    /\ exists st2, waitForEvents quiet_kernel st1 = Ok tt st2.
Proof.
  destruct (hasSignals_never_cleared linux64)
    as (_ & _ & _ & _ & _ & Hlive & Hdrop).
  destruct (Hdrop 2 (OpSignalIgnore 2) boot_state)
    as (st1 & Hrun & Hact & Hhs & Hrecv).
  - lia.
  - left. reflexivity.
  - reflexivity.
  - exists st1. split; [exact Hrun|]. split; [exact Hact|].
    split; [exact Hhs|].
    apply (Hlive quiet_kernel 1000 st1 Hhs).
    rewrite Hrecv. unfold Int.is_uint32. simpl. lia.
Defined.

(** * Further properties of the runtime *)

(** ** The handler and the interest set, bit by bit *)

Section BitEffects.
Import Int IntFacts.

Lemma uint32_out_of_range s :
  - 2 ^ 31 <= s < 2 ^ 31 -> s < 0 \/ 32 <= s -> 32 <= uint32 s.
Proof.
  intros Hs Hout. unfold uint32.
  destruct (Z_lt_ge_dec s 0) as [Hneg|Hpos].
  - rewrite <- (Z.mod_add s 1 (2 ^ 32)) by lia.
    rewrite Z.mod_small; lia.
  - rewrite Z.mod_small; lia.
Qed.

Lemma shl32_one_out n : 32 <= n -> shl32 1 n = 0.
Proof.
  intros Hn. unfold shl32.
  destruct (Z.ltb_spec n 32); [lia | reflexivity].
Qed.

Lemma lor_pow2_bit a s i :
  0 <= s -> 0 <= i ->
  Z.testbit (Z.lor a (2 ^ s)) i = Z.testbit a i || (i =? s).
Proof.
  intros Hs Hi. rewrite Z.lor_spec, testbit_pow2 by lia. reflexivity.
Qed.

End BitEffects.

(** X1.  For every signal number [s] an [int32] can hold, the handler
    returns and touches nothing but the pending mask.  For [0 <= s < 32]
    it sets bit [s] and leaves every other bit as it was; for a negative
    [s] or [s >= 32] the shift gives an empty mask and the state is
    unchanged.  A 32-bit mask stays a 32-bit mask. *)
Theorem tinygo_signal_handler_sets_one_bit (s : Z) (st : state) :
  - 2 ^ 31 <= s < 2 ^ 31 ->
  exists st',
    tinygo_signal_handler s st = Ok tt st'
    /\ st' = set_receivedSignals (receivedSignals st') st
    /\ (0 <= s < 32 ->
        forall i, 0 <= i ->
                  Z.testbit (receivedSignals st') i
                  = Z.testbit (receivedSignals st) i || (i =? s))
    /\ (s < 0 \/ 32 <= s -> st' = st)
    /\ (Int.is_uint32 (receivedSignals st) ->
        Int.is_uint32 (receivedSignals st')).
Proof.
  intros Hs. rewrite tinygo_signal_handler_eq. eexists.
  split; [reflexivity|]. split; [reflexivity|].
  cbn [receivedSignals set_receivedSignals]. split; [|split].
  - intros Hin i Hi. rewrite uint32_small, IntFacts.shl32_one by exact Hin.
    apply lor_pow2_bit; lia.
  - intros Hout.
    rewrite shl32_one_out by (apply uint32_out_of_range; assumption).
    rewrite Z.lor_0_r. apply set_receivedSignals_same.
  - intros Hr. apply IntFacts.lor_is_uint32;
      [exact Hr | apply IntFacts.shl32_is_uint32].
Qed.

Lemma tinygo_signal_handler_sets_one_bit_witness :
  exists st',
    tinygo_signal_handler (-1) pending_state = Ok tt st'
    /\ st' = pending_state.
Proof.
  destruct (tinygo_signal_handler_sets_one_bit (-1) pending_state)
    as (st' & Hrun & _ & _ & Hout & _).
  - lia.
  - exists st'. split; [exact Hrun|]. apply Hout. left. lia.
Defined.

(** X2.  For [0 <= s < 32], [signal_enable] sets bit [s] of
    [activeSignals] and [signal_ignore] and [signal_disable] clear it;
    every other bit stays as it was, and the three differ from one
    another only in the kernel call they make.  None of them touches the
    pending mask or the queue, so an occurrence of [s] that is already
    pending stays pending when [s] is ignored or disabled.  Repeating an
    operation leaves [activeSignals] as the first call left it, and
    ignoring or disabling [s] right after enabling it clears the bit. *)
Theorem interest_set_bit_effects (s : Z) (st : state) :
  0 <= s < 32 ->
  exists se si sd,
    signal_enable s st = Ok tt se
    /\ signal_ignore s st = Ok tt si
    /\ signal_disable s st = Ok tt sd
    /\ (forall i, 0 <= i ->
                  Z.testbit (activeSignals se) i
                  = Z.testbit (activeSignals st) i || (i =? s))
    /\ (forall i, Z.testbit (activeSignals si) i
                  = Z.testbit (activeSignals st) i && negb (i =? s))
    /\ activeSignals sd = activeSignals si
    /\ trace se = trace st ++ [EvSignalEnable s]
    /\ trace si = trace st ++ [EvSignalIgnore s]
    /\ trace sd = trace st ++ [EvSignalDisable s]
    /\ (receivedSignals se = receivedSignals st
        /\ receivedSignals si = receivedSignals st
        /\ receivedSignals sd = receivedSignals st)
    /\ (signalChan se = signalChan st
        /\ signalChan si = signalChan st
        /\ signalChan sd = signalChan st)
    /\ (exists se2, signal_enable s se = Ok tt se2
                    /\ activeSignals se2 = activeSignals se)
    /\ (exists si2, signal_ignore s si = Ok tt si2
                    /\ activeSignals si2 = activeSignals si)
    /\ (exists sd2, signal_disable s sd = Ok tt sd2
                    /\ activeSignals sd2 = activeSignals sd)
    /\ (exists s3, signal_ignore s se = Ok tt s3
                   /\ activeSignals s3 = activeSignals si)
    /\ (exists s4, signal_disable s se = Ok tt s4
                   /\ activeSignals s4 = activeSignals si).
Proof.
  intros Hs.
  assert (Hlt : (s >=? 32) = false)
    by (destruct (Z.geb_spec s 32); [lia | reflexivity]).
  unfold signal_enable, signal_ignore, signal_disable, emit.
  unfold bind, modify, ret. rewrite Hlt.
  do 3 eexists.
  split; [reflexivity|]. split; [reflexivity|]. split; [reflexivity|].
  cbn [activeSignals set_activeSignals set_hasSignals log trace
       receivedSignals signalChan].
  rewrite IntFacts.shl32_one by exact Hs.
  split; [intros i Hi; apply lor_pow2_bit; lia|].
  split; [intros i; apply IntFacts.andnot_bit; lia|].
  split; [reflexivity|].
  split; [reflexivity|]. split; [reflexivity|]. split; [reflexivity|].
  split; [auto|]. split; [auto|].
  unfold Int.andnot.
  split; [eexists; split; [reflexivity|];
          cbn [activeSignals set_activeSignals set_hasSignals log];
          rewrite <- Z.lor_assoc, Z.lor_diag; reflexivity|].
  assert (Hdiff2 : forall a m, Z.ldiff (Z.ldiff a m) m = Z.ldiff a m).
  { intros a m. apply Z.bits_inj'. intros i Hi. rewrite !Z.ldiff_spec.
    destruct (Z.testbit a i), (Z.testbit m i); reflexivity. }
  assert (Hdiff3 : forall a m, Z.ldiff (Z.lor a m) m = Z.ldiff a m).
  { intros a m. apply Z.bits_inj'. intros i Hi.
    rewrite !Z.ldiff_spec, Z.lor_spec.
    destruct (Z.testbit a i), (Z.testbit m i); reflexivity. }
  split; [eexists; split; [reflexivity|];
          cbn [activeSignals set_activeSignals set_hasSignals log];
          apply Hdiff2|].
  split; [eexists; split; [reflexivity|];
          cbn [activeSignals set_activeSignals set_hasSignals log];
          apply Hdiff2|].
  split; eexists; (split; [reflexivity|]);
    cbn [activeSignals set_activeSignals set_hasSignals log];
    apply Hdiff3.
Qed.

Lemma interest_set_bit_effects_witness :
  exists se s3,
    signal_enable 7 idle_state = Ok tt se
    /\ Z.testbit (activeSignals se) 7 = true
    /\ signal_ignore 7 se = Ok tt s3
    /\ Z.testbit (activeSignals s3) 7 = false.
Proof.
  destruct (interest_set_bit_effects 7 idle_state)
    as (se & si & sd & Hen & Hig & _ & Hset & Hclr & _ & _ & _ & _ & _ & _
        & _ & _ & _ & (s3 & Hig3 & Hact3) & _).
  - lia.
  - exists se, s3. split; [exact Hen|]. split.
    + rewrite Hset by lia. apply orb_true_r.
    + split; [exact Hig3|]. rewrite Hact3, Hclr. apply andb_false_r.
Defined.

(** ** The queue between the drain and its reader *)

Section Invariants.

Variable P : state -> Prop.

Lemma inv_ret A (a : A) : total_inv P (ret a).
Proof. intros st H. exact H. Qed.

Lemma inv_gets A (f : state -> A) : total_inv P (gets f).
Proof. intros st H. exact H. Qed.

Lemma inv_panic A msg : total_inv P (@runtimePanic A msg).
Proof. intros st H. exact I. Qed.

Lemma inv_panic_at A msg : total_inv P (@runtimePanicAt A msg).
Proof. intros st H. exact I. Qed.

Lemma inv_modify f : (forall st, P st -> P (f st)) -> total_inv P (modify f).
Proof. intros Hf st H. apply Hf. exact H. Qed.

Lemma inv_bind A B (m : M A) (f : A -> M B) :
  total_inv P m -> (forall a, total_inv P (f a)) -> total_inv P (bind m f).
Proof.
  intros Hm Hf st H. unfold bind. specialize (Hm st H).
  destruct (m st) as [a st'| | |]; simpl in *; try assumption.
  apply Hf. exact Hm.
Qed.

End Invariants.

Lemma bind_ok A B (m : M A) (f : A -> M B) st a st' :
  m st = Ok a st' -> bind m f st = f a st'.
Proof. intros H. unfold bind. rewrite H. reflexivity. Qed.

Section QueueFacts.

Import Int IntFacts.

Lemma checkSignals_loop_room fuel :
  forall got st,
    (List.length (chan_buf (signalChan st)) <= chan_cap (signalChan st))%nat ->
    match checkSignals_loop fuel got st with
    | Ok _ st' =>
        (List.length (chan_buf (signalChan st'))
         <= chan_cap (signalChan st'))%nat
        /\ chan_cap (signalChan st') = chan_cap (signalChan st)
    | _ => True
    end.
Proof.
  induction fuel as [|fuel IH]; intros got st Hlen.
  - exact I.
  - rewrite checkSignals_loop_step.
    destruct (receivedSignals st =? 0); [split; [exact Hlen | reflexivity]|].
    destruct (chan_send_nb (signalChan st) _) as [c|] eqn:Hsend;
      [|split; [exact Hlen | reflexivity]].
    apply chan_send_nb_some in Hsend. destruct Hsend as [-> Hlt].
    match goal with
    | |- match checkSignals_loop _ _ ?s with _ => _ end =>
        specialize (IH true s); destruct (checkSignals_loop fuel true s);
        try exact I
    end.
    cbn [signalChan set_receivedSignals set_signalChan chan_buf chan_cap]
      in IH.
    rewrite length_app in IH. cbn [List.length] in IH.
    destruct IH as [Ha Hb]; [lia|]. split; [exact Ha | exact Hb].
Qed.

Lemma checkSignals_queue_ok st :
  queue_ok st ->
  exists got st',
    checkSignals st = Ok got st'
    /\ queue_ok st'
    /\ (got = false -> st' = st)
    /\ same_config st st'
    /\ trace st' = trace st.
Proof.
  intros [Hm Hc Hl He].
  destruct (checkSignals_spec st Hm) as (sent & st' & Heq & Hrel).
  destruct (checkSignals_total st Hm)
    as (got & st2 & Heq2 & _ & Hsame & _ & Hcfg & Htr).
  rewrite Heq in Heq2. inversion Heq2; subst st2. clear Heq2.
  pose proof (checkSignals_loop_room checkSignals_fuel false st) as Hroom.
  fold checkSignals in Hroom. rewrite Heq in Hroom.
  destruct Hroom as [Hlen' Hcap']; [lia|].
  destruct Hrel as [Hst _ Hpend _ _ _ Hu].
  exists got, st'. rewrite Heq, H0.
  split; [reflexivity|]. split; [|auto].
  constructor.
  - exact Hu.
  - rewrite Hcap'. exact Hc.
  - rewrite Hcap', Hc in Hlen'. exact Hlen'.
  - rewrite Hst. unfold drained.
    cbn [signalChan set_receivedSignals set_signalChan chan_buf].
    apply Forall_app. split; [exact He|].
    apply Forall_forall. intros i Hi. apply Hpend. exact Hi.
Qed.

Lemma queue_ok_same st st' :
  receivedSignals st' = receivedSignals st ->
  signalChan st' = signalChan st ->
  queue_ok st -> queue_ok st'.
Proof.
  intros Hr Hc [Hm Hcap Hl He].
  constructor; rewrite ?Hr, ?Hc; assumption.
Qed.

Lemma queue_modify f :
  (forall st, receivedSignals (f st) = receivedSignals st
              /\ signalChan (f st) = signalChan st) ->
  total_inv queue_ok (modify f).
Proof.
  intros Hf. apply inv_modify. intros st.
  apply queue_ok_same; apply Hf.
Qed.

Ltac queue_step :=
  lazymatch goal with
  | |- total_inv _ (bind _ _) => apply inv_bind; [|intros ?]
  | |- total_inv _ (ret _) => apply inv_ret
  | |- total_inv _ (gets _) => apply inv_gets
  | |- total_inv _ (runtimePanic _) => apply inv_panic
  | |- total_inv _ (runtimePanicAt _) => apply inv_panic_at
  | |- total_inv _ (emit _) =>
      apply queue_modify; intros ?; split; reflexivity
  | |- total_inv _ (modify _) =>
      apply queue_modify; intros ?; split; reflexivity
  | |- total_inv _ (if ?b then _ else _) => destruct b
  | |- total_inv _ (match ?x with _ => _ end) => destruct x
  end.

Lemma queue_signal_handler s : total_inv queue_ok (tinygo_signal_handler s).
Proof.
  intros st [Hm Hc Hl He]. rewrite tinygo_signal_handler_eq.
  constructor; cbn [receivedSignals signalChan set_receivedSignals];
    try assumption.
  apply lor_is_uint32; [exact Hm | apply shl32_is_uint32].
Qed.

Lemma queue_checkSignals : total_inv queue_ok checkSignals.
Proof.
  intros st H.
  destruct (checkSignals_queue_ok st H) as (got & st' & -> & Hq & _).
  exact Hq.
Qed.

Lemma queue_ok_recv st v rest :
  queue_ok st ->
  chan_buf (signalChan st) = v :: rest ->
  0 <= v < 32
  /\ rest = []
  /\ queue_ok (set_signalChan (mkChan rest (chan_cap (signalChan st))) st).
Proof.
  intros [Hm Hc Hl He] Hbuf. rewrite Hbuf in Hl, He.
  inversion He as [|x l Hv Hrest]; subst.
  destruct rest as [|w rest]; [|cbn [List.length] in Hl; lia].
  split; [exact Hv|]. split; [reflexivity|].
  constructor; cbn [receivedSignals signalChan set_signalChan chan_buf
                    chan_cap List.length]; auto.
Qed.

Lemma queue_signal_recv : total_inv queue_ok signal_recv.
Proof.
  intros st H. unfold signal_recv, chan_recv.
  destruct (chan_buf (signalChan st)) as [|v rest] eqn:Hbuf; [exact I|].
  destruct (queue_ok_recv st v rest H Hbuf) as (_ & _ & Hq).
  assert (Hm : total_inv queue_ok (checkSignals ;; ret v))
    by (repeat first [apply queue_checkSignals | queue_step]).
  apply Hm. exact Hq.
Qed.

Lemma queue_run_handlers l : total_inv queue_ok (run_handlers l).
Proof.
  induction l as [|s l IH]; cbn [run_handlers].
  - apply inv_ret.
  - apply inv_bind; [apply queue_signal_handler | intros _; exact IH].
Qed.

Lemma queue_exec_op T o : total_inv queue_ok (exec_op T o).
Proof.
  destruct o; cbn [exec_op];
    unfold growHeap, setHeapEnd, signal_enable, signal_ignore, signal_disable,
      sleepTicks, waitForEvents, usleep, tinygo_wfi_mask, tinygo_wfi_unmask,
      tinygo_wfi_sleep, tinygo_wfi_wait, getTime, clock_gettime;
    repeat first [apply queue_signal_handler
                 | apply queue_checkSignals
                 | apply queue_signal_recv
                 | apply queue_run_handlers
                 | queue_step].
Qed.

Lemma startup_queue_ok T k st :
  startup T k boot_state = Ok tt st -> queue_ok st.
Proof.
  unfold startup, bind, init, modify.
  destruct (preinit_outcome T k boot_state) as [(n & Hn & ->)| ->];
    [|discriminate].
  intros H. inversion H; subst.
  constructor; cbn; auto. unfold is_uint32. lia.
Qed.

Lemma reachable_queue_ok T st : reachable T st -> queue_ok st.
Proof.
  induction 1 as [k st Hstart|o st st' Hreach IH Hstep].
  - eapply startup_queue_ok. exact Hstart.
  - pose proof (queue_exec_op T o st IH) as Hok.
    rewrite Hstep in Hok. exact Hok.
Qed.

Lemma reachable_run T ops :
  forall st st', reachable T st -> run T ops st = Ok tt st' ->
                 reachable T st'.
Proof.
  induction ops as [|o ops IH]; intros st st' Hreach Hrun.
  - inversion Hrun; subst. exact Hreach.
  - cbn [run] in Hrun. unfold bind in Hrun.
    destruct (exec_op T o st) as [[] st1| | |] eqn:Hop; try discriminate.
    eapply IH; [|exact Hrun]. eapply reach_step; eassumption.
Qed.

End QueueFacts.

(** X3.  A drain settles the state: once [checkSignals] has returned,
    the pending mask is empty or the queue is full, so a second drain
    right after it returns false and changes nothing. *)
Theorem checkSignals_settles (st : state) :
  Int.is_uint32 (receivedSignals st) ->
  exists got st',
    checkSignals st = Ok got st'
    /\ (receivedSignals st' = 0 \/ chan_full (signalChan st'))
    /\ checkSignals st' = Ok false st'
    /\ (checkSignals ;; checkSignals) st = Ok false st'.
Proof.
  intros Hu.
  destruct (checkSignals_spec st Hu) as (sent & st' & Heq & Hrel).
  assert (Hidle : receivedSignals st' = 0 \/ chan_full (signalChan st')).
  { destruct (Z.eq_dec (receivedSignals st') 0) as [Hz|Hnz];
      [left; exact Hz | right; apply (dr_stop _ _ _ Hrel); exact Hnz]. }
  do 2 eexists. split; [exact Heq|]. split; [exact Hidle|].
  split; [apply checkSignals_idle; exact Hidle|].
  rewrite (bind_ok _ _ _ _ _ _ _ Heq).
  apply checkSignals_idle. exact Hidle.
Qed.

Lemma checkSignals_settles_witness :
  exists got st',
    checkSignals pending_state = Ok got st'
    /\ (receivedSignals st' = 0 \/ chan_full (signalChan st'))
    /\ checkSignals st' = Ok false st'
    /\ (checkSignals ;; checkSignals) pending_state = Ok false st'.
Proof.
  apply (checkSignals_settles pending_state).
  unfold Int.is_uint32. cbn. lia.
Defined.

(** X4.  In every state the runtime can reach after start-up the queue
    has capacity one and holds nothing or one signal number below 32.
    On the empty queue [signal_recv] parks the caller; otherwise it
    returns the queued number, which is a signal number below 32, and
    leaves a state of the same kind. *)
Theorem signal_recv_yields_signal_numbers (T : target) (st : state) :
  reachable T st ->
  queue_ok st
  /\ (chan_buf (signalChan st) = []
      \/ exists v, chan_buf (signalChan st) = [v])
  /\ (chan_buf (signalChan st) = [] -> signal_recv st = Parked st)
  /\ (forall v,
         chan_buf (signalChan st) = [v] ->
         0 <= v < 32
         /\ exists st', signal_recv st = Ok v st' /\ queue_ok st')
  /\ (forall ops v st1 st2,
         run T ops st = Ok tt st1 ->
         signal_recv st1 = Ok v st2 ->
         0 <= v < 32).
Proof.
  intros Hreach. pose proof (reachable_queue_ok T st Hreach) as Hq.
  assert (Hrecv : forall s v s2,
             queue_ok s -> signal_recv s = Ok v s2 ->
             0 <= v < 32 /\ chan_buf (signalChan s) = [v] /\ queue_ok s2).
  { intros s v s2 Hs Hrun.
    pose proof (queue_signal_recv s Hs) as Hok. rewrite Hrun in Hok.
    unfold signal_recv, chan_recv in Hrun.
    destruct (chan_buf (signalChan s)) as [|w rest] eqn:Hbuf;
      [discriminate|].
    destruct (queue_ok_recv s w rest Hs Hbuf) as (Hw & -> & Hq').
    destruct (checkSignals_queue_ok _ Hq') as (got & s3 & Hcs & _).
    rewrite (bind_ok _ _ _ _ _ _ _ Hcs) in Hrun.
    inversion Hrun; subst. auto. }
  split; [exact Hq|]. split; [|split; [|split]].
  - destruct (chan_buf (signalChan st)) as [|v rest] eqn:Hbuf;
      [left; reflexivity|].
    destruct (queue_ok_recv st v rest Hq Hbuf) as (_ & -> & _).
    right. exists v. reflexivity.
  - intros Hbuf. unfold signal_recv, chan_recv. rewrite Hbuf. reflexivity.
  - intros v Hbuf.
    destruct (queue_ok_recv st v [] Hq Hbuf) as (Hv & _ & Hq').
    split; [exact Hv|].
    destruct (checkSignals_queue_ok _ Hq') as (got & s3 & Hcs & Hq3 & _).
    exists s3. split; [|exact Hq3].
    unfold signal_recv, chan_recv. rewrite Hbuf.
    rewrite (bind_ok _ _ _ _ _ _ _ Hcs). reflexivity.
  - intros ops v st1 st2 Hrun Hr.
    apply (Hrecv st1 v st2); [|exact Hr].
    eapply reachable_queue_ok. eapply reachable_run; eassumption.
Qed.

Lemma signal_recv_yields_signal_numbers_witness :
  queue_ok backlog_state
  /\ exists st', signal_recv backlog_state = Ok 5 st' /\ queue_ok st'.
Proof.
  assert (Hreach : reachable linux64 backlog_state).
  { apply (reachable_run linux64 backlog_ops
             (mkState 131072 1073741824 4096 135168 (make_chan 1) false 0 0
                      [EvMmap 1073741824])).
    - apply (reach_startup linux64 quiet_kernel). vm_compute. reflexivity.
    - vm_compute. reflexivity. }
  destruct (signal_recv_yields_signal_numbers linux64 backlog_state Hreach)
    as (Hq & _ & _ & Hone & _).
  split; [exact Hq|]. apply (Hone 5). reflexivity.
Defined.

(** ** The order of delivery *)

Section Delivery.

Import Int IntFacts.

Lemma seq_sorted n :
  forall a, StronglySorted Z.lt (map Z.of_nat (seq a n)).
Proof.
  induction n as [|n IH]; intros a; cbn [seq map]; constructor.
  - apply IH.
  - apply Forall_forall. intros x Hx.
    apply in_map_iff in Hx. destruct Hx as (y & <- & Hy).
    apply in_seq in Hy. lia.
Qed.

Lemma filter_sorted f l :
  StronglySorted Z.lt l -> StronglySorted Z.lt (filter f l).
Proof.
  induction 1 as [|a l Hs IH Ha]; cbn [filter]; [constructor|].
  destruct (f a); [|exact IH].
  constructor; [exact IH|].
  apply Forall_forall. intros x Hx. apply filter_In in Hx.
  rewrite Forall_forall in Ha. apply Ha. apply Hx.
Qed.

Lemma filter_lowest (f g : Z -> bool) t l :
  StronglySorted Z.lt l ->
  In t l ->
  (forall i, In i l -> i < t -> f i = false) ->
  f t = true ->
  (forall i, g i = f i && negb (i =? t)) ->
  filter f l = t :: filter g l.
Proof.
  intros Hs Hin Hlow Ht Hg.
  induction Hs as [|a l Hs IH Ha]; [destruct Hin|].
  rewrite Forall_forall in Ha. cbn [filter].
  destruct (Z.eq_dec a t) as [->|Hne].
  - rewrite Ht, Hg, Ht, Z.eqb_refl. cbn [negb andb]. f_equal.
    apply filter_ext_in. intros i Hi. rewrite Hg.
    destruct (Z.eqb_spec i t) as [->|_];
      [specialize (Ha t Hi); lia | apply eq_sym, andb_true_r].
  - destruct Hin as [Heq|Hin]; [congruence|].
    rewrite Hg, (Hlow a) by (try (left; reflexivity); apply Ha; exact Hin).
    cbn [andb]. apply IH; [exact Hin|].
    intros i Hi. apply Hlow. right. exact Hi.
Qed.

Lemma pending_list_spec r i :
  In i (pending_list r) <-> 0 <= i < 32 /\ Z.testbit r i = true.
Proof.
  unfold pending_list. rewrite filter_In, in_map_iff. split.
  - intros [(y & <- & Hy) Hb]. apply in_seq in Hy. split; [lia | exact Hb].
  - intros [Hi Hb]. split; [|exact Hb].
    exists (Z.to_nat i). split; [lia | apply in_seq; lia].
Qed.

Lemma pending_list_cons r :
  is_uint32 r -> r <> 0 ->
  pending_list r
  = TrailingZeros32 r
    :: pending_list (andnot r (shl32 1 (TrailingZeros32 r))).
Proof.
  intros Hu Hnz.
  pose proof (TrailingZeros32_range r) as Hrange.
  pose proof (TrailingZeros32_nonzero r Hu Hnz) as Hlt.
  rewrite shl32_one by lia. unfold pending_list.
  apply filter_lowest.
  - apply seq_sorted.
  - apply in_map_iff. exists (Z.to_nat (TrailingZeros32 r)).
    split; [lia | apply in_seq; lia].
  - intros i Hi Hlow. apply TrailingZeros32_below.
    apply in_map_iff in Hi. destruct Hi as (y & <- & _). lia.
  - apply TrailingZeros32_set; assumption.
  - intros i. apply andnot_bit. lia.
Qed.

Lemma pending_list_zero : pending_list 0 = [].
Proof. reflexivity. Qed.

Lemma checkSignals_one st :
  is_uint32 (receivedSignals st) ->
  receivedSignals st <> 0 ->
  signalChan st = mkChan [] 1 ->
  checkSignals st
  = Ok true
       (set_receivedSignals
          (andnot (receivedSignals st)
                  (shl32 1 (TrailingZeros32 (receivedSignals st))))
          (set_signalChan
             (mkChan [TrailingZeros32 (receivedSignals st)] 1) st)).
Proof.
  intros Hu Hnz Hchan. unfold checkSignals, checkSignals_fuel.
  rewrite checkSignals_loop_step.
  destruct (Z.eqb_spec (receivedSignals st) 0) as [Hz|_]; [contradiction|].
  rewrite Hchan. cbn [chan_send_nb chan_buf chan_cap List.length Nat.ltb
                      Nat.leb app].
  rewrite checkSignals_loop_step.
  cbn [receivedSignals signalChan set_receivedSignals set_signalChan
       chan_send_nb chan_buf chan_cap List.length Nat.ltb Nat.leb].
  destruct (_ =? 0); reflexivity.
Qed.

Lemma recv_all_queued n :
  forall st v,
    is_uint32 (receivedSignals st) ->
    signalChan st = mkChan [v] 1 ->
    List.length (pending_list (receivedSignals st)) = n ->
    recv_all (S n) st
    = Ok (v :: pending_list (receivedSignals st))
         (set_receivedSignals 0 (set_signalChan (mkChan [] 1) st)).
Proof.
  induction n as [|n IH]; intros st v Hu Hchan Hlen.
  - destruct (Z.eq_dec (receivedSignals st) 0) as [Hz|Hnz].
    + cbn [recv_all].
      assert (Hrecv : signal_recv st
                      = Ok v (set_signalChan (mkChan [] 1) st)).
      { unfold signal_recv. rewrite Hchan. cbn [chan_recv chan_buf chan_cap].
        erewrite bind_ok by (apply checkSignals_idle; left; exact Hz).
        reflexivity. }
      rewrite (bind_ok _ _ _ _ _ _ _ Hrecv). unfold bind, ret.
      rewrite Hz, pending_list_zero. f_equal. clear Hlen Hrecv Hu Hchan.
      destruct st; cbn [receivedSignals] in Hz; subst; reflexivity.
    + rewrite pending_list_cons in Hlen by assumption. discriminate.
  - destruct (Z.eq_dec (receivedSignals st) 0) as [Hz|Hnz].
    + rewrite Hz, pending_list_zero in Hlen. discriminate.
    + rewrite pending_list_cons in Hlen by assumption.
      cbn [List.length] in Hlen. injection Hlen as Hlen.
      change (recv_all (S (S n)))
        with (x <- signal_recv ;; vs <- recv_all (S n) ;; ret (x :: vs)).
      assert (Hrecv :
                signal_recv st
                = Ok v (set_receivedSignals
                          (andnot (receivedSignals st)
                                  (shl32 1 (TrailingZeros32
                                              (receivedSignals st))))
                          (set_signalChan
                             (mkChan [TrailingZeros32 (receivedSignals st)] 1)
                             st))).
      { unfold signal_recv. rewrite Hchan. cbn [chan_recv chan_buf chan_cap].
        erewrite bind_ok
          by (apply checkSignals_one; [exact Hu | exact Hnz | reflexivity]).
        reflexivity. }
      rewrite (bind_ok _ _ _ _ _ _ _ Hrecv).
      erewrite bind_ok.
      2:{ apply IH.
          - cbn [receivedSignals set_receivedSignals].
            apply andnot_is_uint32; [exact Hu | apply shl32_is_uint32].
          - reflexivity.
          - exact Hlen. }
      unfold ret. cbn [receivedSignals set_receivedSignals].
      rewrite (pending_list_cons (receivedSignals st)) by assumption.
      reflexivity.
Qed.

End Delivery.

(** X5.  Whatever the order in which signals arrived, the reader gets
    them in ascending numeric order, each once.  From a state with an
    empty queue of capacity one, a drain followed by as many calls of
    [signal_recv] as there are pending signals returns exactly the
    numbers of the set bits of the pending mask, lowest first, and
    leaves the mask and the queue empty; one more [signal_recv] parks
    the caller.  [signal_recv] itself receives before it drains: on an
    empty queue it parks although signals are pending. *)
Theorem signal_recv_ascending_order (st : state) :
  Int.is_uint32 (receivedSignals st) ->
  signalChan st = make_chan 1 ->
  (checkSignals ;; recv_all (List.length (pending_list (receivedSignals st))))
    st
  = Ok (pending_list (receivedSignals st)) (set_receivedSignals 0 st)
  /\ signal_recv (set_receivedSignals 0 st) = Parked (set_receivedSignals 0 st)
  /\ signal_recv st = Parked st
  /\ StronglySorted Z.lt (pending_list (receivedSignals st))
  /\ (forall i, In i (pending_list (receivedSignals st))
                <-> 0 <= i < 32 /\ Z.testbit (receivedSignals st) i = true).
Proof.
  intros Hu Hchan. unfold make_chan in Hchan.
  split; [|split; [|split; [|split]]].
  - destruct (Z.eq_dec (receivedSignals st) 0) as [Hz|Hnz].
    + erewrite bind_ok by (apply checkSignals_idle; left; exact Hz).
      rewrite Hz, pending_list_zero. cbn [List.length recv_all].
      unfold ret. f_equal. rewrite <- Hz.
      apply eq_sym, set_receivedSignals_same.
    + rewrite (bind_ok _ _ _ _ _ _ _ (checkSignals_one st Hu Hnz Hchan)).
      rewrite pending_list_cons by assumption.
      assert (Hl : forall (a : Z) l,
                 List.length (a :: l) = S (List.length l)) by reflexivity.
      rewrite Hl.
      set (r1 := Int.andnot _ _).
      set (st2 := set_receivedSignals r1 _).
      assert (H1 : Int.is_uint32 (receivedSignals st2)).
      { subst st2 r1. apply IntFacts.andnot_is_uint32;
          [exact Hu | apply IntFacts.shl32_is_uint32]. }
      assert (H2 : signalChan st2
                   = mkChan [Int.TrailingZeros32 (receivedSignals st)] 1)
        by reflexivity.
      assert (H3 : receivedSignals st2 = r1) by reflexivity.
      pose proof (recv_all_queued (List.length (pending_list r1)) st2 _ H1 H2)
        as H.
      rewrite H3 in H. rewrite (H eq_refl).
      f_equal. subst st2. clear - Hchan.
      destruct st; cbn [signalChan] in Hchan; subst; reflexivity.
  - unfold signal_recv.
    cbn [signalChan set_receivedSignals]. rewrite Hchan. reflexivity.
  - unfold signal_recv. rewrite Hchan. reflexivity.
  - unfold pending_list. apply filter_sorted, seq_sorted.
  - intros i. apply pending_list_spec.
Qed.

Lemma signal_recv_ascending_order_witness :
  (checkSignals ;; recv_all 2) pending_state = Ok [3; 5] idle_state.
Proof.
  destruct (signal_recv_ascending_order pending_state) as [Hrun _].
  - unfold Int.is_uint32. cbn. lia.
  - reflexivity.
  - exact Hrun.
Defined.

(** ** Timed waits on Linux *)

Section LinuxSleep.

Import Int IntFacts.

Lemma sleepTicks_linux_eq T k d st :
  GOOS T = linux ->
  hasSignals st = true ->
  sleepTicks T k d st
  = match checkSignals (log (EvWfiMask (activeSignals st)) st) with
    | Ok true st1 => Ok tt (log EvWfiUnmask st1)
    | Ok false st1 =>
        ((if k_wfi_sleep k (activeSignals st1) (uint64 d) >=? 0
          then tinygo_signal_handler
                 (k_wfi_sleep k (activeSignals st1) (uint64 d)) ;;
               checkSignals ;; ret tt
          else ret tt) ;;
         tinygo_wfi_unmask)
          (log (EvWfiSleep (activeSignals st1) (uint64 d)) st1)
    | Fatal msg st' => Fatal msg st'
    | Parked st' => Parked st'
    | OutOfFuel => OutOfFuel
    end.
Proof.
  intros Hos Hhs. rewrite sleepTicks_signal_aware by exact Hhs. rewrite Hos.
  unfold tinygo_wfi_mask, tinygo_wfi_sleep, emit.
  unfold bind at 1. unfold gets at 1.
  unfold bind at 1. unfold modify at 1.
  unfold bind at 1.
  destruct (checkSignals _) as [[] st1| | |]; reflexivity.
Qed.

Lemma waitForEvents_eq k st :
  hasSignals st = true ->
  waitForEvents k st
  = match checkSignals (log (EvWfiMask (activeSignals st)) st) with
    | Ok true st1 => Ok tt (log EvWfiUnmask st1)
    | Ok false st1 =>
        (tinygo_signal_handler (k_wfi_wait k (activeSignals st1)) ;;
         checkSignals ;;
         tinygo_wfi_unmask)
          (log (EvWfiWait (activeSignals st1)) st1)
    | Fatal msg st' => Fatal msg st'
    | Parked st' => Parked st'
    | OutOfFuel => OutOfFuel
    end.
Proof.
  intros Hhs.
  unfold waitForEvents, tinygo_wfi_mask, tinygo_wfi_wait, emit.
  unfold bind at 1. unfold gets at 1. rewrite Hhs.
  unfold bind at 1. unfold gets at 1.
  unfold bind at 1. unfold modify at 1.
  unfold bind at 1.
  destruct (checkSignals _) as [[] st1| | |]; reflexivity.
Qed.

Lemma andnot_diag v : andnot v v = 0.
Proof. apply Z.ldiff_diag. Qed.

(** From an idle state, the handler run for [s] and the drain after it
    leave [s] queued and nothing pending. *)
Lemma wake_then_drain A (f : bool -> M A) s st :
  0 <= s < 32 ->
  receivedSignals st = 0 ->
  signalChan st = mkChan [] 1 ->
  bind (tinygo_signal_handler s) (fun _ => bind checkSignals f) st
  = f true (set_signalChan (mkChan [s] 1) st).
Proof.
  intros Hs Hr Hchan.
  erewrite bind_ok by apply tinygo_signal_handler_eq.
  rewrite Hr, Z.lor_0_l, uint32_small, shl32_one by exact Hs.
  erewrite bind_ok.
  2:{ apply checkSignals_one.
      - cbn [receivedSignals set_receivedSignals].
        apply pow2_is_uint32. exact Hs.
      - cbn [receivedSignals set_receivedSignals]. apply Z.pow_nonzero; lia.
      - exact Hchan. }
  cbn [receivedSignals set_receivedSignals].
  rewrite TrailingZeros32_pow2, shl32_one, andnot_diag by exact Hs.
  f_equal. clear Hchan. destruct st; cbn [receivedSignals] in Hr; subst.
  reflexivity.
Qed.

End LinuxSleep.

(** X6.  On Linux with signal interest, [sleepTicks] masks the active
    set and drains.  When the drain delivered a signal it unmasks and
    returns without waiting.  Otherwise it waits in [tinygo_wfi_sleep]
    on the active set, with the duration in nanoseconds as an unsigned
    64-bit value (not converted to microseconds); on a negative result
    (the time ran out) it only unmasks, the state being otherwise as
    before the call, and on a result [>= 0] it runs the handler on that
    number, drains and unmasks.  On every path the mask is lifted again
    as the last step and [usleep] is never called. *)
Theorem sleepTicks_linux_timed_wait (T : target) (k : kernel) (d : Z)
        (st : state) :
  GOOS T = linux ->
  hasSignals st = true ->
  Int.is_uint32 (receivedSignals st) ->
  exists got st1,
    checkSignals (log (EvWfiMask (activeSignals st)) st) = Ok got st1
    /\ (got = true <->
        receivedSignals st <> 0 /\ ~ chan_full (signalChan st))
    /\ (got = true ->
        sleepTicks T k d st = Ok tt (log EvWfiUnmask st1)
        /\ trace (log EvWfiUnmask st1)
           = trace st ++ [EvWfiMask (activeSignals st); EvWfiUnmask])
    /\ (got = false ->
        k_wfi_sleep k (activeSignals st) (Int.uint64 d) < 0 ->
        sleepTicks T k d st
        = Ok tt
             (mkState (heapSize st) (heapMaxSize st) (heapStart st)
                      (heapEnd st) (signalChan st) (hasSignals st)
                      (receivedSignals st) (activeSignals st)
                      (trace st ++
                         [EvWfiMask (activeSignals st);
                          EvWfiSleep (activeSignals st) (Int.uint64 d);
                          EvWfiUnmask])))
    /\ (got = false ->
        0 <= k_wfi_sleep k (activeSignals st) (Int.uint64 d) ->
        exists got2 st3,
          checkSignals
            (set_receivedSignals
               (Z.lor (receivedSignals st)
                      (Int.shl32 1
                         (Int.uint32
                            (k_wfi_sleep k (activeSignals st)
                                         (Int.uint64 d)))))
               (log (EvWfiSleep (activeSignals st) (Int.uint64 d))
                    (log (EvWfiMask (activeSignals st)) st)))
          = Ok got2 st3
          /\ sleepTicks T k d st = Ok tt (log EvWfiUnmask st3)
          /\ trace (log EvWfiUnmask st3)
             = trace st ++ [EvWfiMask (activeSignals st);
                            EvWfiSleep (activeSignals st) (Int.uint64 d);
                            EvWfiUnmask]).
Proof.
  intros Hos Hhs Hr.
  set (act := activeSignals st).
  set (st_m := log (EvWfiMask act) st).
  destruct (checkSignals_total st_m Hr)
    as (got & st1 & Hrun & Hiff & Hfalse & Hu & Hcfg & Htr).
  exists got, st1. split; [exact Hrun|]. split; [exact Hiff|].
  pose proof (sleepTicks_linux_eq T k d st Hos Hhs) as Heq.
  fold act in Heq. fold st_m in Heq. rewrite Hrun in Heq.
  split; [|split].
  - intros ->. split; [exact Heq|].
    cbn [trace log]. rewrite Htr. subst st_m. cbn [trace log].
    rewrite <- app_assoc. reflexivity.
  - intros -> Hneg. specialize (Hfalse eq_refl). subst st1.
    rewrite Heq. subst st_m. cbn [activeSignals log]. fold act.
    destruct (Z.geb_spec (k_wfi_sleep k act (Int.uint64 d)) 0) as [Hge|_];
      [lia|].
    unfold tinygo_wfi_unmask, emit, bind, ret, modify, log.
    cbn [heapSize heapMaxSize heapStart heapEnd signalChan hasSignals
         receivedSignals activeSignals trace].
    rewrite <- !app_assoc. reflexivity.
  - intros -> Hpos. specialize (Hfalse eq_refl). subst st1.
    set (sig := k_wfi_sleep k act (Int.uint64 d)) in *.
    match goal with
    | |- exists _ _, checkSignals ?s = _ /\ _ => set (st_h := s)
    end.
    assert (Hrh : Int.is_uint32 (receivedSignals st_h)).
    { subst st_h. cbn [receivedSignals set_receivedSignals].
      apply IntFacts.lor_is_uint32;
        [exact Hr | apply IntFacts.shl32_is_uint32]. }
    destruct (checkSignals_total st_h Hrh)
      as (got2 & st3 & Hrun2 & _ & _ & _ & _ & Htr2).
    exists got2, st3. split; [exact Hrun2|]. split.
    + rewrite Heq. subst st_m. cbn [activeSignals log]. fold act. fold sig.
      destruct (Z.geb_spec sig 0) as [_|Hlt]; [|lia].
      unfold bind at 1. unfold bind at 1.
      rewrite tinygo_signal_handler_eq.
      unfold bind at 1.
      match goal with
      | |- context [checkSignals ?s] => change s with st_h
      end.
      rewrite Hrun2. reflexivity.
    + cbn [trace log]. rewrite Htr2. subst st_h st_m.
      cbn [trace log set_receivedSignals].
      rewrite <- !app_assoc. reflexivity.
Qed.

Lemma sleepTicks_linux_timed_wait_witness :
  sleepTicks linux64 quiet_kernel 5000 idle_state
  = Ok tt
       (mkState 131072 1073741824 4096 135168 (make_chan 1) true 0 40
                ([EvMmap 1073741824; EvSignalEnable 3; EvSignalEnable 5]
                   ++ [EvWfiMask 40; EvWfiSleep 40 5000; EvWfiUnmask])).
Proof.
  assert (Hr : Int.is_uint32 (receivedSignals idle_state))
    by (unfold Int.is_uint32; cbn; lia).
  destruct (sleepTicks_linux_timed_wait linux64 quiet_kernel 5000 idle_state
              eq_refl eq_refl Hr)
    as (got & st1 & Hrun & _ & _ & Htimeout & _).
  apply Htimeout.
  - vm_compute in Hrun. inversion Hrun. reflexivity.
  - vm_compute. reflexivity.
Defined.

(** X7.  From an idle state (signal interest registered, nothing
    pending, the queue of capacity one empty) the signal that ends a
    wait is the next number the reader gets: when [tinygo_wfi_wait]
    (for [waitForEvents]) or, on Linux, [tinygo_wfi_sleep] (for
    [sleepTicks]) answers with a signal number [s] below 32, the call
    returns and the following [signal_recv] returns [s] and leaves the
    state idle again, with only the mask, wait and unmask calls added
    to the trace. *)
Theorem wakeup_signal_reaches_reader (T : target) (k : kernel) (d s : Z)
        (st : state) :
  hasSignals st = true ->
  receivedSignals st = 0 ->
  signalChan st = make_chan 1 ->
  0 <= s < 32 ->
  (k_wfi_wait k (activeSignals st) = s ->
   (waitForEvents k ;; signal_recv) st
   = Ok s (log EvWfiUnmask
             (log (EvWfiWait (activeSignals st))
                  (log (EvWfiMask (activeSignals st)) st))))
  /\ (GOOS T = linux ->
      k_wfi_sleep k (activeSignals st) (Int.uint64 d) = s ->
      (sleepTicks T k d ;; signal_recv) st
      = Ok s (log EvWfiUnmask
                (log (EvWfiSleep (activeSignals st) (Int.uint64 d))
                     (log (EvWfiMask (activeSignals st)) st)))).
Proof.
  intros Hhs Hr Hchan Hs. unfold make_chan in Hchan.
  assert (Hidle : forall e, checkSignals (log e st) = Ok false (log e st))
    by (intros e; apply checkSignals_idle; left; exact Hr).
  assert (Hrecv :
            forall st1,
              receivedSignals st1 = 0 ->
              signalChan st1 = mkChan [] 1 ->
              signal_recv (log EvWfiUnmask (set_signalChan (mkChan [s] 1) st1))
              = Ok s (log EvWfiUnmask st1)).
  { intros st1 Hr1 Hc1. unfold signal_recv.
    cbn [signalChan log set_signalChan chan_recv chan_buf chan_cap].
    erewrite bind_ok by (apply checkSignals_idle; left; exact Hr1).
    unfold ret. f_equal.
    destruct st1; cbn [signalChan] in Hc1; subst; reflexivity. }
  split.
  - intros Hwait. unfold bind at 1. rewrite waitForEvents_eq by exact Hhs.
    rewrite Hidle. cbn [activeSignals log]. rewrite Hwait.
    rewrite wake_then_drain by (try exact Hs; assumption).
    unfold tinygo_wfi_unmask, emit, modify. apply Hrecv; assumption.
  - intros Hos Hsleep. unfold bind at 1.
    rewrite sleepTicks_linux_eq by assumption.
    rewrite Hidle. cbn [activeSignals log]. rewrite Hsleep.
    destruct (Z.geb_spec s 0) as [_|Hlt]; [|lia].
    unfold bind at 1.
    rewrite wake_then_drain by (try exact Hs; assumption).
    unfold ret, tinygo_wfi_unmask, emit, modify. apply Hrecv; assumption.
Qed.

Lemma wakeup_signal_reaches_reader_witness :
  (waitForEvents waking_kernel ;; signal_recv) idle_state
  = Ok 5 (log EvWfiUnmask (log (EvWfiWait 40) (log (EvWfiMask 40) idle_state)))
  /\ (sleepTicks linux64 waking_kernel 5000 ;; signal_recv) idle_state
     = Ok 5 (log EvWfiUnmask
                (log (EvWfiSleep 40 5000) (log (EvWfiMask 40) idle_state))).
Proof.
  destruct (wakeup_signal_reaches_reader linux64 waking_kernel 5000 5
              idle_state) as [Hwait Hsleep].
  - reflexivity.
  - reflexivity.
  - reflexivity.
  - lia.
  - split; [apply Hwait | apply Hsleep]; reflexivity.
Defined.

(** ** Sleeping without signal interest *)

(** X8.  Without signal interest [sleepTicks] makes one [usleep] call,
    for the duration converted to [uint] and divided by 1000, ignores its
    result and never looks at the queue: signals handled during the
    sleep stay pending.  For a duration that fits [uint] the argument is
    the number of whole microseconds (anything below a microsecond
    sleeps for 0).  On a 32-bit target the conversion keeps only the low
    32 bits of the nanosecond count, so the sleep is never longer than
    4294967 microseconds and durations that differ by [2^32] nanoseconds
    sleep equally long. *)
Theorem sleepTicks_plain_microseconds (T : target) (k : kernel) (d : Z)
        (st : state) :
  hasSignals st = false ->
  sleepTicks T k d st
  = Ok tt
       (set_receivedSignals
          (arrive (fst (k_usleep k (Int.uint T d / 1000)))
                  (receivedSignals st))
          (log (EvUsleep (Int.uint T d / 1000)) st))
  /\ (0 <= d < 2 ^ TargetBits T ->
      Int.uint T d / 1000 = d / 1000
      /\ 1000 * (Int.uint T d / 1000) <= d
         < 1000 * (Int.uint T d / 1000) + 1000)
  /\ (TargetBits T = 32 ->
      0 <= Int.uint T d / 1000 <= 4294967
      /\ Int.uint T (d + 2 ^ 32) / 1000 = Int.uint T d / 1000).
Proof.
  intros Hhs. split; [|split].
  - rewrite sleepTicks_plain by exact Hhs.
    erewrite bind_ok by apply usleep_eq. reflexivity.
  - intros Hd. unfold Int.uint. rewrite Z.mod_small by exact Hd.
    split; [reflexivity|].
    pose proof (Z.div_mod d 1000 ltac:(lia)) as Hdm.
    pose proof (Z.mod_pos_bound d 1000 ltac:(lia)) as Hb. lia.
  - intros Hbits. unfold Int.uint. rewrite Hbits. split.
    + pose proof (Z.mod_pos_bound d (2 ^ 32) ltac:(lia)) as Hb.
      split; [apply Z.div_pos; lia|].
      apply Z.lt_succ_r. apply Z.div_lt_upper_bound; lia.
    + replace (d + 2 ^ 32) with (d + 1 * 2 ^ 32) by lia.
      rewrite Z.mod_add by lia. reflexivity.
Qed.

Lemma sleepTicks_plain_microseconds_witness :
  sleepTicks linux32 racing_kernel 5000000000 boot_state
  = Ok tt (set_receivedSignals 8 (log (EvUsleep 705032) boot_state)).
Proof.
  destruct (sleepTicks_plain_microseconds linux32 racing_kernel 5000000000
              boot_state eq_refl) as [Hrun _].
  exact Hrun.
Defined.

(** ** Where the heap ends *)

Section HeapEnd.

Variable T : target.

Lemma heap_end_same st st' :
  heapStart st' = heapStart st -> heapSize st' = heapSize st ->
  heapEnd st' = heapEnd st ->
  heap_end_ok T st -> heap_end_ok T st'.
Proof.
  unfold heap_end_ok. intros -> -> ->. auto.
Qed.

Lemma heap_end_growHeap :
  preserves (fun st st' => heap_end_ok T st -> heap_end_ok T st') (growHeap T).
Proof.
  intros st. rewrite growHeap_eq.
  destruct (heapSize st =? heapMaxSize st); cbn [outcome_rel]; [auto|].
  intros _. reflexivity.
Qed.

Lemma heap_end_exec_op o :
  preserves (fun st st' => heap_end_ok T st -> heap_end_ok T st')
            (exec_op T o).
Proof.
  apply preserves_exec_op.
  - auto.
  - auto.
  - intros c st _. apply heap_end_same; reflexivity.
  - intros v st. apply heap_end_same; reflexivity.
  - intros v st. apply heap_end_same; reflexivity.
  - intros st. apply heap_end_same; reflexivity.
  - intros e st _. apply heap_end_same; reflexivity.
  - apply heap_end_growHeap.
Qed.

Lemma startup_heap_end k st :
  startup T k boot_state = Ok tt st -> heap_end_ok T st.
Proof.
  unfold startup, bind, init, modify.
  destruct (preinit_outcome T k boot_state) as [(n & Hn & ->)| ->];
    [|discriminate].
  intros H. inversion H; subst. reflexivity.
Qed.

Lemma reachable_heap_end st : reachable T st -> heap_end_ok T st.
Proof.
  induction 1 as [k st Hstart|o st st' Hreach IH Hstep].
  - eapply startup_heap_end. exact Hstart.
  - pose proof (heap_end_exec_op o st) as Hpres.
    rewrite Hstep in Hpres. apply Hpres. exact IH.
Qed.

End HeapEnd.

(** X9.  In every state the runtime can reach, [heapEnd] is [heapStart]
    plus [heapSize], taken at pointer width: start-up and [growHeap] set
    it so and nothing else writes any of the three.  When the
    reservation is at least the initial 128 KiB and lies within the
    address space, the live part of the heap therefore stays inside the
    reserved range: [heapStart <= heapEnd <= heapStart + heapMaxSize]. *)
Theorem heapEnd_follows_heapSize (T : target) (st : state) :
  reachable T st ->
  heapEnd st = Int.uintptr T (heapStart st + heapSize st)
  /\ (32 <= TargetBits T ->
      initial_heapSize <= heapMaxSize st ->
      0 <= heapStart st ->
      heapStart st + heapMaxSize st < 2 ^ TargetBits T ->
      heapEnd st = heapStart st + heapSize st
      /\ heapStart st < heapEnd st <= heapStart st + heapMaxSize st).
Proof.
  intros Hreach. pose proof (reachable_heap_end T st Hreach) as Hend.
  split; [exact Hend|].
  intros Hwide Hinit Hstart Hfit.
  destruct (reachable_heap_ok T Hwide st Hreach) as [_ _ Hsize].
  unfold initial_heapSize in *.
  assert (Hsz : 128 * 1024 <= heapSize st <= heapMaxSize st) by lia.
  unfold heap_end_ok, Int.uintptr in Hend.
  rewrite Z.mod_small in Hend by lia. lia.
Qed.

Lemma heapEnd_follows_heapSize_witness :
  heapEnd backlog_state = heapStart backlog_state + heapSize backlog_state
  /\ heapStart backlog_state < heapEnd backlog_state
     <= heapStart backlog_state + heapMaxSize backlog_state.
Proof.
  assert (Hreach : reachable linux64 backlog_state).
  { apply (reachable_run linux64 backlog_ops
             (mkState 131072 1073741824 4096 135168 (make_chan 1) false 0 0
                      [EvMmap 1073741824])).
    - apply (reach_startup linux64 quiet_kernel). vm_compute. reflexivity.
    - vm_compute. reflexivity. }
  destruct (heapEnd_follows_heapSize linux64 backlog_state Hreach)
    as [_ Hin].
  apply Hin.
  - cbn. lia.
  - unfold initial_heapSize. cbn. lia.
  - cbn. lia.
  - cbn. lia.
Defined.

(** ** Growing the heap to its limit *)

Section GrowToLimit.

Variable T : target.
Hypothesis T_wide : 32 <= TargetBits T.

Lemma grow_steps n :
  forall st,
    heap_ok st ->
    heapSize st <= heapMaxSize st ->
    heapMaxSize st - heapSize st <= 4096 * Z.of_nat n ->
    exists st',
      run T (repeat OpGrowHeap n) st = Ok tt st'
      /\ heapSize st' = heapMaxSize st
      /\ heapMaxSize st' = heapMaxSize st
      /\ heapStart st' = heapStart st.
Proof.
  induction n as [|n IH]; intros st Hok Hle Hn.
  - exists st. split; [reflexivity|]. split; [lia|]. auto.
  - cbn [repeat run exec_op].
    pose proof (heap_ok_growHeap T T_wide st) as Hpres.
    rewrite (growHeap_reachable_eq T T_wide st Hok) in Hpres.
    unfold bind at 1. unfold bind at 1.
    rewrite (growHeap_reachable_eq T T_wide st Hok).
    destruct (Z.eqb_spec (heapSize st) (heapMaxSize st)) as [Heq|Hne].
    + unfold ret. apply IH; [exact Hok | lia | lia].
    + unfold ret. cbn [outcome_rel] in Hpres. specialize (Hpres Hok).
      set (sz := Z.min (grow_target (heapSize st)) (heapMaxSize st)) in *.
      assert (Hgrow : heapSize st < sz).
      { destruct Hok as [_ Hpage Hsize]. unfold initial_heapSize in Hsize.
        pose proof (grow_target_increases (heapSize st) Hpage) as Hinc.
        unfold page_size in Hinc. subst sz. lia. }
      assert (Hpage' : sz mod 4096 = 0)
        by (destruct Hpres as [_ Hp _]; exact Hp).
      assert (Hpage : heapSize st mod 4096 = 0)
        by (destruct Hok as [_ Hp _]; exact Hp).
      apply Z.mod_divide in Hpage; [|lia]. apply Z.mod_divide in Hpage'; [|lia].
      destruct Hpage as [q Hq]. destruct Hpage' as [q' Hq'].
      destruct (IH (grown T sz st) Hpres) as (st' & Hrun & Hsz & Hmax & Hst).
      * cbn [grown heapSize heapMaxSize]. subst sz. lia.
      * cbn [grown heapSize heapMaxSize]. lia.
      * exists st'. split; [exact Hrun|]. split; [exact Hsz|].
        split; [exact Hmax | exact Hst].
Qed.

End GrowToLimit.

(** X10.  Repeated [growHeap] reaches the reservation and then stops:
    from a reachable state whose [heapSize] does not exceed
    [heapMaxSize], every successful call adds at least one page, so
    after at most [(heapMaxSize - heapSize) / 4096] calls [heapSize]
    equals [heapMaxSize]; from then on [growHeap] returns false and
    changes nothing. *)
Theorem growHeap_reaches_heapMaxSize (T : target) (st : state) (n : nat) :
  32 <= TargetBits T ->
  reachable T st ->
  heapSize st <= heapMaxSize st ->
  heapMaxSize st - heapSize st <= 4096 * Z.of_nat n ->
  exists st',
    run T (repeat OpGrowHeap n) st = Ok tt st'
    /\ heapSize st' = heapMaxSize st
    /\ heapMaxSize st' = heapMaxSize st
    /\ heapStart st' = heapStart st
    /\ growHeap T st' = Ok false st'.
Proof.
  intros Hwide Hreach Hle Hn.
  destruct (grow_steps T Hwide n st (reachable_heap_ok T Hwide st Hreach)
              Hle Hn) as (st' & Hrun & Hsz & Hmax & Hst).
  exists st'. split; [exact Hrun|]. split; [exact Hsz|].
  split; [exact Hmax|]. split; [exact Hst|].
  rewrite growHeap_eq, Hsz, <- Hmax, Z.eqb_refl. reflexivity.
Qed.

(** ** Waiting until the signals are processed *)

Section IdleWait.

Import Int IntFacts.

Lemma waitUntilIdle_processed_empty fuel Gosched :
  forall st st',
    waitUntilIdle_processed fuel Gosched st = Ok tt st' ->
    chan_buf (signalChan st') = [].
Proof.
  induction fuel as [|fuel IH]; intros st st' H; [discriminate|].
  cbn [waitUntilIdle_processed] in H.
  unfold bind at 1 in H. unfold gets at 1, chan_len in H.
  destruct (chan_buf (signalChan st)) as [|v rest] eqn:Hbuf;
    cbn [List.length Nat.eqb negb] in H.
  - inversion H; subst. exact Hbuf.
  - unfold bind in H.
    destruct (Gosched st) as [[] s1| | |]; try discriminate.
    eapply IH. exact H.
Qed.

Lemma waitUntilIdle_processed_zero fuel Gosched :
  (forall s, receivedSignals s = 0 ->
             outcome_rel (fun _ s' => receivedSignals s' = 0) s (Gosched s)) ->
  forall st st',
    receivedSignals st = 0 ->
    waitUntilIdle_processed fuel Gosched st = Ok tt st' ->
    receivedSignals st' = 0.
Proof.
  intros HG.
  induction fuel as [|fuel IH]; intros st st' Hr H; [discriminate|].
  cbn [waitUntilIdle_processed] in H.
  unfold bind at 1 in H. unfold gets at 1 in H.
  destruct (negb _) in H.
  - unfold bind in H. specialize (HG st Hr).
    destruct (Gosched st) as [[] s1| | |]; try discriminate.
    eapply IH; [exact HG | exact H].
  - inversion H; subst. exact Hr.
Qed.

Lemma waitUntilIdle_send_zero fuel Gosched :
  forall st st',
    waitUntilIdle_send fuel Gosched st = Ok tt st' ->
    receivedSignals st' = 0.
Proof.
  induction fuel as [|fuel IH]; intros st st' H; [discriminate|].
  cbn [waitUntilIdle_send] in H.
  unfold bind at 1 in H. unfold atomic_LoadUint32, gets at 1 in H.
  destruct (Z.eqb_spec (receivedSignals st) 0) as [Hz|Hnz]; cbn [negb] in H.
  - inversion H; subst. exact Hz.
  - unfold bind in H.
    destruct (checkSignals st) as [b s1| | |]; try discriminate.
    destruct (Gosched s1) as [[] s2| | |]; try discriminate.
    eapply IH. exact H.
Qed.

Lemma signal_waitUntilIdle_idle fuel Gosched st :
  receivedSignals st = 0 ->
  chan_buf (signalChan st) = [] ->
  signal_waitUntilIdle (S fuel) Gosched st = Ok tt st.
Proof.
  intros Hr Hbuf. unfold signal_waitUntilIdle.
  cbn [waitUntilIdle_send].
  erewrite bind_ok
    by (unfold bind, atomic_LoadUint32, gets; rewrite Hr; reflexivity).
  cbn [waitUntilIdle_processed]. unfold bind, gets, chan_len.
  rewrite Hbuf. reflexivity.
Qed.

End IdleWait.

(** X11.  Whatever the other goroutines do while the caller yields in
    [Gosched], and however long it takes: when [signal_waitUntilIdle]
    returns, the queue is empty, and the pending mask is empty as well
    provided the goroutines that ran in between did not make a signal
    pending again.  When nothing is pending and the queue is empty to
    begin with, the call does return, in its first round: with room for
    one round of each loop it returns at once, whatever [Gosched] would
    do, and leaves the state as it was, so it has not yielded. *)
Theorem signal_waitUntilIdle_returns_idle (fuel : nat) (Gosched : M unit)
        (st : state) :
  (forall st',
      signal_waitUntilIdle fuel Gosched st = Ok tt st' ->
      chan_buf (signalChan st') = []
      /\ ((forall s, receivedSignals s = 0 ->
                     outcome_rel (fun _ s' => receivedSignals s' = 0) s
                                 (Gosched s)) ->
          receivedSignals st' = 0))
  /\ (receivedSignals st = 0 ->
      chan_buf (signalChan st) = [] ->
      signal_waitUntilIdle (S fuel) Gosched st = Ok tt st
      /\ forall yield : M unit,
          signal_waitUntilIdle (S fuel) yield st = Ok tt st).
Proof.
  split.
  - intros st' Hrun. split.
    + unfold signal_waitUntilIdle, bind in Hrun.
      destruct (waitUntilIdle_send fuel Gosched st) as [[] s1| | |];
        try discriminate.
      eapply waitUntilIdle_processed_empty. exact Hrun.
    + intros HG. unfold signal_waitUntilIdle, bind in Hrun.
      destruct (waitUntilIdle_send fuel Gosched st) as [[] s1| | |] eqn:Hsend;
        try discriminate.
      eapply waitUntilIdle_processed_zero; [exact HG | | exact Hrun].
      eapply waitUntilIdle_send_zero. exact Hsend.
  - intros Hr Hbuf. split.
    + apply signal_waitUntilIdle_idle; assumption.
    + intros yield. apply signal_waitUntilIdle_idle; assumption.
Qed.

Lemma signal_waitUntilIdle_returns_idle_witness :
  (signal_waitUntilIdle 2 consumer pending_state = Ok tt idle_state
   /\ chan_buf (signalChan idle_state) = [])
  /\ signal_waitUntilIdle 1 (runtimePanic "yielded") idle_state
     = Ok tt idle_state.
Proof.
  split.
  - assert (Hrun : signal_waitUntilIdle 2 consumer pending_state
                   = Ok tt idle_state) by (vm_compute; reflexivity).
    split; [exact Hrun|].
    destruct (signal_waitUntilIdle_returns_idle 2 consumer pending_state)
      as [Hret _].
    apply (Hret idle_state Hrun).
  - destruct (signal_waitUntilIdle_returns_idle
                0 (runtimePanic "yielded") idle_state) as [_ Hidle].
    apply Hidle; reflexivity.
Defined.

Lemma growHeap_reaches_heapMaxSize_witness :
  exists st0 st',
    startup linux64 (kernel_granting linux64 262144 4096) boot_state
    = Ok tt st0
    /\ run linux64 (repeat OpGrowHeap 32) st0 = Ok tt st'
    /\ heapSize st0 = 131072
    /\ heapSize st' = 262144.
Proof.
  set (st0 := mkState 131072 262144 4096 135168 (make_chan 1) false 0 0
                      (mmap_attempts 0 13)).
  assert (Hstart : startup linux64 (kernel_granting linux64 262144 4096)
                           boot_state = Ok tt st0)
    by (vm_compute; reflexivity).
  destruct (growHeap_reaches_heapMaxSize linux64 st0 32)
    as (st' & Hrun & Hsz & _).
  - cbn. lia.
  - eapply reach_startup. exact Hstart.
  - cbn. lia.
  - cbn. lia.
  - exists st0, st'. split; [exact Hstart|]. split; [exact Hrun|].
    split; [reflexivity | exact Hsz].
Defined.

(** ** The reader empties the backlog *)

Section Backlog.

Import Int IntFacts.

Lemma same_config_refl st : same_config st st.
Proof. constructor; reflexivity. Qed.

Lemma same_config_trans a b c :
  same_config a b -> same_config b c -> same_config a c.
Proof.
  intros [H1 H2 H3 H4 H5 H6 H7] [G1 G2 G3 G4 G5 G6 G7].
  constructor; congruence.
Qed.

Lemma backlog_eq st :
  backlog st
  = (List.length (pending_list (receivedSignals st))
     + List.length (chan_buf (signalChan st)))%nat.
Proof. reflexivity. Qed.

Lemma length_cons_Z (a : Z) l : List.length (a :: l) = S (List.length l).
Proof. reflexivity. Qed.

Lemma pending_list_length r : (List.length (pending_list r) <= 32)%nat.
Proof.
  unfold pending_list.
  eapply Nat.le_trans; [apply filter_length_le|].
  rewrite length_map, length_seq. apply Nat.le_refl.
Qed.

Lemma checkSignals_loop_backlog fuel :
  forall got st,
    is_uint32 (receivedSignals st) ->
    match checkSignals_loop fuel got st with
    | Ok _ st' => backlog st' = backlog st
    | _ => True
    end.
Proof.
  induction fuel as [|fuel IH]; intros got st Hu; [exact I|].
  rewrite checkSignals_loop_step.
  destruct (Z.eqb_spec (receivedSignals st) 0) as [Hz|Hnz]; [reflexivity|].
  destruct (chan_send_nb (signalChan st) _) as [c|] eqn:Hsend;
    [|reflexivity].
  apply chan_send_nb_some in Hsend. destruct Hsend as [-> _].
  match goal with
  | |- match checkSignals_loop _ _ ?s with _ => _ end =>
      specialize (IH true s); destruct (checkSignals_loop fuel true s);
      try exact I
  end.
  rewrite IH
    by (cbn [receivedSignals set_receivedSignals];
        apply andnot_is_uint32; [exact Hu | apply shl32_is_uint32]).
  rewrite !backlog_eq.
  cbn [receivedSignals signalChan set_receivedSignals set_signalChan
       chan_buf].
  rewrite (pending_list_cons (receivedSignals st)) by assumption.
  rewrite length_app, !length_cons_Z.
  change (List.length (@nil Z)) with 0%nat. lia.
Qed.

(** The drain on a well-formed state: the backlog is only moved from the
    mask to the queue, and what stays pending stays so for want of
    room. *)
Lemma checkSignals_backlog st :
  queue_ok st ->
  exists got st',
    checkSignals st = Ok got st'
    /\ queue_ok st'
    /\ same_config st st'
    /\ trace st' = trace st
    /\ backlog st' = backlog st
    /\ (receivedSignals st <> 0 -> chan_buf (signalChan st') <> []).
Proof.
  intros Hq.
  destruct (checkSignals_queue_ok st Hq)
    as (got & st' & Heq & Hq' & _ & Hcfg & Htr).
  exists got, st'. split; [exact Heq|]. split; [exact Hq'|].
  split; [exact Hcfg|]. split; [exact Htr|].
  pose proof (checkSignals_loop_backlog checkSignals_fuel false st
                (qo_mask st Hq)) as Hb.
  fold checkSignals in Hb. rewrite Heq in Hb.
  assert (Hb' : backlog st' = backlog st) by exact Hb. clear Hb.
  split; [exact Hb'|].
  intros Hnz Hempty.
  destruct (checkSignals_spec st (qo_mask st Hq))
    as (sent & st2 & Heq2 & Hrel).
  rewrite Heq in Heq2. inversion Heq2; subst st2. clear Heq2.
  destruct (Z.eq_dec (receivedSignals st') 0) as [Hz'|Hnz'].
  - rewrite !backlog_eq in Hb'.
    rewrite Hempty, Hz', pending_list_zero in Hb'.
    rewrite (pending_list_cons (receivedSignals st)) in Hb'
      by (try exact Hnz; apply (qo_mask st Hq)).
    rewrite length_cons_Z in Hb'.
    change (List.length (@nil Z)) with 0%nat in Hb'. lia.
  - pose proof (dr_stop _ _ _ Hrel Hnz') as Hfull.
    unfold chan_full in Hfull.
    rewrite (qo_cap st' Hq'), Hempty in Hfull.
    change (List.length (@nil Z)) with 0%nat in Hfull. lia.
Qed.

Lemma consumer_backlog st :
  queue_ok st ->
  exists st',
    consumer st = Ok tt st'
    /\ queue_ok st'
    /\ same_config st st'
    /\ trace st' = trace st
    /\ (chan_buf (signalChan st) = [] -> st' = st)
    /\ (chan_buf (signalChan st) <> [] -> S (backlog st') = backlog st)
    /\ (receivedSignals st = 0 ->
        receivedSignals st' = 0 /\ chan_buf (signalChan st') = []).
Proof.
  intros Hq. unfold consumer.
  destruct (chan_buf (signalChan st)) as [|v rest] eqn:Hbuf.
  - exists st. split; [reflexivity|]. split; [exact Hq|].
    split; [apply same_config_refl|]. split; [reflexivity|].
    split; [reflexivity|]. split; [congruence|]. auto.
  - destruct (queue_ok_recv st v rest Hq Hbuf) as (_ & -> & Hq1).
    set (s1 := set_signalChan _ st) in *.
    destruct (checkSignals_backlog s1 Hq1)
      as (got & st' & Hcs & Hq' & Hcfg & Htr & Hb & _).
    exists st'.
    assert (Hrun : (signal_recv ;; ret tt) st = Ok tt st').
    { unfold bind at 1. unfold signal_recv, chan_recv. rewrite Hbuf.
      fold s1. rewrite (bind_ok _ _ _ _ _ _ _ Hcs). reflexivity. }
    split; [exact Hrun|]. split; [exact Hq'|].
    split; [|split; [exact Htr|split; [discriminate|split]]].
    + eapply same_config_trans; [|exact Hcfg].
      constructor; reflexivity.
    + intros _. rewrite Hb, !backlog_eq. subst s1.
      cbn [receivedSignals signalChan set_signalChan chan_buf].
      rewrite Hbuf, length_cons_Z.
      change (List.length (@nil Z)) with 0%nat. lia.
    + intros Hz.
      assert (Hidle : checkSignals s1 = Ok false s1)
        by (apply checkSignals_idle; left; exact Hz).
      rewrite Hidle in Hcs. inversion Hcs; subst st'.
      split; [exact Hz | reflexivity].
Qed.

Lemma waitUntilIdle_send_consumer fuel :
  forall st,
    queue_ok st ->
    (backlog st < fuel)%nat ->
    exists st',
      waitUntilIdle_send fuel consumer st = Ok tt st'
      /\ queue_ok st'
      /\ receivedSignals st' = 0
      /\ same_config st st'
      /\ trace st' = trace st.
Proof.
  induction fuel as [|fuel IH]; intros st Hq Hfuel; [lia|].
  cbn [waitUntilIdle_send].
  unfold bind at 1. unfold atomic_LoadUint32, gets at 1.
  destruct (Z.eqb_spec (receivedSignals st) 0) as [Hz|Hnz]; cbn [negb].
  - exists st. split; [reflexivity|]. split; [exact Hq|].
    split; [exact Hz|]. split; [apply same_config_refl | reflexivity].
  - destruct (checkSignals_backlog st Hq)
      as (got & s1 & Hcs & Hq1 & Hcfg1 & Htr1 & Hb1 & Hne).
    destruct (consumer_backlog s1 Hq1)
      as (s2 & Hco & Hq2 & Hcfg2 & Htr2 & _ & Hb2 & _).
    specialize (Hb2 (Hne Hnz)).
    destruct (IH s2 Hq2) as (st' & Hrun & Hq' & Hz' & Hcfg' & Htr');
      [lia|].
    exists st'. split.
    + rewrite (bind_ok _ _ _ _ _ _ _ Hcs).
      rewrite (bind_ok _ _ _ _ _ _ _ Hco). exact Hrun.
    + split; [exact Hq'|]. split; [exact Hz'|]. split.
      * eapply same_config_trans; [exact Hcfg1|].
        eapply same_config_trans; [exact Hcfg2 | exact Hcfg'].
      * congruence.
Qed.

Lemma waitUntilIdle_processed_consumer fuel st :
  queue_ok st ->
  receivedSignals st = 0 ->
  exists st',
    waitUntilIdle_processed (S (S fuel)) consumer st = Ok tt st'
    /\ receivedSignals st' = 0
    /\ chan_buf (signalChan st') = []
    /\ same_config st st'
    /\ trace st' = trace st.
Proof.
  intros Hq Hz.
  destruct (chan_buf (signalChan st)) as [|v rest] eqn:Hbuf.
  - exists st. split.
    + cbn [waitUntilIdle_processed]. unfold bind, gets, chan_len.
      rewrite Hbuf. reflexivity.
    + split; [exact Hz|]. split; [exact Hbuf|].
      split; [apply same_config_refl | reflexivity].
  - destruct (consumer_backlog st Hq)
      as (s1 & Hco & Hq1 & Hcfg & Htr & _ & _ & Hidle).
    destruct (Hidle Hz) as [Hz1 Hbuf1].
    exists s1. split.
    + change (waitUntilIdle_processed (S (S fuel)) consumer)
        with (n <- gets (fun st => chan_len (signalChan st)) ;;
              if negb (Nat.eqb n 0)
              then consumer ;; waitUntilIdle_processed (S fuel) consumer
              else ret tt).
      unfold bind at 1. unfold gets at 1, chan_len. rewrite Hbuf.
      cbn [List.length Nat.eqb negb].
      rewrite (bind_ok _ _ _ _ _ _ _ Hco).
      cbn [waitUntilIdle_processed]. unfold bind, gets, chan_len.
      rewrite Hbuf1. reflexivity.
    + split; [exact Hz1|]. split; [exact Hbuf1|].
      split; [exact Hcfg | exact Htr].
Qed.

Lemma waitUntilIdle_send_alone fuel :
  forall st,
    is_uint32 (receivedSignals st) ->
    chan_buf (signalChan st) <> [] ->
    waitUntilIdle_send fuel (ret tt) st = OutOfFuel
    \/ exists st',
        waitUntilIdle_send fuel (ret tt) st = Ok tt st'
        /\ chan_buf (signalChan st') <> [].
Proof.
  induction fuel as [|fuel IH]; intros st Hu Hbuf; [left; reflexivity|].
  assert (Heq : waitUntilIdle_send (S fuel) (ret tt) st
                = if receivedSignals st =? 0 then Ok tt st
                  else (checkSignals ;; waitUntilIdle_send fuel (ret tt)) st).
  { cbn [waitUntilIdle_send]. unfold bind, atomic_LoadUint32, gets, ret.
    destruct (receivedSignals st =? 0); cbn [negb]; [reflexivity|].
    destruct (checkSignals st); reflexivity. }
  rewrite Heq. clear Heq.
  destruct (Z.eqb_spec (receivedSignals st) 0) as [Hz|Hnz].
  - right. exists st. split; [reflexivity | exact Hbuf].
  - destruct (checkSignals_spec st Hu) as (sent & s1 & Hcs & Hrel).
    rewrite (bind_ok _ _ _ _ _ _ _ Hcs).
    apply IH.
    + exact (dr_uint32 _ _ _ Hrel).
    + rewrite (dr_state _ _ _ Hrel). unfold drained.
      cbn [signalChan set_receivedSignals set_signalChan chan_buf].
      intros Happ. apply app_eq_nil in Happ. destruct Happ as [Happ _].
      exact (Hbuf Happ).
Qed.

Lemma waitUntilIdle_processed_alone fuel :
  forall st,
    chan_buf (signalChan st) <> [] ->
    waitUntilIdle_processed fuel (ret tt) st = OutOfFuel.
Proof.
  induction fuel as [|fuel IH]; intros st Hbuf; [reflexivity|].
  cbn [waitUntilIdle_processed].
  unfold bind at 1. unfold gets at 1, chan_len.
  destruct (chan_buf (signalChan st)) as [|v rest] eqn:E; [congruence|].
  cbn [List.length Nat.eqb negb].
  change ((ret tt ;; waitUntilIdle_processed fuel (ret tt)) st)
    with (waitUntilIdle_processed fuel (ret tt) st).
  apply IH. rewrite E. discriminate.
Qed.

End Backlog.

(** X12.  With a reader of the queue among the other goroutines,
    [signal_waitUntilIdle] returns.  From any state with a well-formed
    queue, each round of its first loop (a drain, then a yield in which
    the reader takes what is queued) takes one signal off the backlog,
    so at most 33 rounds empty the pending mask, and at most one more
    yield empties the queue.  When it returns nothing is pending, the
    queue is empty, and no kernel call was made. *)
Theorem signal_waitUntilIdle_with_reader (fuel : nat) (st : state) :
  queue_ok st ->
  (34 <= fuel)%nat ->
  exists st',
    signal_waitUntilIdle fuel consumer st = Ok tt st'
    /\ receivedSignals st' = 0
    /\ chan_buf (signalChan st') = []
    /\ same_config st st'
    /\ trace st' = trace st.
Proof.
  intros Hq Hfuel.
  assert (Hb : (backlog st < fuel)%nat).
  { rewrite backlog_eq.
    pose proof (pending_list_length (receivedSignals st)).
    pose proof (qo_len st Hq). lia. }
  destruct (waitUntilIdle_send_consumer fuel st Hq Hb)
    as (s1 & Hsend & Hq1 & Hz1 & Hcfg1 & Htr1).
  destruct fuel as [|[|fuel]]; [lia | lia |].
  destruct (waitUntilIdle_processed_consumer fuel s1 Hq1 Hz1)
    as (st' & Hproc & Hz' & Hbuf' & Hcfg' & Htr').
  exists st'. split.
  - unfold signal_waitUntilIdle.
    rewrite (bind_ok _ _ _ _ _ _ _ Hsend). exact Hproc.
  - split; [exact Hz'|]. split; [exact Hbuf'|]. split.
    + eapply same_config_trans; eassumption.
    + congruence.
Qed.

Lemma signal_waitUntilIdle_with_reader_witness :
  exists st',
    signal_waitUntilIdle 34 consumer backlog_state = Ok tt st'
    /\ receivedSignals st' = 0
    /\ chan_buf (signalChan st') = []
    /\ same_config backlog_state st'
    /\ trace st' = trace backlog_state.
Proof.
  apply (signal_waitUntilIdle_with_reader 34 backlog_state).
  - constructor.
    + unfold Int.is_uint32. cbn. lia.
    + reflexivity.
    + cbn. lia.
    + repeat constructor; cbn; lia.
  - lia.
Defined.

(** X13.  Without a reader [signal_waitUntilIdle] never returns: when
    the queue is not empty and the goroutines that run while the caller
    yields leave the runtime's state alone, the call is still looping
    after any number of rounds, whether in the first loop (a signal
    pending, the queue full) or in the second. *)
Theorem signal_waitUntilIdle_without_reader (fuel : nat) (st : state) :
  Int.is_uint32 (receivedSignals st) ->
  chan_buf (signalChan st) <> [] ->
  signal_waitUntilIdle fuel (ret tt) st = OutOfFuel.
Proof.
  intros Hu Hbuf. unfold signal_waitUntilIdle.
  destruct (waitUntilIdle_send_alone fuel st Hu Hbuf)
    as [Hout|(s1 & Hsend & Hbuf1)].
  - unfold bind. rewrite Hout. reflexivity.
  - rewrite (bind_ok _ _ _ _ _ _ _ Hsend).
    apply waitUntilIdle_processed_alone. exact Hbuf1.
Qed.

Lemma signal_waitUntilIdle_without_reader_witness :
  signal_waitUntilIdle 1000 (ret tt) backlog_state = OutOfFuel.
Proof.
  apply (signal_waitUntilIdle_without_reader 1000 backlog_state).
  - unfold Int.is_uint32. cbn. lia.
  - discriminate.
Defined.

(** ** Ticks and wall-clock time *)

Section TickFacts.

Import Int.

Lemma getTime_reading T k clock st :
  getTime T k clock st
  = Ok (nanoseconds (kernel_reading T k clock) mod 2 ^ 64)
       (log (reading_event T clock) st).
Proof.
  rewrite getTime_eq. unfold kernel_reading, reading_event, nanoseconds.
  destruct (TargetBits T =? 32); reflexivity.
Qed.

Lemma int64_small x : is_int64 x -> int64 x = x.
Proof.
  unfold is_int64, int64. intros Hx.
  rewrite Z.mod_small by lia. lia.
Qed.

Lemma int64_large x : 2 ^ 63 <= x < 2 ^ 64 -> int64 x = x - 2 ^ 64.
Proof.
  unfold int64. intros Hx.
  rewrite <- (Z.mod_add (x + 2 ^ 63) (-1) (2 ^ 64)) by lia.
  rewrite Z.mod_small by lia. lia.
Qed.

Lemma int32_small x : - 2 ^ 31 <= x < 2 ^ 31 -> int32 x = x.
Proof.
  unfold int32. intros Hx.
  rewrite Z.mod_small by lia. lia.
Qed.

End TickFacts.

(** X14.  [ticks] is the monotonic clock reading in nanoseconds taken as
    a signed 64-bit value: it is the reading itself while that is below
    [2^63] and negative from there up to [2^64].  [now] reads the
    real-time clock and then the monotonic one; it returns the seconds
    and nanoseconds of the real-time reading unchanged whenever the
    seconds fit 64 signed bits and the nanoseconds are below one second,
    and with them the value of [ticks].  Neither changes anything but
    the record of the kernel calls. *)
Theorem ticks_and_now_conversions (T : target) (k : kernel) (st : state) :
  ticks T k st
  = Ok (Int.int64
          (nanoseconds (kernel_reading T k (clock_MONOTONIC_RAW T))
           mod 2 ^ 64))
       (log (reading_event T (clock_MONOTONIC_RAW T)) st)
  /\ (0 <= nanoseconds (kernel_reading T k (clock_MONOTONIC_RAW T)) < 2 ^ 63 ->
      ticks T k st
      = Ok (nanoseconds (kernel_reading T k (clock_MONOTONIC_RAW T)))
           (log (reading_event T (clock_MONOTONIC_RAW T)) st))
  /\ (2 ^ 63 <= nanoseconds (kernel_reading T k (clock_MONOTONIC_RAW T))
      < 2 ^ 64 ->
      exists t,
        ticks T k st = Ok t (log (reading_event T (clock_MONOTONIC_RAW T)) st)
        /\ t < 0
        /\ t = nanoseconds (kernel_reading T k (clock_MONOTONIC_RAW T))
               - 2 ^ 64)
  /\ now T k st
     = Ok (Int.int64 (tv_sec (kernel_reading T k (clock_REALTIME T))),
           Int.int32 (tv_nsec (kernel_reading T k (clock_REALTIME T))),
           Int.int64
             (nanoseconds (kernel_reading T k (clock_MONOTONIC_RAW T))
              mod 2 ^ 64))
          (log (reading_event T (clock_MONOTONIC_RAW T))
               (log (reading_event T (clock_REALTIME T)) st))
  /\ (Int.is_int64 (tv_sec (kernel_reading T k (clock_REALTIME T))) ->
      0 <= tv_nsec (kernel_reading T k (clock_REALTIME T)) < 10 ^ 9 ->
      exists mono st',
        now T k st
        = Ok (tv_sec (kernel_reading T k (clock_REALTIME T)),
              tv_nsec (kernel_reading T k (clock_REALTIME T)), mono) st').
Proof.
  assert (Hticks :
            forall s,
              ticks T k s
              = Ok (Int.int64
                      (nanoseconds (kernel_reading T k (clock_MONOTONIC_RAW T))
                       mod 2 ^ 64))
                   (log (reading_event T (clock_MONOTONIC_RAW T)) s)).
  { intros s. unfold ticks, monotime.
    erewrite bind_ok by apply getTime_reading. reflexivity. }
  assert (Hnow :
            now T k st
            = Ok (Int.int64 (tv_sec (kernel_reading T k (clock_REALTIME T))),
                  Int.int32 (tv_nsec (kernel_reading T k (clock_REALTIME T))),
                  Int.int64
                    (nanoseconds
                       (kernel_reading T k (clock_MONOTONIC_RAW T))
                     mod 2 ^ 64))
                 (log (reading_event T (clock_MONOTONIC_RAW T))
                      (log (reading_event T (clock_REALTIME T)) st))).
  { unfold now, nanotime, ticksToNanoseconds.
    erewrite bind_ok.
    2:{ unfold clock_gettime, kernel_reading, reading_event.
        instantiate (1 := log (reading_event T (clock_REALTIME T)) st).
        instantiate (1 := kernel_reading T k (clock_REALTIME T)).
        unfold kernel_reading, reading_event.
        destruct (TargetBits T =? 32); reflexivity. }
    erewrite bind_ok.
    2:{ erewrite bind_ok by apply Hticks. reflexivity. }
    reflexivity. }
  split; [apply Hticks|]. split; [|split; [|split]].
  - intros Hsmall. rewrite Hticks. rewrite Z.mod_small by lia.
    rewrite int64_small by (unfold Int.is_int64; lia). reflexivity.
  - intros Hlarge. eexists. split; [apply Hticks|].
    rewrite Z.mod_small by lia. rewrite int64_large by exact Hlarge.
    split; [lia | reflexivity].
  - exact Hnow.
  - intros Hsec Hnsec. do 2 eexists. rewrite Hnow.
    rewrite (int64_small _ Hsec). rewrite int32_small by lia. reflexivity.
Qed.
